(** * sjtu::linked_hashmap: a shallow embedding and its verification

    The container of [src/linked_hashmap.hpp] is a hash table with chaining
    whose nodes are also threaded on a doubly linked list bounded by two
    sentinel nodes.  All of its state lives behind raw pointers, so the
    embedding keeps an explicit store of heap objects addressed by
    locations; every member function is a computation in a small state and
    error monad over that store.

    Conventions of the model:
    - [size_t] is [N] with the 64-bit wrap-around written out ([wrap]);
    - a pointer is [option positive], [None] being [nullptr];
    - dereferencing a null or dangling pointer, indexing outside an array
      and [% 0] are undefined behaviour: the computation ends in [Fault];
    - a [while] loop over pointers takes fuel, one unit per iteration; the
      fuel handed to it is one more than the number of objects in the
      store, which a loop that does not cycle can never exhaust.  Running
      out of fuel ([Timeout]) therefore stands for a loop that never ends;
    - memory exhaustion ([std::bad_alloc]) is not modelled. *)

From stdpp Require Import gmap list fin_maps fin_sets.
From Stdlib Require Import NArith Lia.

Module sjtu.

Abbreviation loc := positive (only parsing).
Abbreviation ptr := (option positive) (only parsing).

(** The two exception classes of [exceptions.hpp] the container throws. *)
Inductive exn := invalid_iterator | index_out_of_bound.

Global Instance exn_eq_dec : EqDecision exn.
Proof. solve_decision. Defined.

(** [size_t] arithmetic is modulo [2^64]. *)
Definition wrap (n : N) : N := (n mod 2 ^ 64)%N.

Definition INITIAL_BUCKET_COUNT : N := 16.

(** [n > bucket_count * LOAD_FACTOR] with [LOAD_FACTOR = 0.75].  The source
    compares in [double]; the product is exact for every bucket count the
    container can reach (16 doubled some number of times) and the conversion
    of [n] is exact below [2^53], where the comparison is the one on
    integers written here. *)
Definition exceeds_load (n bc : N) : bool := (3 * bc <? 4 * n)%N.

(** The bucket count after inserting a new key into a container of [len]
    entries and [bc] buckets. *)
Definition grown (len : nat) (bc : N) : N :=
  if exceeds_load (N.of_nat len + 1) bc then (2 * bc)%N else bc.

(** A bound under which no bucket count overflows [size_t]: the bucket
    count stays below [2^63] as long as the container has held at most
    [2^60] entries. *)
Definition bounded (bc : N) (cap : nat) : Prop :=
  (bc ≤ 2 ^ 62 ∨ 3 * bc < 8 * N.of_nat cap)%N.

(** The template arguments [Hash] and [Equal] are stateless function
    objects; [T()] is the value-initialised mapped value of [operator[]]. *)
Class Hash (Key : Type) := hash_func : Key → N.
Class Equal (Key : Type) := equal_func : Key → Key → bool.
Class DefaultConstructible (T : Type) := T_default : T.

Section linked_hashmap.

Context {Key T : Type} `{!Hash Key, !Equal Key, !DefaultConstructible T}.

(** [typedef pair<const Key, T> value_type] *)
Abbreviation value_type := (Key * T)%type (only parsing).

Record Node := mkNode {
  data : option value_type;      (* value_type *data, owned by the node *)
  next_in_bucket : ptr;
  prev : ptr;
  next : ptr
}.

Record linked_hashmap := mkMap {
  head : ptr;
  tail : ptr;
  buckets : ptr;
  bucket_count : N;
  element_count : N
}.

Inductive object :=
| ONode (n : Node)
| OArray (a : list ptr)          (* a Node*[] array *)
| OMap (m : linked_hashmap).

Abbreviation store := (gmap positive object) (only parsing).

Record iterator := mkIt { node : ptr; map : ptr }.

(** ** The monad *)

Inductive outcome (A : Type) :=
| Ret (a : A) (s : store)        (* normal return *)
| Throw (e : exn) (s : store)    (* an exception leaves the function *)
| Fault                          (* undefined behaviour *)
| Timeout.                       (* the loop fuel ran out *)
Global Arguments Ret {A} a s.
Global Arguments Throw {A} e s.
Global Arguments Fault {A}.
Global Arguments Timeout {A}.

Definition M (A : Type) : Type := store → outcome A.

Global Instance M_ret : MRet M := λ A a s, Ret a s.
Global Instance M_bind : MBind M := λ A B k m s,
  match m s with
  | Ret a s' => k a s'
  | Throw e s' => Throw e s'
  | Fault => Fault
  | Timeout => Timeout
  end.

Definition fault {A} : M A := λ _, Fault.
Definition timeout {A} : M A := λ _, Timeout.
Definition throw {A} (e : exn) : M A := λ s, Throw e s.

(** One unit of fuel per loop iteration, one more than the store holds. *)
Definition with_fuel {A} (f : nat → M A) : M A := λ s, f (S (size s)) s.

(** [for (size_t i = from; i < from + n; ++i) body(i)] *)
Fixpoint for_range (n : nat) (i : N) (body : N → M unit) : M unit :=
  match n with
  | O => mret ()
  | S n' => body i ;; for_range n' (i + 1)%N body
  end.

(** ** Memory *)

Definition load (p : ptr) : M object := λ s,
  match p with
  | Some a => match s !! a with Some o => Ret o s | None => Fault end
  | None => Fault
  end.

Definition update (p : ptr) (o : object) : M unit := λ s,
  match p with
  | Some a => match s !! a with Some _ => Ret () (<[a:=o]> s) | None => Fault end
  | None => Fault
  end.

(** [new]: the object is placed at an address not in use. *)
Definition alloc (o : object) : M ptr := λ s,
  let a := fresh (dom s) in Ret (Some a) (<[a:=o]> s).

(** [delete] / [delete[]] of a non-null pointer. *)
Definition dealloc (p : ptr) : M unit := λ s,
  match p with
  | Some a => match s !! a with Some _ => Ret () (delete a s) | None => Fault end
  | None => Fault
  end.

Definition load_node (p : ptr) : M Node :=
  o ← load p; match o with ONode n => mret n | _ => fault end.
Definition load_map (p : ptr) : M linked_hashmap :=
  o ← load p; match o with OMap m => mret m | _ => fault end.
Definition load_array (p : ptr) : M (list ptr) :=
  o ← load p; match o with OArray a => mret a | _ => fault end.

Definition get_data (p : ptr) : M (option value_type) := n ← load_node p; mret (data n).
Definition get_next_in_bucket (p : ptr) : M ptr := n ← load_node p; mret (next_in_bucket n).
Definition get_prev (p : ptr) : M ptr := n ← load_node p; mret (prev n).
Definition get_next (p : ptr) : M ptr := n ← load_node p; mret (next n).

Definition set_data (p : ptr) (v : option value_type) : M unit :=
  n ← load_node p; update p (ONode (mkNode v (next_in_bucket n) (prev n) (next n))).
Definition set_next_in_bucket (p : ptr) (v : ptr) : M unit :=
  n ← load_node p; update p (ONode (mkNode (data n) v (prev n) (next n))).
Definition set_prev (p : ptr) (v : ptr) : M unit :=
  n ← load_node p; update p (ONode (mkNode (data n) (next_in_bucket n) v (next n))).
Definition set_next (p : ptr) (v : ptr) : M unit :=
  n ← load_node p; update p (ONode (mkNode (data n) (next_in_bucket n) (prev n) v)).

Definition get_head (this : ptr) : M ptr := m ← load_map this; mret (head m).
Definition get_tail (this : ptr) : M ptr := m ← load_map this; mret (tail m).
Definition get_buckets (this : ptr) : M ptr := m ← load_map this; mret (buckets m).
Definition get_bucket_count (this : ptr) : M N := m ← load_map this; mret (bucket_count m).
Definition get_element_count (this : ptr) : M N := m ← load_map this; mret (element_count m).

Definition set_head (this : ptr) (v : ptr) : M unit :=
  m ← load_map this;
  update this (OMap (mkMap v (tail m) (buckets m) (bucket_count m) (element_count m))).
Definition set_tail (this : ptr) (v : ptr) : M unit :=
  m ← load_map this;
  update this (OMap (mkMap (head m) v (buckets m) (bucket_count m) (element_count m))).
Definition set_buckets (this : ptr) (v : ptr) : M unit :=
  m ← load_map this;
  update this (OMap (mkMap (head m) (tail m) v (bucket_count m) (element_count m))).
Definition set_bucket_count (this : ptr) (v : N) : M unit :=
  m ← load_map this;
  update this (OMap (mkMap (head m) (tail m) (buckets m) v (element_count m))).
Definition set_element_count (this : ptr) (v : N) : M unit :=
  m ← load_map this;
  update this (OMap (mkMap (head m) (tail m) (buckets m) (bucket_count m) v)).

(** [b[i]] as an rvalue and as the target of an assignment. *)
Definition array_get (b : ptr) (i : N) : M ptr :=
  a ← load_array b;
  match a !! N.to_nat i with Some p => mret p | None => fault end.
Definition array_set (b : ptr) (i : N) (v : ptr) : M unit :=
  a ← load_array b;
  match a !! N.to_nat i with
  | Some _ => update b (OArray (<[N.to_nat i:=v]> a))
  | None => fault
  end.

(** [*p] of a [value_type *]. *)
Definition deref {A} (d : option A) : M A :=
  match d with Some x => mret x | None => fault end.

(** [new Node()] and [new Node(val)]. *)
Definition new_Node : M ptr := alloc (ONode (mkNode None None None None)).
Definition new_Node_val (val : value_type) : M ptr :=
  alloc (ONode (mkNode (Some val) None None None)).

(** [new Node*[count]]; the elements are indeterminate until assigned and
    are represented by null. *)
Definition new_array (count : N) : M ptr :=
  alloc (OArray (replicate (N.to_nat count) None)).

(** ** Private member functions *)

Definition init_sentinels (this : ptr) : M unit :=
  h ← new_Node; set_head this h;;
  t ← new_Node; set_tail this t;;
  h ← get_head this; t ← get_tail this; set_next h t;;
  t ← get_tail this; h ← get_head this; set_prev t h.

Definition init_buckets (this : ptr) (count : N) : M unit :=
  set_bucket_count this count;;
  bc ← get_bucket_count this;
  b ← new_array bc; set_buckets this b;;
  for_range (N.to_nat bc) 0%N (λ i, b ← get_buckets this; array_set b i None).

Definition get_bucket_index (this : ptr) (key : Key) : M N :=
  bc ← get_bucket_count this;
  if (bc =? 0)%N then fault else mret (hash_func key mod bc)%N.

Fixpoint find_in_bucket_loop (fuel : nat) (key : Key) (nd : ptr) : M ptr :=
  match fuel with
  | O => timeout
  | S fuel' =>
    match nd with
    | None => mret None
    | Some _ =>
      d ← get_data nd; kv ← deref d;
      if equal_func kv.1 key then mret nd
      else nxt ← get_next_in_bucket nd; find_in_bucket_loop fuel' key nxt
    end
  end.

Definition find_in_bucket (this : ptr) (key : Key) (bucket_idx : N) : M ptr :=
  b ← get_buckets this;
  nd ← array_get b bucket_idx;
  with_fuel (λ fuel, find_in_bucket_loop fuel key nd).

Fixpoint rehash_loop (fuel : nat) (this : ptr) (new_bucket_count : N)
    (new_buckets : ptr) (nd : ptr) : M unit :=
  match fuel with
  | O => timeout
  | S fuel' =>
    t ← get_tail this;
    if decide (nd = t) then mret ()
    else
      d ← get_data nd; kv ← deref d;
      (if (new_bucket_count =? 0)%N then fault else mret ());;
      let new_idx := (hash_func kv.1 mod new_bucket_count)%N in
      x ← array_get new_buckets new_idx;
      set_next_in_bucket nd x;;
      array_set new_buckets new_idx nd;;
      nxt ← get_next nd;
      rehash_loop fuel' this new_bucket_count new_buckets nxt
  end.

Definition rehash (this : ptr) (new_bucket_count : N) : M unit :=
  new_buckets ← new_array new_bucket_count;
  for_range (N.to_nat new_bucket_count) 0%N (λ i, array_set new_buckets i None);;
  h ← get_head this; nd ← get_next h;
  with_fuel (λ fuel, rehash_loop fuel this new_bucket_count new_buckets nd);;
  b ← get_buckets this; dealloc b;;
  set_buckets this new_buckets;;
  set_bucket_count this new_bucket_count.

Definition insert_to_order_list (nd pos : ptr) : M unit :=
  p ← get_prev pos; set_prev nd p;;
  set_next nd pos;;
  p ← get_prev pos; set_next p nd;;
  set_prev pos nd.

Definition remove_from_order_list (nd : ptr) : M unit :=
  p ← get_prev nd; n ← get_next nd; set_next p n;;
  n ← get_next nd; p ← get_prev nd; set_prev n p.

(** ** insert *)

Definition insert (this : ptr) (value : value_type) : M (iterator * bool) :=
  idx ← get_bucket_index this value.1;
  existing ← find_in_bucket this value.1 idx;
  match existing with
  | Some _ => mret (mkIt existing this, false)
  | None =>
    ec ← get_element_count this; bc ← get_bucket_count this;
    idx ← (if exceeds_load (wrap (ec + 1)) bc
           then rehash this (wrap (bc * 2));; get_bucket_index this value.1
           else mret idx);
    new_node ← new_Node_val value;
    b ← get_buckets this; x ← array_get b idx;
    set_next_in_bucket new_node x;;
    array_set b idx new_node;;
    t ← get_tail this; insert_to_order_list new_node t;;
    ec ← get_element_count this; set_element_count this (wrap (ec + 1));;
    mret (mkIt new_node this, true)
  end.

Fixpoint deep_copy_loop (fuel : nat) (this other : ptr) (nd : ptr) : M unit :=
  match fuel with
  | O => timeout
  | S fuel' =>
    t ← get_tail other;
    if decide (nd = t) then mret ()
    else
      d ← get_data nd; kv ← deref d;
      insert this kv;;
      nxt ← get_next nd;
      deep_copy_loop fuel' this other nxt
  end.

Definition deep_copy (this other : ptr) : M unit :=
  init_sentinels this;;
  bc ← get_bucket_count other; init_buckets this bc;;
  set_element_count this 0%N;;
  h ← get_head other; nd ← get_next h;
  with_fuel (λ fuel, deep_copy_loop fuel this other nd).

(** The loop shared by [clear_all] and [clear]: delete every live node. *)
Fixpoint delete_nodes_loop (fuel : nat) (this : ptr) (nd : ptr) : M unit :=
  match fuel with
  | O => timeout
  | S fuel' =>
    t ← get_tail this;
    if decide (nd = t) then mret ()
    else
      nxt ← get_next nd;
      dealloc nd;;
      delete_nodes_loop fuel' this nxt
  end.

Definition clear_all (this : ptr) : M unit :=
  h ← get_head this; nd ← get_next h;
  with_fuel (λ fuel, delete_nodes_loop fuel this nd);;
  h ← get_head this; dealloc h;;
  t ← get_tail this; dealloc t;;
  b ← get_buckets this; dealloc b.

(** ** Iterators

    [iterator] and [const_iterator] have the same members and the same
    code; one definition stands for both.  An iterator is a value: the
    member functions that modify [*this] return its new state. *)

(** [++it]: the result is the new [*this]. *)
Definition operator_inc (it : iterator) : M iterator :=
  t ← get_tail (map it);
  if decide (node it = t) then throw invalid_iterator
  else n ← get_next (node it); mret (mkIt n (map it)).

(** [it++]: the copy returned and the new [*this]. *)
Definition operator_inc_post (it : iterator) : M (iterator * iterator) :=
  t ← get_tail (map it);
  if decide (node it = t) then throw invalid_iterator
  else
    let tmp := it in
    n ← get_next (node it); mret (tmp, mkIt n (map it)).

(** [--it] *)
Definition operator_dec (it : iterator) : M iterator :=
  h ← get_head (map it); first ← get_next h;
  if decide (node it = first) then throw invalid_iterator
  else p ← get_prev (node it); mret (mkIt p (map it)).

(** [it--] *)
Definition operator_dec_post (it : iterator) : M (iterator * iterator) :=
  h ← get_head (map it); first ← get_next h;
  if decide (node it = first) then throw invalid_iterator
  else
    let tmp := it in
    p ← get_prev (node it); mret (tmp, mkIt p (map it)).

(** [*it] and [it->]: the pair the node owns. *)
Definition operator_deref (it : iterator) : M value_type :=
  d ← get_data (node it); deref d.

Definition operator_eq (a b : iterator) : bool :=
  bool_decide (node a = node b) && bool_decide (map a = map b).
Definition operator_ne (a b : iterator) : bool := negb (operator_eq a b).

(** ** Public member functions *)

(** The body of [linked_hashmap()], run on the storage at [this]. *)
Definition ctor (this : ptr) : M unit :=
  set_element_count this 0%N;;
  init_sentinels this;;
  init_buckets this INITIAL_BUCKET_COUNT.

(** The body of [linked_hashmap(const linked_hashmap &other)]. *)
Definition copy_ctor (this other : ptr) : M unit := deep_copy this other.

(** [operator=]; the result is the reference [*this]. *)
Definition operator_assign (this other : ptr) : M ptr :=
  (if decide (this ≠ other) then clear_all this;; deep_copy this other
   else mret ());;
  mret this.

(** [~linked_hashmap()] *)
Definition dtor (this : ptr) : M unit := clear_all this.

(** Storage for a container object whose members are not yet initialised,
    and the two ways of constructing a container in it. *)
Definition raw_storage : object := OMap (mkMap None None None 0%N 0%N).
Definition new_linked_hashmap : M ptr :=
  this ← alloc raw_storage; ctor this;; mret this.
Definition new_linked_hashmap_copy (other : ptr) : M ptr :=
  this ← alloc raw_storage; copy_ctor this other;; mret this.

(** [at]: the reference returned is the node whose [data->second] it
    denotes. *)
Definition at_ (this : ptr) (key : Key) : M ptr :=
  idx ← get_bucket_index this key;
  nd ← find_in_bucket this key idx;
  match nd with
  | None => throw index_out_of_bound
  | Some _ => mret nd
  end.

(** Reading and writing through a [T &] obtained from the container. *)
Definition read_ref (r : ptr) : M T := d ← get_data r; kv ← deref d; mret kv.2.
Definition write_ref (r : ptr) (v : T) : M unit :=
  d ← get_data r; kv ← deref d; set_data r (Some (kv.1, v)).

Definition operator_index (this : ptr) (key : Key) : M ptr :=
  idx ← get_bucket_index this key;
  nd ← find_in_bucket this key idx;
  match nd with
  | Some _ => mret nd
  | None =>
    result ← insert this (key, T_default);
    mret (node result.1)
  end.

(** [const T & operator[](const Key &) const] *)
Definition operator_index_const (this : ptr) (key : Key) : M ptr := at_ this key.

Definition begin (this : ptr) : M iterator :=
  h ← get_head this; n ← get_next h; mret (mkIt n this).
Definition cbegin (this : ptr) : M iterator := begin this.

Definition end_ (this : ptr) : M iterator :=
  t ← get_tail this; mret (mkIt t this).
Definition cend (this : ptr) : M iterator := end_ this.

Definition empty (this : ptr) : M bool :=
  ec ← get_element_count this; mret (ec =? 0)%N.

Definition size (this : ptr) : M N := get_element_count this.

Definition clear (this : ptr) : M unit :=
  h ← get_head this; nd ← get_next h;
  with_fuel (λ fuel, delete_nodes_loop fuel this nd);;
  h ← get_head this; t ← get_tail this; set_next h t;;
  t ← get_tail this; h ← get_head this; set_prev t h;;
  bc ← get_bucket_count this;
  for_range (N.to_nat bc) 0%N (λ i, b ← get_buckets this; array_set b i None);;
  set_element_count this 0%N.

(** [Node **bucket_ptr] of [erase]: the address of an array slot or of a
    node's [next_in_bucket] member. *)
Inductive pptr :=
| Slot (b : ptr) (i : N)
| NextInBucket (nd : ptr).

Definition pp_read (pp : pptr) : M ptr :=
  match pp with
  | Slot b i => array_get b i
  | NextInBucket nd => get_next_in_bucket nd
  end.
Definition pp_write (pp : pptr) (v : ptr) : M unit :=
  match pp with
  | Slot b i => array_set b i v
  | NextInBucket nd => set_next_in_bucket nd v
  end.

Fixpoint erase_loop (fuel : nat) (nd : ptr) (bucket_ptr : pptr) : M pptr :=
  match fuel with
  | O => timeout
  | S fuel' =>
    cur ← pp_read bucket_ptr;
    if bool_decide (cur ≠ None) && bool_decide (cur ≠ nd)
    then erase_loop fuel' nd (NextInBucket cur)
    else mret bucket_ptr
  end.

Definition erase (this : ptr) (pos : iterator) : M unit :=
  (if decide (map pos ≠ this) then throw invalid_iterator
   else
     t ← get_tail this;
     if decide (node pos = t) then throw invalid_iterator
     else
       h ← get_head this;
       if decide (node pos = h) then throw invalid_iterator else mret ());;
  let nd := node pos in
  d ← get_data nd; kv ← deref d;
  idx ← get_bucket_index this kv.1;
  b ← get_buckets this;
  bucket_ptr ← with_fuel (λ fuel, erase_loop fuel nd (Slot b idx));
  cur ← pp_read bucket_ptr;
  (if bool_decide (cur ≠ None)
   then nib ← get_next_in_bucket nd; pp_write bucket_ptr nib
   else mret ());;
  remove_from_order_list nd;;
  dealloc nd;;
  ec ← get_element_count this;
  set_element_count this (wrap (ec + 2 ^ 64 - 1)).

Definition count (this : ptr) (key : Key) : M N :=
  idx ← get_bucket_index this key;
  nd ← find_in_bucket this key idx;
  mret (if nd is Some _ then 1 else 0)%N.

Definition find (this : ptr) (key : Key) : M iterator :=
  idx ← get_bucket_index this key;
  nd ← find_in_bucket this key idx;
  match nd with
  | Some _ => mret (mkIt nd this)
  | None => end_ this
  end.

(** ** Client code: a full traversal

    [for (it = m.begin(); it != m.end(); ++it) out.push_back( *it );] *)
Fixpoint iterate_loop (fuel : nat) (this : ptr) (it : iterator) : M (list value_type) :=
  match fuel with
  | O => timeout
  | S fuel' =>
    e ← end_ this;
    if operator_ne it e then
      kv ← operator_deref it;
      it' ← operator_inc it;
      rest ← iterate_loop fuel' this it';
      mret (kv :: rest)
    else mret []
  end.

Definition iterate (this : ptr) : M (list value_type) :=
  it ← begin this;
  with_fuel (λ fuel, iterate_loop fuel this it).

(** ** Client code: sequences of operations

    One statement of a client, for properties of sequences of operations:
    [EraseKey k] is [m.erase(m.find(k))], [IndexAssign k v] is [m[k] = v],
    [Assign other] is [m = other]; results are dropped. *)
Inductive op :=
| Insert (k : Key) (v : T)
| EraseKey (k : Key)
| Clear
| Index (k : Key)
| IndexAssign (k : Key) (v : T)
| Assign (other : ptr)
| At (k : Key)
| Find (k : Key)
| Count (k : Key).

Definition exec (this : ptr) (o : op) : M unit :=
  match o with
  | Insert k v => insert this (k, v);; mret ()
  | EraseKey k => it ← find this k; erase this it
  | Clear => clear this
  | Index k => operator_index this k;; mret ()
  | IndexAssign k v => r ← operator_index this k; write_ref r v
  | Assign other => operator_assign this other;; mret ()
  | At k => at_ this k;; mret ()
  | Find k => find this k;; mret ()
  | Count k => count this k;; mret ()
  end.

Fixpoint exec_all (this : ptr) (os : list op) : M unit :=
  match os with
  | [] => mret ()
  | o :: os' => exec this o;; exec_all this os'
  end.

(** ** Reading and updating the store, by kind of object *)

Definition node_at (s : store) (a : loc) : option Node :=
  match s !! a with Some (ONode n) => Some n | _ => None end.
Definition map_at (s : store) (a : loc) : option linked_hashmap :=
  match s !! a with Some (OMap m) => Some m | _ => None end.
Definition arr_at (s : store) (a : loc) : option (list ptr) :=
  match s !! a with Some (OArray l) => Some l | _ => None end.

(** One member of the node at [a]. *)
Definition fld {X} (f : Node → X) (s : store) (a : loc) : option X :=
  f <$> node_at s a.

Definition upd_node (g : Node → Node) (a : loc) (s : store) : store :=
  match node_at s a with Some n => <[a:=ONode (g n)]> s | None => s end.
Definition set_map (m : linked_hashmap) (a : loc) (s : store) : store :=
  match map_at s a with Some _ => <[a:=OMap m]> s | None => s end.
Definition set_arr (l : list ptr) (a : loc) (s : store) : store :=
  match arr_at s a with Some _ => <[a:=OArray l]> s | None => s end.

Definition with_data (v : option value_type) (n : Node) : Node :=
  mkNode v (next_in_bucket n) (prev n) (next n).
Definition with_next_in_bucket (v : ptr) (n : Node) : Node :=
  mkNode (data n) v (prev n) (next n).
Definition with_prev (v : ptr) (n : Node) : Node :=
  mkNode (data n) (next_in_bucket n) v (next n).
Definition with_next (v : ptr) (n : Node) : Node :=
  mkNode (data n) (next_in_bucket n) (prev n) v.

(** ** The representation invariant

    [Rep s this h t b es bc]: in store [s] the object at [this] is a
    well-formed container with sentinels [h] and [t], bucket array [b] of
    [bc] slots, and live entries [es] (node address, key and value) in
    order-list order. *)

Definition hd_ptr (xs : list loc) (q : ptr) : ptr :=
  match xs with [] => q | a :: _ => Some a end.

(** The nodes [xs] form a doubly linked segment entered from [p] and left
    towards [q]. *)
Fixpoint dll (s : store) (p : ptr) (xs : list loc) (q : ptr) : Prop :=
  match xs with
  | [] => True
  | a :: xs' =>
    fld prev s a = Some p ∧ fld next s a = Some (hd_ptr xs' q) ∧ dll s (Some a) xs' q
  end.

(** Following [next_in_bucket] from pointer [p] passes through exactly the
    nodes [c] and arrives at pointer [q]; a whole collision chain ends in
    null. *)
Fixpoint chain (s : store) (p : ptr) (c : list loc) (q : ptr) : Prop :=
  match c with
  | [] => p = q
  | a :: c' => p = Some a ∧ ∃ p', fld next_in_bucket s a = Some p' ∧ chain s p' c' q
  end.

Definition last_ptr (p : ptr) (xs : list loc) : ptr :=
  match last xs with Some a => Some a | None => p end.

(** A live entry: the address of its node, its key and its value. *)
Abbreviation entry := (positive * (Key * T))%type (only parsing).

Definition bucket_of (bc : N) (k : Key) : N := (hash_func k mod bc)%N.

(** Slot [i], holding [p], heads a chain of exactly the entries of bucket [i]. *)
Definition bucket_ok (s : store) (es : list entry) (bc : N) (i : nat) (p : ptr) : Prop :=
  ∃ c, chain s p c None ∧ NoDup c ∧
       ∀ a, a ∈ c ↔ ∃ kv, (a, kv) ∈ es ∧ bucket_of bc kv.1 = N.of_nat i.

Record Rep (s : store) (this h t b : loc) (es : list entry) (bc : N) : Prop := {
  rep_this :
    map_at s this = Some (mkMap (Some h) (Some t) (Some b) bc (N.of_nat (length es)));
  rep_nodup : NoDup (h :: es.*1 ++ [t]);
  rep_order : dll s None (h :: es.*1 ++ [t]) None;
  rep_data : ∀ a kv, (a, kv) ∈ es → fld data s a = Some (Some kv);
  rep_bc : (0 < bc < 2 ^ 64)%N;
  rep_load : (4 * N.of_nat (length es) ≤ 3 * bc)%N;
  rep_buckets :
    ∃ bs, arr_at s b = Some bs ∧ length bs = N.to_nat bc ∧
          ∀ i p, bs !! i = Some p → bucket_ok s es bc i p;
  rep_keys :
    ∀ e1 e2, e1 ∈ es → e2 ∈ es → e1.1 ≠ e2.1 → equal_func e1.2.1 e2.2.1 = false
}.

(** The addresses a container owns. *)
Definition footprint (this h t b : loc) (es : list entry) : gset positive :=
  {[this; h; t; b]} ∪ list_to_set es.*1.

(** [s'] agrees with [s] on every object of [s] outside [F]. *)
Definition frame (F : gset positive) (s s' : store) : Prop :=
  ∀ x, x ∉ F → is_Some (s !! x) → s' !! x = s !! x.

(** The first entry whose key compares equal to [k]. *)
Fixpoint entry_of (k : Key) (es : list entry) : option entry :=
  match es with
  | [] => None
  | e :: es' => if equal_func e.2.1 k then Some e else entry_of k es'
  end.

(** ** Vocabulary of the statements *)

(** The positions of the order list: head sentinel, entries, tail sentinel. *)
Definition positions (h t : loc) (es : list entry) : list loc := h :: es.*1 ++ [t].

(** The computation ended, normally or by an exception, in store [s']. *)
Definition finished {A} (r : outcome A) (s' : store) : Prop :=
  (∃ v, r = Ret v s') ∨ (∃ e, r = Throw e s').

(** Every exception the computation can throw satisfies [P]. *)
Definition throws_only {A} (P : exn → Prop) (c : M A) : Prop :=
  ∀ s e s', c s = Throw e s' → P e.

(** [insert] after the lookup and the rehash: the new node is linked into
    bucket [idx] and before the tail sentinel. *)
Definition insert_tail (this : ptr) (value : value_type) (idx : N)
    : M (iterator * bool) :=
  new_node ← new_Node_val value;
  b ← get_buckets this; x ← array_get b idx;
  set_next_in_bucket new_node x;;
  array_set b idx new_node;;
  t ← get_tail this; insert_to_order_list new_node t;;
  ec ← get_element_count this; set_element_count this (wrap (ec + 1));;
  mret (mkIt new_node this, true).

(** The part of [erase] that checks the position, and the rest. *)
Definition erase_guard (this : ptr) (pos : iterator) : M () :=
  if decide (map pos ≠ this) then throw invalid_iterator
  else
    t ← get_tail this;
    if decide (node pos = t) then throw invalid_iterator
    else
      h ← get_head this;
      if decide (node pos = h) then throw invalid_iterator else mret ().

Definition erase_body (this : ptr) (pos : iterator) : M () :=
  let nd := node pos in
  d ← get_data nd; kv ← deref d;
  idx ← get_bucket_index this kv.1;
  b ← get_buckets this;
  bucket_ptr ← with_fuel (λ fuel, erase_loop fuel nd (Slot b idx));
  cur ← pp_read bucket_ptr;
  (if bool_decide (cur ≠ None)
   then nib ← get_next_in_bucket nd; pp_write bucket_ptr nib
   else mret ());;
  remove_from_order_list nd;;
  dealloc nd;;
  ec ← get_element_count this;
  set_element_count this (wrap (ec + 2 ^ 64 - 1)).

(** An operation that involves no other container. *)
Definition local_op (this : loc) (o : op) : Prop :=
  match o with Assign other => other = Some this | _ => True end.

(** An operation on a copy: local, or assigning from the original again. *)
Definition op_on_copy (cpy orig : loc) (o : op) : Prop :=
  match o with
  | Assign other => other = Some cpy ∨ other = Some orig
  | _ => True
  end.

(** The pairs a sequence of statements inserts, in order. *)
Fixpoint inserted (ops : list op) : list value_type :=
  match ops with
  | [] => []
  | Insert k v :: ops' => (k, v) :: inserted ops'
  | _ :: ops' => inserted ops'
  end.

(** [k] is equal, under [Equal], to one of the keys [ks]. *)
Definition held (k : Key) (ks : list Key) : bool :=
  existsb (λ k', equal_func k' k) ks.

(** Statements that insert keys not yet held and look up keys (through
    [at] and [operator[]], keys that are held); [ks] are the keys held
    before the first statement. *)
Fixpoint distinct_inserts (ks : list Key) (ops : list op) : bool :=
  match ops with
  | [] => true
  | Insert k v :: ops' => negb (held k ks) && distinct_inserts (ks ++ [k]) ops'
  | At k :: ops' | Index k :: ops' => held k ks && distinct_inserts ks ops'
  | Find k :: ops' | Count k :: ops' => distinct_inserts ks ops'
  | _ => false
  end.

(** ** The container as an insertion-ordered association list

    What a client observes of a container is the list of pairs that a
    traversal yields.  The functions below say, on such lists, what each
    statement of [op] does and when it throws; the container is compared
    with them. *)

Definition assoc_has (k : Key) (l : list value_type) : bool :=
  existsb (λ kv, equal_func kv.1 k) l.

Fixpoint assoc_remove (k : Key) (l : list value_type) : list value_type :=
  match l with
  | [] => []
  | kv :: l' => if equal_func kv.1 k then l' else kv :: assoc_remove k l'
  end.

Fixpoint assoc_update (k : Key) (v : T) (l : list value_type) : list value_type :=
  match l with
  | [] => []
  | kv :: l' => if equal_func kv.1 k then (kv.1, v) :: l' else kv :: assoc_update k v l'
  end.

Definition abstract_step (l : list value_type) (o : op) : list value_type + exn :=
  match o with
  | Insert k v => inl (if assoc_has k l then l else l ++ [(k, v)])
  | EraseKey k => if assoc_has k l then inl (assoc_remove k l) else inr invalid_iterator
  | Clear => inl []
  | Index k => inl (if assoc_has k l then l else l ++ [(k, T_default)])
  | IndexAssign k v => inl (if assoc_has k l then assoc_update k v l else l ++ [(k, v)])
  | Assign _ => inl l
  | At k => if assoc_has k l then inl l else inr index_out_of_bound
  | Find _ | Count _ => inl l
  end.

(** The list after the statements, and the exception that stopped them. *)
Fixpoint abstract_run (l : list value_type) (ops : list op)
    : list value_type * option exn :=
  match ops with
  | [] => (l, None)
  | o :: ops' =>
    match abstract_step l o with
    | inl l' => abstract_run l' ops'
    | inr e => (l, Some e)
    end
  end.


(** ** Accounting for storage *)

(** [delete m]: the destructor runs, then the storage of the object is
    released. *)
Definition delete_linked_hashmap (this : ptr) : M unit :=
  dtor this;; dealloc this.

(** Running [c] with room for [n] more objects leaves room for [m]: when
    [c] returns, the store holds at most [n - m] objects more than before. *)
Definition spends {A} (n m : nat) (c : M A) : Prop :=
  ∀ s r s', c s = Ret r s' → (base.size s' + m ≤ base.size s + n)%nat.

(** The store [s] is the store [s0] together with objects at the
    locations [F], which [s0] does not use, and nothing else. *)
Definition extends (s0 s : store) (F : gset positive) : Prop :=
  (∀ x, x ∉ F → s !! x = s0 !! x) ∧ (∀ x, x ∈ F → s0 !! x = None).

End linked_hashmap.

Global Arguments Node : clear implicits.
Global Arguments object : clear implicits.
Global Arguments iterator : clear implicits.
Global Arguments outcome : clear implicits.
Global Arguments linked_hashmap : clear implicits.
Global Arguments op : clear implicits.

(** What the container expects of its [Hash] and [Equal]: an equivalence
    that the hash respects. *)
Class KeyLaws (Key : Type) `{!Hash Key, !Equal Key} : Prop := {
  equal_refl : ∀ k : Key, equal_func k k = true;
  equal_sym : ∀ k1 k2 : Key, equal_func k1 k2 = equal_func k2 k1;
  equal_trans : ∀ k1 k2 k3 : Key,
    equal_func k1 k2 = true → equal_func k2 k3 = true → equal_func k1 k3 = true;
  hash_equal : ∀ k1 k2 : Key, equal_func k1 k2 = true → hash_func k1 = hash_func k2
}.

(** ** Sample containers, with [N] keys and values *)

#[local] Instance hash_N : Hash N := λ k, k.
#[local] Instance equal_to_N : Equal N := N.eqb.
#[local] Instance default_N : DefaultConstructible N := 0%N.

(** A container with two entries whose keys share a bucket, and its store. *)
Definition sample : M (Key:=N) (T:=N) (option positive) :=
  m ← new_linked_hashmap; insert m (17, 170)%N;; insert m (1, 10)%N;; mret m.

Definition sample_store : gmap positive (object N N) :=
  match sample ∅ with Ret _ s => s | _ => ∅ end.

(** A container holding as many entries as 16 buckets allow. *)
Definition inserts_upto (n : nat) : list (op N N) :=
  (λ i, Insert (N.of_nat i) (10 * N.of_nat i)%N) <$> seq 1 n.

Definition full : M (Key:=N) (T:=N) (option positive) :=
  m ← new_linked_hashmap; exec_all m (inserts_upto 12);; mret m.

Definition full_store : gmap positive (object N N) :=
  match full ∅ with Ret _ s => s | _ => ∅ end.

(** The entries of [full_store], with the locations of their nodes. *)
Definition full_entries : list (positive * (N * N)) :=
  (λ i, (Pos.of_nat (4 + i), (N.of_nat i, 10 * N.of_nat i)%N)) <$> seq 1 12.

(** A container with no entries. *)
Definition empty_store : gmap positive (object N N) :=
  match new_linked_hashmap ∅ with Ret _ s => s | _ => ∅ end.

(** Thirteen insertions into [a], then [a = b] with [b] fresh: the bucket
    count of [a] before and after the assignment. *)
Definition shrinking_assignment : M (Key:=N) (T:=N) (N * N) :=
  a ← new_linked_hashmap;
  exec_all a (inserts_upto 13);;
  b ← new_linked_hashmap;
  before ← get_bucket_count a;
  operator_assign a b;;
  after ← get_bucket_count a;
  mret (before, after).

(** The entries of [sample_store], with the locations of their nodes. *)
Definition sample_entries : list (positive * (N * N)) :=
  [(5%positive, (17, 170)%N); (6%positive, (1, 10)%N)].

(** Insertions of new keys with lookups in between. *)
Definition inserts_and_lookups : list (op N N) :=
  [Insert 3 30; Find 3; Insert 1 10; At 3; Count 7; Index 1; Insert 19 190]%N.

(** * Verification *)

#[local] Set Warnings "-clear-no-such-hyp".

(** ** The store *)

Section store_lemmas.

Context {Key T : Type} {KeyHash : Hash Key} {KeyEqual : Equal Key}
  {TDefault : DefaultConstructible T}.

Abbreviation store := (gmap positive (object Key T)) (only parsing).
Abbreviation entry := (positive * (Key * T))%type (only parsing).
Implicit Types (s : gmap positive (object Key T)) (n : Node Key T) (a x : positive).
Implicit Types (m : linked_hashmap) (es : list (positive * (Key * T))).

(** ** The monad *)

Lemma run_bind {A B} (c : M A) (k : A → M B) s v s' :
  c s = Ret v s' → (c ≫= k) s = k v s'.
Proof. intros E. unfold mbind, M_bind. by rewrite E. Qed.

Lemma run_bind_throw {A B} (c : M A) (k : A → M B) s e s' :
  c s = Throw e s' → (c ≫= k) s = Throw e s'.
Proof. intros E. unfold mbind, M_bind. by rewrite E. Qed.

Lemma run_ret {A} (v : A) s : (mret v : M A) s = Ret v s.
Proof. reflexivity. Qed.

Lemma bind_inv {A B} (c : M A) (k : A → M B) s r :
  (c ≫= k) s = r →
  (∃ v s', c s = Ret v s' ∧ k v s' = r) ∨
  (∃ e s', c s = Throw e s' ∧ r = Throw e s') ∨
  (c s = Fault ∧ r = Fault) ∨ (c s = Timeout ∧ r = Timeout).
Proof. unfold mbind, M_bind. destruct (c s); naive_solver. Qed.

(** ** Reading after writing *)

Lemma node_at_Some s a n : node_at s a = Some n ↔ s !! a = Some (ONode n).
Proof. unfold node_at. destruct (s !! a) as [[]|]; naive_solver. Qed.
Lemma map_at_Some s a m : map_at s a = Some m ↔ s !! a = Some (OMap m).
Proof. unfold map_at. destruct (s !! a) as [[]|]; naive_solver. Qed.
Lemma arr_at_Some s a l : arr_at s a = Some l ↔ s !! a = Some (OArray l).
Proof. unfold arr_at. destruct (s !! a) as [[]|]; naive_solver. Qed.

Lemma fld_Some {X} (f : Node Key T → X) s a v :
  fld f s a = Some v ↔ ∃ n, node_at s a = Some n ∧ f n = v.
Proof.
  unfold fld. destruct (node_at s a) as [n|]; simpl; split.
  - intros [= <-]. eauto.
  - by intros (? & [= <-] & <-).
  - done.
  - by intros (? & ? & _).
Qed.

Lemma fld_is_node {X} (f : Node Key T → X) s a v :
  fld f s a = Some v → is_Some (node_at s a).
Proof. intros (n & ? & _)%fld_Some. eauto. Qed.

Lemma fld_node {X} (f : Node Key T → X) s a n :
  node_at s a = Some n → fld f s a = Some (f n).
Proof. unfold fld. by intros ->. Qed.

Lemma node_allocated s a : is_Some (node_at s a) → is_Some (s !! a).
Proof. intros [n ?%node_at_Some]. eauto. Qed.
Lemma map_allocated s a : is_Some (map_at s a) → is_Some (s !! a).
Proof. intros [n ?%map_at_Some]. eauto. Qed.
Lemma arr_allocated s a : is_Some (arr_at s a) → is_Some (s !! a).
Proof. intros [n ?%arr_at_Some]. eauto. Qed.

(** [upd_node] *)
Lemma upd_node_lookup_ne g a s x : x ≠ a → upd_node g a s !! x = s !! x.
Proof. intros. unfold upd_node. destruct (node_at s a); [by rewrite lookup_insert_ne|done]. Qed.
Lemma node_at_upd_ne g a s x : x ≠ a → node_at (upd_node g a s) x = node_at s x.
Proof. intros. unfold node_at. by rewrite upd_node_lookup_ne. Qed.
Lemma node_at_upd_eq g a s : node_at (upd_node g a s) a = g <$> node_at s a.
Proof.
  unfold upd_node. destruct (node_at s a) eqn:E; [|by rewrite E].
  unfold node_at. by rewrite lookup_insert_eq.
Qed.
Lemma map_at_upd g a s x : map_at (upd_node g a s) x = map_at s x.
Proof.
  unfold upd_node. destruct (node_at s a) as [n|] eqn:E; [|done].
  apply node_at_Some in E. unfold map_at.
  destruct (decide (x = a)) as [->|]; [by rewrite lookup_insert_eq, E|by rewrite lookup_insert_ne].
Qed.
Lemma arr_at_upd g a s x : arr_at (upd_node g a s) x = arr_at s x.
Proof.
  unfold upd_node. destruct (node_at s a) as [n|] eqn:E; [|done].
  apply node_at_Some in E. unfold arr_at.
  destruct (decide (x = a)) as [->|]; [by rewrite lookup_insert_eq, E|by rewrite lookup_insert_ne].
Qed.
Lemma fld_upd_ne {X} (f : Node Key T → X) g a s x :
  x ≠ a → fld f (upd_node g a s) x = fld f s x.
Proof. intros. unfold fld. by rewrite node_at_upd_ne. Qed.
Lemma fld_upd_eq {X} (f : Node Key T → X) g a s :
  fld f (upd_node g a s) a = fld (f ∘ g) s a.
Proof. unfold fld. rewrite node_at_upd_eq. by destruct (node_at s a). Qed.
Lemma fld_upd_inv {X} (f : Node Key T → X) g a s x :
  (∀ n, f (g n) = f n) → fld f (upd_node g a s) x = fld f s x.
Proof.
  intros Hfg. destruct (decide (x = a)) as [->|]; [|by apply fld_upd_ne].
  rewrite fld_upd_eq. unfold fld. destruct (node_at s a); simpl; [by rewrite Hfg|done].
Qed.
Lemma fld_upd_set {X} (f : Node Key T → X) g a s v :
  (∀ n, f (g n) = v) → is_Some (node_at s a) → fld f (upd_node g a s) a = Some v.
Proof.
  intros Hfg [n E]. rewrite fld_upd_eq. unfold fld. rewrite E. simpl. by rewrite Hfg.
Qed.

(** [set_map] *)
Lemma set_map_lookup_ne m a s x : x ≠ a → set_map m a s !! x = s !! x.
Proof. intros. unfold set_map. destruct (map_at s a); [by rewrite lookup_insert_ne|done]. Qed.
Lemma map_at_set_ne m a s x : x ≠ a → map_at (set_map m a s) x = map_at s x.
Proof. intros. unfold map_at. by rewrite set_map_lookup_ne. Qed.
Lemma map_at_set_eq m a s : is_Some (map_at s a) → map_at (set_map m a s) a = Some m.
Proof. intros [m' E]. unfold set_map. rewrite E. unfold map_at. by rewrite lookup_insert_eq. Qed.
Lemma node_at_set_map m a s x : node_at (set_map m a s) x = node_at s x.
Proof.
  unfold set_map. destruct (map_at s a) as [n|] eqn:E; [|done].
  apply map_at_Some in E. unfold node_at.
  destruct (decide (x = a)) as [->|]; [by rewrite lookup_insert_eq, E|by rewrite lookup_insert_ne].
Qed.
Lemma arr_at_set_map m a s x : arr_at (set_map m a s) x = arr_at s x.
Proof.
  unfold set_map. destruct (map_at s a) as [n|] eqn:E; [|done].
  apply map_at_Some in E. unfold arr_at.
  destruct (decide (x = a)) as [->|]; [by rewrite lookup_insert_eq, E|by rewrite lookup_insert_ne].
Qed.
Lemma fld_set_map {X} (f : Node Key T → X) m a s x : fld f (set_map m a s) x = fld f s x.
Proof. unfold fld. by rewrite node_at_set_map. Qed.

(** [set_arr] *)
Lemma set_arr_lookup_ne l a s x : x ≠ a → set_arr l a s !! x = s !! x.
Proof. intros. unfold set_arr. destruct (arr_at s a); [by rewrite lookup_insert_ne|done]. Qed.
Lemma arr_at_set_ne l a s x : x ≠ a → arr_at (set_arr l a s) x = arr_at s x.
Proof. intros. unfold arr_at. by rewrite set_arr_lookup_ne. Qed.
Lemma arr_at_set_eq l a s : is_Some (arr_at s a) → arr_at (set_arr l a s) a = Some l.
Proof. intros [m' E]. unfold set_arr. rewrite E. unfold arr_at. by rewrite lookup_insert_eq. Qed.
Lemma node_at_set_arr l a s x : node_at (set_arr l a s) x = node_at s x.
Proof.
  unfold set_arr. destruct (arr_at s a) as [n|] eqn:E; [|done].
  apply arr_at_Some in E. unfold node_at.
  destruct (decide (x = a)) as [->|]; [by rewrite lookup_insert_eq, E|by rewrite lookup_insert_ne].
Qed.
Lemma map_at_set_arr l a s x : map_at (set_arr l a s) x = map_at s x.
Proof.
  unfold set_arr. destruct (arr_at s a) as [n|] eqn:E; [|done].
  apply arr_at_Some in E. unfold map_at.
  destruct (decide (x = a)) as [->|]; [by rewrite lookup_insert_eq, E|by rewrite lookup_insert_ne].
Qed.
Lemma fld_set_arr {X} (f : Node Key T → X) l a s x : fld f (set_arr l a s) x = fld f s x.
Proof. unfold fld. by rewrite node_at_set_arr. Qed.

(** Allocation at an unused address and deallocation. *)
Lemma node_at_alloc s a o x :
  s !! a = None → is_Some (node_at s x) → node_at (<[a:=o]> s) x = node_at s x.
Proof.
  intros Ha [n Hn]. assert (x ≠ a) by (intros ->; apply node_at_Some in Hn; congruence).
  unfold node_at. by rewrite lookup_insert_ne.
Qed.
Lemma map_at_alloc s a o x :
  s !! a = None → is_Some (map_at s x) → map_at (<[a:=o]> s) x = map_at s x.
Proof.
  intros Ha [n Hn]. assert (x ≠ a) by (intros ->; apply map_at_Some in Hn; congruence).
  unfold map_at. by rewrite lookup_insert_ne.
Qed.
Lemma arr_at_alloc s a o x :
  s !! a = None → is_Some (arr_at s x) → arr_at (<[a:=o]> s) x = arr_at s x.
Proof.
  intros Ha [n Hn]. assert (x ≠ a) by (intros ->; apply arr_at_Some in Hn; congruence).
  unfold arr_at. by rewrite lookup_insert_ne.
Qed.
Lemma fld_alloc {X} (f : Node Key T → X) s a o x v :
  s !! a = None → fld f s x = Some v → fld f (<[a:=o]> s) x = Some v.
Proof. intros Ha Hx. unfold fld. rewrite node_at_alloc; eauto using fld_is_node. Qed.
Lemma node_at_new s a n : node_at (<[a:=ONode n]> s) a = Some n.
Proof. unfold node_at. by rewrite lookup_insert_eq. Qed.
Lemma arr_at_new s a l : arr_at (<[a:=OArray l]> s) a = Some l.
Proof. unfold arr_at. by rewrite lookup_insert_eq. Qed.
Lemma map_at_new s a m : map_at (<[a:=OMap m]> s) a = Some m.
Proof. unfold map_at. by rewrite lookup_insert_eq. Qed.
Lemma fld_new {X} (f : Node Key T → X) s a n : fld f (<[a:=ONode n]> s) a = Some (f n).
Proof. unfold fld. by rewrite node_at_new. Qed.

Lemma node_at_delete_ne s a x : x ≠ a → node_at (delete a s) x = node_at s x.
Proof. intros. unfold node_at. by rewrite lookup_delete_ne. Qed.
Lemma map_at_delete_ne s a x : x ≠ a → map_at (delete a s) x = map_at s x.
Proof. intros. unfold map_at. by rewrite lookup_delete_ne. Qed.
Lemma arr_at_delete_ne s a x : x ≠ a → arr_at (delete a s) x = arr_at s x.
Proof. intros. unfold arr_at. by rewrite lookup_delete_ne. Qed.
Lemma fld_delete_ne {X} (f : Node Key T → X) s a x : x ≠ a → fld f (delete a s) x = fld f s x.
Proof. intros. unfold fld. by rewrite node_at_delete_ne. Qed.

Lemma fld_delete_other {X} (f : Node Key T → X) s a x :
  node_at s a = None → fld f (delete a s) x = fld f s x.
Proof.
  intros Ha. destruct (decide (x = a)) as [->|]; [|by apply fld_delete_ne].
  unfold fld. rewrite Ha. unfold node_at. by rewrite lookup_delete_eq.
Qed.
Lemma map_at_delete_other s a x : map_at s a = None → map_at (delete a s) x = map_at s x.
Proof.
  intros Ha. destruct (decide (x = a)) as [->|]; [|by apply map_at_delete_ne].
  rewrite Ha. unfold map_at. by rewrite lookup_delete_eq.
Qed.
Lemma arr_node_None s a : is_Some (arr_at s a) → node_at s a = None.
Proof. intros [l E%arr_at_Some]. unfold node_at. by rewrite E. Qed.
Lemma arr_map_None s a : is_Some (arr_at s a) → map_at s a = None.
Proof. intros [l E%arr_at_Some]. unfold map_at. by rewrite E. Qed.
Lemma node_map_None s a : is_Some (node_at s a) → map_at s a = None.
Proof. intros [l E%node_at_Some]. unfold map_at. by rewrite E. Qed.
Lemma node_arr_None s a : is_Some (node_at s a) → arr_at s a = None.
Proof. intros [l E%node_at_Some]. unfold arr_at. by rewrite E. Qed.
Lemma arr_at_delete_other s a x : arr_at s a = None → arr_at (delete a s) x = arr_at s x.
Proof.
  intros Ha. destruct (decide (x = a)) as [->|]; [|by apply arr_at_delete_ne].
  rewrite Ha. unfold arr_at. by rewrite lookup_delete_eq.
Qed.

Lemma map_node_None s a : is_Some (map_at s a) → node_at s a = None.
Proof. intros [l E%map_at_Some]. unfold node_at. by rewrite E. Qed.
Lemma map_arr_None s a : is_Some (map_at s a) → arr_at s a = None.
Proof. intros [l E%map_at_Some]. unfold arr_at. by rewrite E. Qed.

Lemma node_at_delete_other s a x : node_at s a = None → node_at (delete a s) x = node_at s x.
Proof.
  intros Ha. destruct (decide (x = a)) as [->|]; [|by apply node_at_delete_ne].
  rewrite Ha. unfold node_at. by rewrite lookup_delete_eq.
Qed.
Lemma node_at_insert_ne s a (o : object Key T) x : x ≠ a → node_at (<[a:=o]> s) x = node_at s x.
Proof. intros. unfold node_at. by rewrite lookup_insert_ne. Qed.
Lemma map_at_insert_ne s a (o : object Key T) x : x ≠ a → map_at (<[a:=o]> s) x = map_at s x.
Proof. intros. unfold map_at. by rewrite lookup_insert_ne. Qed.
Lemma arr_at_insert_ne s a (o : object Key T) x : x ≠ a → arr_at (<[a:=o]> s) x = arr_at s x.
Proof. intros. unfold arr_at. by rewrite lookup_insert_ne. Qed.
Lemma fld_insert_ne {X} (f : Node Key T → X) s a o x : x ≠ a → fld f (<[a:=o]> s) x = fld f s x.
Proof. intros. unfold fld. by rewrite node_at_insert_ne. Qed.

Lemma fresh_unused s : s !! fresh (dom s) = None.
Proof. apply not_elem_of_dom, is_fresh. Qed.

(** Objects of different kinds live at different addresses. *)
Lemma node_map_ne s a x : is_Some (node_at s a) → is_Some (map_at s x) → a ≠ x.
Proof. intros [? ?%node_at_Some] [? ?%map_at_Some] ->. congruence. Qed.
Lemma node_arr_ne s a x : is_Some (node_at s a) → is_Some (arr_at s x) → a ≠ x.
Proof. intros [? ?%node_at_Some] [? ?%arr_at_Some] ->. congruence. Qed.
Lemma map_arr_ne s a x : is_Some (map_at s a) → is_Some (arr_at s x) → a ≠ x.
Proof. intros [? ?%map_at_Some] [? ?%arr_at_Some] ->. congruence. Qed.

(** Being a node survives every update that does not free it. *)
Lemma is_node_upd g a s x : is_Some (node_at s x) → is_Some (node_at (upd_node g a s) x).
Proof.
  intros [n E]. destruct (decide (x = a)) as [->|].
  - rewrite node_at_upd_eq, E. eauto.
  - rewrite node_at_upd_ne by done. eauto.
Qed.
Lemma is_node_set_map m a s x : is_Some (node_at s x) → is_Some (node_at (set_map m a s) x).
Proof. by rewrite node_at_set_map. Qed.
Lemma is_node_set_arr l a s x : is_Some (node_at s x) → is_Some (node_at (set_arr l a s) x).
Proof. by rewrite node_at_set_arr. Qed.
Lemma is_node_alloc s a o x :
  s !! a = None → is_Some (node_at s x) → is_Some (node_at (<[a:=o]> s) x).
Proof. intros. by rewrite node_at_alloc. Qed.
Lemma is_node_new s a n : is_Some (node_at (<[a:=ONode n]> s) a).
Proof. rewrite node_at_new. eauto. Qed.
Lemma is_node_delete s a x : x ≠ a → is_Some (node_at s x) → is_Some (node_at (delete a s) x).
Proof. intros. by rewrite node_at_delete_ne. Qed.

(** ** Running the primitives *)

Lemma run_load_node s a n : node_at s a = Some n → load_node (Some a) s = Ret n s.
Proof. intros E%node_at_Some. unfold load_node, load, mbind, M_bind. by rewrite E. Qed.
Lemma run_load_map s a m : map_at s a = Some m → load_map (Some a) s = Ret m s.
Proof. intros E%map_at_Some. unfold load_map, load, mbind, M_bind. by rewrite E. Qed.
Lemma run_load_array s a l : arr_at s a = Some l → load_array (Some a) s = Ret l s.
Proof. intros E%arr_at_Some. unfold load_array, load, mbind, M_bind. by rewrite E. Qed.

Lemma run_get_fld {X} (f : Node Key T → X) s a v :
  fld f s a = Some v → (n ← load_node (Some a); mret (f n)) s = Ret v s.
Proof. intros (n & E & <-)%fld_Some. by erewrite run_bind by by apply run_load_node. Qed.

Lemma run_get_data s a v : fld data s a = Some v → get_data (Some a) s = Ret v s.
Proof. apply run_get_fld. Qed.
Lemma run_get_next_in_bucket s a v :
  fld next_in_bucket s a = Some v → get_next_in_bucket (Some a) s = Ret v s.
Proof. apply run_get_fld. Qed.
Lemma run_get_prev s a v : fld prev s a = Some v → get_prev (Some a) s = Ret v s.
Proof. apply run_get_fld. Qed.
Lemma run_get_next s a v : fld next s a = Some v → get_next (Some a) s = Ret v s.
Proof. apply run_get_fld. Qed.

Lemma run_update_node s a n (g : Node Key T → Node Key T) :
  node_at s a = Some n → update (Some a) (ONode (g n)) s = Ret () (upd_node g a s).
Proof. intros E. unfold update, upd_node. rewrite E. apply node_at_Some in E. by rewrite E. Qed.

Lemma run_set_data s a v :
  is_Some (node_at s a) → set_data (Some a) v s = Ret () (upd_node (with_data v) a s).
Proof.
  intros [n E]. unfold set_data. erewrite run_bind by by apply run_load_node.
  by apply (run_update_node s a n (with_data v)).
Qed.
Lemma run_set_next_in_bucket s a v :
  is_Some (node_at s a) →
  set_next_in_bucket (Some a) v s = Ret () (upd_node (with_next_in_bucket v) a s).
Proof.
  intros [n E]. unfold set_next_in_bucket. erewrite run_bind by by apply run_load_node.
  by apply (run_update_node s a n (with_next_in_bucket v)).
Qed.
Lemma run_set_prev s a v :
  is_Some (node_at s a) → set_prev (Some a) v s = Ret () (upd_node (with_prev v) a s).
Proof.
  intros [n E]. unfold set_prev. erewrite run_bind by by apply run_load_node.
  by apply (run_update_node s a n (with_prev v)).
Qed.
Lemma run_set_next s a v :
  is_Some (node_at s a) → set_next (Some a) v s = Ret () (upd_node (with_next v) a s).
Proof.
  intros [n E]. unfold set_next. erewrite run_bind by by apply run_load_node.
  by apply (run_update_node s a n (with_next v)).
Qed.

Lemma run_get_head s a m : map_at s a = Some m → get_head (Some a) s = Ret (head m) s.
Proof. intros. unfold get_head. by erewrite run_bind by by apply run_load_map. Qed.
Lemma run_get_tail s a m : map_at s a = Some m → get_tail (Some a) s = Ret (tail m) s.
Proof. intros. unfold get_tail. by erewrite run_bind by by apply run_load_map. Qed.
Lemma run_get_buckets s a m : map_at s a = Some m → get_buckets (Some a) s = Ret (buckets m) s.
Proof. intros. unfold get_buckets. by erewrite run_bind by by apply run_load_map. Qed.
Lemma run_get_bucket_count s a m :
  map_at s a = Some m → get_bucket_count (Some a) s = Ret (bucket_count m) s.
Proof. intros. unfold get_bucket_count. by erewrite run_bind by by apply run_load_map. Qed.
Lemma run_get_element_count s a m :
  map_at s a = Some m → get_element_count (Some a) s = Ret (element_count m) s.
Proof. intros. unfold get_element_count. by erewrite run_bind by by apply run_load_map. Qed.

Lemma run_update_map s a m m' :
  map_at s a = Some m → update (Some a) (OMap m') s = Ret () (set_map m' a s).
Proof. intros E. unfold update, set_map. rewrite E. apply map_at_Some in E. by rewrite E. Qed.

Lemma run_set_head s a m v :
  map_at s a = Some m →
  set_head (Some a) v s
  = Ret () (set_map (mkMap v (tail m) (buckets m) (bucket_count m) (element_count m)) a s).
Proof.
  intros E. unfold set_head. erewrite run_bind by by apply run_load_map.
  by eapply run_update_map.
Qed.
Lemma run_set_tail s a m v :
  map_at s a = Some m →
  set_tail (Some a) v s
  = Ret () (set_map (mkMap (head m) v (buckets m) (bucket_count m) (element_count m)) a s).
Proof.
  intros E. unfold set_tail. erewrite run_bind by by apply run_load_map.
  by eapply run_update_map.
Qed.
Lemma run_set_buckets s a m v :
  map_at s a = Some m →
  set_buckets (Some a) v s
  = Ret () (set_map (mkMap (head m) (tail m) v (bucket_count m) (element_count m)) a s).
Proof.
  intros E. unfold set_buckets. erewrite run_bind by by apply run_load_map.
  by eapply run_update_map.
Qed.
Lemma run_set_bucket_count s a m v :
  map_at s a = Some m →
  set_bucket_count (Some a) v s
  = Ret () (set_map (mkMap (head m) (tail m) (buckets m) v (element_count m)) a s).
Proof.
  intros E. unfold set_bucket_count. erewrite run_bind by by apply run_load_map.
  by eapply run_update_map.
Qed.
Lemma run_set_element_count s a m v :
  map_at s a = Some m →
  set_element_count (Some a) v s
  = Ret () (set_map (mkMap (head m) (tail m) (buckets m) (bucket_count m) v) a s).
Proof.
  intros E. unfold set_element_count. erewrite run_bind by by apply run_load_map.
  by eapply run_update_map.
Qed.

Lemma run_array_get s b l i p :
  arr_at s b = Some l → l !! N.to_nat i = Some p → array_get (Some b) i s = Ret p s.
Proof.
  intros E Hi. unfold array_get. erewrite run_bind by by apply run_load_array.
  by rewrite Hi.
Qed.
Lemma run_array_set s b l i v :
  arr_at s b = Some l → (N.to_nat i < length l)%nat →
  array_set (Some b) i v s = Ret () (set_arr (<[N.to_nat i:=v]> l) b s).
Proof.
  intros E Hi. unfold array_set. erewrite run_bind by by apply run_load_array.
  destruct (lookup_lt_is_Some_2 l _ Hi) as [p ->].
  unfold update, set_arr. rewrite E. apply arr_at_Some in E. by rewrite E.
Qed.

Lemma run_alloc s o : alloc o s = Ret (Some (fresh (dom s))) (<[fresh (dom s):=o]> s).
Proof. reflexivity. Qed.
Lemma run_dealloc s a : is_Some (s !! a) → dealloc (Some a) s = Ret () (delete a s).
Proof. intros [o E]. unfold dealloc. by rewrite E. Qed.

Lemma run_with_fuel {A} (f : nat → M A) s : with_fuel f s = f (S (base.size s)) s.
Proof. reflexivity. Qed.

Lemma is_map_upd g a s x : is_Some (map_at s x) → is_Some (map_at (upd_node g a s) x).
Proof. by rewrite map_at_upd. Qed.
Lemma is_arr_upd g a s x : is_Some (arr_at s x) → is_Some (arr_at (upd_node g a s) x).
Proof. by rewrite arr_at_upd. Qed.
Lemma is_map_set_map m a s x : is_Some (map_at s x) → is_Some (map_at (set_map m a s) x).
Proof.
  intros Hx. destruct (decide (x = a)) as [->|].
  - rewrite map_at_set_eq; eauto.
  - by rewrite map_at_set_ne.
Qed.
Lemma is_arr_set_arr l a s x : is_Some (arr_at s x) → is_Some (arr_at (set_arr l a s) x).
Proof.
  intros Hx. destruct (decide (x = a)) as [->|].
  - rewrite arr_at_set_eq; eauto.
  - by rewrite arr_at_set_ne.
Qed.
Lemma set_arr_id l a s : arr_at s a = Some l → set_arr l a s = s.
Proof. intros E. unfold set_arr. rewrite E. apply insert_id. by apply arr_at_Some. Qed.

Lemma lookup_upd_Some g a s x : is_Some (s !! x) → is_Some (upd_node g a s !! x).
Proof.
  intros Hx. unfold upd_node. destruct (node_at s a); [|done].
  destruct (decide (x = a)) as [->|]; [rewrite lookup_insert_eq; eauto|by rewrite lookup_insert_ne].
Qed.
Lemma lookup_set_map_Some m a s x : is_Some (s !! x) → is_Some (set_map m a s !! x).
Proof.
  intros Hx. unfold set_map. destruct (map_at s a); [|done].
  destruct (decide (x = a)) as [->|]; [rewrite lookup_insert_eq; eauto|by rewrite lookup_insert_ne].
Qed.
Lemma lookup_set_arr_Some l a s x : is_Some (s !! x) → is_Some (set_arr l a s !! x).
Proof.
  intros Hx. unfold set_arr. destruct (arr_at s a); [|done].
  destruct (decide (x = a)) as [->|]; [rewrite lookup_insert_eq; eauto|by rewrite lookup_insert_ne].
Qed.
Lemma lookup_insert_Some_pres s a (o : object Key T) x :
  is_Some (s !! x) → is_Some (<[a:=o]> s !! x).
Proof.
  intros Hx.
  destruct (decide (x = a)) as [->|]; [rewrite lookup_insert_eq; eauto|by rewrite lookup_insert_ne].
Qed.

Lemma alloc_fresh s (o : object Key T) :
  ∃ a, s !! a = None ∧ alloc o s = Ret (Some a) (<[a:=o]> s).
Proof. exists (fresh (dom s)). split; [apply fresh_unused|done]. Qed.

Lemma unused_older s s' a : s' !! a = None → (is_Some (s !! a) → is_Some (s' !! a)) → s !! a = None.
Proof.
  intros E H'. destruct (s !! a) eqn:E'; [|done].
  destruct H' as [? ?]; [eauto|congruence].
Qed.
Lemma unused_ne s a x : s !! a = None → is_Some (s !! x) → a ≠ x.
Proof. intros E [? ?] ->. congruence. Qed.

End store_lemmas.

(** ** Tactics: reading a store built from updates, and stepping a
    computation through its primitives *)

Ltac neq := first [ assumption | congruence | done ].

Ltac unused := first [ assumption | apply fresh_unused ].

Ltac rd :=
  lazymatch goal with
  | |- fld ?f (upd_node ?g ?a ?S) ?x = Some _ =>
    first [ rewrite (fld_upd_inv f g a S x) by (intros; reflexivity); rd
          | eapply fld_upd_set; [intros; reflexivity | rd]
          | rewrite (fld_upd_ne f g a S x) by neq; rd ]
  | |- fld _ (set_map _ _ _) _ = _ => rewrite fld_set_map; rd
  | |- fld _ (set_arr _ _ _) _ = _ => rewrite fld_set_arr; rd
  | |- fld _ (<[_:=_]> _) _ = Some _ =>
    first [ rewrite fld_new; reflexivity | apply fld_alloc; [unused | rd] ]
  | |- fld _ (delete _ _) _ = _ =>
    first [ rewrite fld_delete_ne by neq
          | rewrite fld_delete_other
              by first [ apply arr_node_None; rd | apply map_node_None; rd ] ];
    rd
  | |- map_at (upd_node _ _ _) _ = _ => rewrite map_at_upd; rd
  | |- map_at (set_arr _ _ _) _ = _ => rewrite map_at_set_arr; rd
  | |- map_at (set_map _ _ _) _ = _ =>
    first [ rewrite map_at_set_eq by rd; reflexivity | rewrite map_at_set_ne by neq; rd ]
  | |- map_at (<[_:=_]> _) _ = _ =>
    first [ rewrite map_at_new; reflexivity | rewrite map_at_alloc by first [unused | rd]; rd ]
  | |- map_at (delete _ _) _ = _ =>
    first [ rewrite map_at_delete_ne by neq
          | rewrite map_at_delete_other
              by first [ apply arr_map_None; rd | apply node_map_None; rd ] ];
    rd
  | |- arr_at (upd_node _ _ _) _ = _ => rewrite arr_at_upd; rd
  | |- arr_at (set_map _ _ _) _ = _ => rewrite arr_at_set_map; rd
  | |- arr_at (set_arr _ _ _) _ = _ =>
    first [ rewrite arr_at_set_eq by rd; reflexivity | rewrite arr_at_set_ne by neq; rd ]
  | |- arr_at (<[_:=_]> _) _ = _ =>
    first [ rewrite arr_at_new; reflexivity | rewrite arr_at_alloc by first [unused | rd]; rd ]
  | |- arr_at (delete _ _) _ = _ =>
    first [ rewrite arr_at_delete_ne by neq
          | rewrite arr_at_delete_other
              by first [ apply node_arr_None; rd | apply map_arr_None; rd ] ];
    rd
  | |- is_Some (node_at (upd_node _ _ _) _) => apply is_node_upd; rd
  | |- is_Some (node_at (set_map _ _ _) _) => apply is_node_set_map; rd
  | |- is_Some (node_at (set_arr _ _ _) _) => apply is_node_set_arr; rd
  | |- is_Some (node_at (<[_:=_]> _) _) =>
    first [ apply is_node_new | apply is_node_alloc; [unused | rd] ]
  | |- is_Some (node_at (delete _ _) _) =>
    first [ apply is_node_delete; [neq | rd]
          | rewrite node_at_delete_other
              by first [ apply arr_node_None; rd | apply map_node_None; rd ]; rd ]
  | |- is_Some (map_at (upd_node _ _ _) _) => apply is_map_upd; rd
  | |- is_Some (map_at (set_map _ _ _) _) => apply is_map_set_map; rd
  | |- is_Some (map_at (set_arr _ _ _) _) => rewrite map_at_set_arr; rd
  | |- is_Some (map_at (<[_:=_]> _) _) =>
    first [ rewrite map_at_new; solve [eauto] | rewrite map_at_alloc by first [unused | rd]; rd ]
  | |- is_Some (map_at (delete _ _) _) =>
    first [ rewrite map_at_delete_ne by neq
          | rewrite map_at_delete_other
              by first [ apply arr_map_None; rd | apply node_map_None; rd ] ];
    rd
  | |- is_Some (arr_at (upd_node _ _ _) _) => apply is_arr_upd; rd
  | |- is_Some (arr_at (set_map _ _ _) _) => rewrite arr_at_set_map; rd
  | |- is_Some (arr_at (set_arr _ _ _) _) => apply is_arr_set_arr; rd
  | |- is_Some (arr_at (<[_:=_]> _) _) =>
    first [ rewrite arr_at_new; solve [eauto] | rewrite arr_at_alloc by first [unused | rd]; rd ]
  | |- is_Some (arr_at (delete _ _) _) =>
    first [ rewrite arr_at_delete_ne by neq
          | rewrite arr_at_delete_other
              by first [ apply node_arr_None; rd | apply map_arr_None; rd ] ];
    rd
  | |- is_Some (upd_node _ _ _ !! _) => apply lookup_upd_Some; rd
  | |- is_Some (set_map _ _ _ !! _) => apply lookup_set_map_Some; rd
  | |- is_Some (set_arr _ _ _ !! _) => apply lookup_set_arr_Some; rd
  | |- is_Some (<[_:=_]> _ !! _) =>
    first [ rewrite lookup_insert_eq; solve [eauto] | apply lookup_insert_Some_pres; rd ]
  | |- is_Some (delete _ _ !! _) => rewrite lookup_delete_ne by neq; rd
  | |- is_Some (node_at _ _) =>
    first [ eassumption | eapply fld_is_node; eassumption | solve [eauto] ]
  | |- is_Some (_ !! _) =>
    first [ eassumption
          | apply node_allocated; rd | apply map_allocated; rd | apply arr_allocated; rd ]
  | |- is_Some _ => first [ eassumption | solve [eauto] ]
  | |- _ => first [ eassumption | reflexivity ]
  end.

(** Rewriting reads of members over updates at other places. *)
Ltac fsimp :=
  repeat first
    [ rewrite fld_set_map | rewrite fld_set_arr
    | rewrite map_at_upd | rewrite map_at_set_arr
    | rewrite arr_at_upd | rewrite arr_at_set_map
    | rewrite node_at_set_map | rewrite node_at_set_arr
    | rewrite fld_upd_inv by (intros; reflexivity)
    | rewrite fld_upd_ne by neq
    | rewrite node_at_upd_ne by neq
    | rewrite fld_insert_ne by neq
    | rewrite node_at_insert_ne by neq
    | rewrite map_at_insert_ne by neq
    | rewrite arr_at_insert_ne by neq
    | rewrite map_at_set_ne by neq
    | rewrite arr_at_set_ne by neq
    | rewrite fld_delete_ne by neq
    | rewrite node_at_delete_ne by neq
    | rewrite map_at_delete_ne by neq
    | rewrite arr_at_delete_ne by neq ].

Ltac run_prim :=
  lazymatch goal with
  | |- mret _ _ = _ => reflexivity
  | |- get_data _ _ = _ => eapply run_get_data; rd
  | |- get_next_in_bucket _ _ = _ => eapply run_get_next_in_bucket; rd
  | |- get_prev _ _ = _ => eapply run_get_prev; rd
  | |- get_next _ _ = _ => eapply run_get_next; rd
  | |- set_data _ _ _ = _ => eapply run_set_data; rd
  | |- set_next_in_bucket _ _ _ = _ => eapply run_set_next_in_bucket; rd
  | |- set_prev _ _ _ = _ => eapply run_set_prev; rd
  | |- set_next _ _ _ = _ => eapply run_set_next; rd
  | |- get_head _ _ = _ => eapply run_get_head; rd
  | |- get_tail _ _ = _ => eapply run_get_tail; rd
  | |- get_buckets _ _ = _ => eapply run_get_buckets; rd
  | |- get_bucket_count _ _ = _ => eapply run_get_bucket_count; rd
  | |- get_element_count _ _ = _ => eapply run_get_element_count; rd
  | |- set_head _ _ _ = _ => eapply run_set_head; rd
  | |- set_tail _ _ _ = _ => eapply run_set_tail; rd
  | |- set_buckets _ _ _ = _ => eapply run_set_buckets; rd
  | |- set_bucket_count _ _ _ = _ => eapply run_set_bucket_count; rd
  | |- set_element_count _ _ _ = _ => eapply run_set_element_count; rd
  | |- alloc _ _ = _ => apply run_alloc
  | |- new_Node _ = _ => apply run_alloc
  | |- new_Node_val _ _ = _ => apply run_alloc
  | |- new_array _ _ = _ => apply run_alloc
  | |- dealloc _ _ = _ => eapply run_dealloc; rd
  end.

Ltac msimpl :=
  cbn beta iota;
  cbn [head tail buckets bucket_count element_count node map fst snd deref].

Ltac mstep := erewrite run_bind by run_prim; msimpl.
Ltac mlast := first [ run_prim | rewrite run_ret; reflexivity ].

(** Lookups outside the addresses an update touches. *)
Ltac lkne :=
  repeat first
    [ rewrite upd_node_lookup_ne by neq
    | rewrite set_map_lookup_ne by neq
    | rewrite set_arr_lookup_ne by neq
    | rewrite lookup_insert_ne by neq
    | rewrite lookup_delete_ne by neq ];
  try reflexivity.

(** Step over an allocation, naming the new address and the fact that it
    was unused. *)
Ltac malloc a Ha :=
  unfold new_Node, new_Node_val, new_array;
  lazymatch goal with
  | |- context [ mbind ?k (alloc ?o) ?S ] =>
    let E := fresh in
    destruct (alloc_fresh S o) as (a & Ha & E);
    rewrite (run_bind (alloc o) k S _ _ E); clear E; msimpl
  end.

Ltac mstep_by lem := erewrite run_bind by (eapply lem; first [rd | eassumption | done]); msimpl.

Section construction_and_update.

Context {Key T : Type} {KeyHash : Hash Key} {KeyEqual : Equal Key}
  {TDefault : DefaultConstructible T}.

Implicit Types (s : gmap positive (object Key T)) (n : Node Key T) (a x : positive).
Implicit Types (m : linked_hashmap) (es : list (positive * (Key * T))).
Abbreviation entry := (positive * (Key * T))%type (only parsing).

(** ** Construction *)

(** A loop that stores null into successive slots of the array at [b]. *)
Lemma for_range_fill (P : gmap positive (object Key T) → Prop) (body : N → M ()) b :
  (∀ s l, P s → P (set_arr l b s)) →
  (∀ s l j, P s → arr_at s b = Some l → (j < length l)%nat →
     body (N.of_nat j) s = Ret () (set_arr (<[j:=None]> l) b s)) →
  ∀ (cnt i : nat) s l, P s → arr_at s b = Some l → (i + cnt ≤ length l)%nat →
    for_range cnt (N.of_nat i) body s
    = Ret () (set_arr (take i l ++ replicate cnt None ++ drop (i + cnt) l) b s).
Proof.
  intros HP Hbody. induction cnt as [|cnt IH]; intros i s l Hs Hl Hlen; simpl.
  - rewrite Nat.add_0_r, take_drop. by rewrite set_arr_id.
  - erewrite run_bind by (apply Hbody; [done..|lia]).
    replace (N.of_nat i + 1)%N with (N.of_nat (S i)) by lia.
    erewrite IH; [|by apply HP|apply arr_at_set_eq; eauto|rewrite length_insert; lia].
    f_equal. unfold set_arr at 2. rewrite Hl.
    unfold set_arr. unfold arr_at at 1. rewrite lookup_insert_eq, Hl, insert_insert_eq.
    f_equal. f_equal.
    rewrite (take_S_r _ _ None) by (apply list_lookup_insert_eq; lia).
    rewrite take_insert_ge by lia. rewrite drop_insert_lt by lia.
    rewrite <-app_assoc. simpl. by rewrite Nat.add_succ_r.
Qed.

Lemma fill_all (l : list (option positive)) :
  take 0 l ++ replicate (length l) None ++ drop (0 + length l) l = replicate (length l) None.
Proof. simpl. rewrite drop_all. apply app_nil_r. Qed.

Lemma for_range_reset s this m b l :
  map_at s this = Some m → buckets m = Some b → arr_at s b = Some l →
  for_range (length l) 0%N (λ i, b ← get_buckets (Some this); array_set b i None) s
  = Ret () (set_arr (replicate (length l) None) b s).
Proof.
  intros Hm Hb Hl.
  rewrite (for_range_fill (λ s', map_at s' this = Some m) _ b) with (i := 0%nat) (l := l);
    [by rewrite fill_all| | |done..].
  - intros s' l' ?. by rewrite map_at_set_arr.
  - intros s' l' j Hs' Hl' Hj. mstep. rewrite Hb.
    replace j with (N.to_nat (N.of_nat j)) at 2 by lia.
    apply run_array_set; [done|lia].
Qed.

Lemma for_range_reset_direct s b l :
  arr_at s b = Some l →
  for_range (length l) 0%N (λ i, array_set (Some b) i None) s
  = Ret () (set_arr (replicate (length l) None) b s).
Proof.
  intros Hl.
  rewrite (for_range_fill (λ _, True) _ b) with (i := 0%nat) (l := l);
    [by rewrite fill_all|done| |done..].
  intros s' l' j _ Hl' Hj.
  replace j with (N.to_nat (N.of_nat j)) at 2 by lia.
  apply run_array_set; [done|lia].
Qed.

Lemma for_range_reset_len s this m b l cnt :
  map_at s this = Some m → buckets m = Some b → arr_at s b = Some l → cnt = length l →
  for_range cnt 0%N (λ i, b ← get_buckets (Some this); array_set b i None) s
  = Ret () (set_arr (replicate cnt None) b s).
Proof. intros ??? ->. by eapply for_range_reset. Qed.

Lemma for_range_reset_direct_len s b l cnt :
  arr_at s b = Some l → cnt = length l →
  for_range cnt 0%N (λ i, array_set (Some b) i None) s
  = Ret () (set_arr (replicate cnt None) b s).
Proof. intros ? ->. by eapply for_range_reset_direct. Qed.

Lemma init_sentinels_spec s this m :
  map_at s this = Some m →
  ∃ h t s',
    init_sentinels (Some this) s = Ret () s' ∧
    h ≠ t ∧ s !! h = None ∧ s !! t = None ∧
    map_at s' this
    = Some (mkMap (Some h) (Some t) (buckets m) (bucket_count m) (element_count m)) ∧
    dll s' None [h; t] None ∧
    (∀ x, x ≠ this → x ≠ h → x ≠ t → s' !! x = s !! x).
Proof.
  intros Hm. unfold init_sentinels.
  malloc h Hh. mstep. malloc t Ht.
  assert (Hth : t ≠ h) by (apply (unused_ne _ _ _ Ht); rd).
  assert (Hts : s !! t = None) by (apply (unused_older _ _ _ Ht); intros ?; rd).
  repeat mstep.
  eexists h, t, _. split; [mlast|].
  split_and!; try done.
  - rd.
  - simpl. split_and!; try done; rd.
  - intros x ???. lkne.
Qed.

Lemma init_buckets_spec s this m count :
  map_at s this = Some m →
  ∃ b s',
    init_buckets (Some this) count s = Ret () s' ∧
    s !! b = None ∧
    map_at s' this = Some (mkMap (head m) (tail m) (Some b) count (element_count m)) ∧
    arr_at s' b = Some (replicate (N.to_nat count) None) ∧
    (∀ x, x ≠ this → x ≠ b → s' !! x = s !! x).
Proof.
  intros Hm. unfold init_buckets.
  mstep. mstep. malloc b Hb.
  assert (Hbs : s !! b = None) by (apply (unused_older _ _ _ Hb); intros ?; rd).
  mstep.
  erewrite for_range_reset_len; [|rd|done|rd|by rewrite length_replicate].
  eexists b, _. split; [done|].
  split_and!; try done; try rd.
  intros x ??. lkne.
Qed.

(** ** Doubly linked segments and collision chains *)

Lemma hd_ptr_app (xs ys : list positive) q : hd_ptr (xs ++ ys) q = hd_ptr xs (hd_ptr ys q).
Proof. by destruct xs. Qed.
Lemma last_ptr_cons p a (xs : list positive) : last_ptr p (a :: xs) = last_ptr (Some a) xs.
Proof. unfold last_ptr. rewrite last_cons. by destruct (last xs). Qed.
Lemma last_ptr_snoc p (xs : list positive) a : last_ptr p (xs ++ [a]) = Some a.
Proof. unfold last_ptr. by rewrite last_snoc. Qed.
Lemma last_ptr_nil p : last_ptr p [] = p.
Proof. done. Qed.

Lemma dll_cons s p a xs q :
  dll s p (a :: xs) q
  ↔ fld prev s a = Some p ∧ fld next s a = Some (hd_ptr xs q) ∧ dll s (Some a) xs q.
Proof. done. Qed.
Lemma dll_nil s p q : dll s p [] q ↔ True.
Proof. done. Qed.
Lemma chain_cons s p a c q :
  chain s p (a :: c) q
  ↔ p = Some a ∧ ∃ p', fld next_in_bucket s a = Some p' ∧ chain s p' c q.
Proof. done. Qed.
Lemma chain_nil s p q : chain s p [] q ↔ p = q.
Proof. done. Qed.

Lemma dll_frame s s' p xs q :
  (∀ a, a ∈ xs → fld prev s' a = fld prev s a ∧ fld next s' a = fld next s a) →
  dll s p xs q → dll s' p xs q.
Proof.
  revert p. induction xs as [|a xs IH]; intros p Hf; simpl; [done|].
  intros (Hp & Hn & Hd). destruct (Hf a) as [-> ->]; [by left|].
  split_and!; [done..|]. apply IH; [|done]. intros b Hb. apply Hf. by right.
Qed.

Lemma dll_app s p xs ys q :
  dll s p (xs ++ ys) q ↔ dll s p xs (hd_ptr ys q) ∧ dll s (last_ptr p xs) ys q.
Proof.
  revert p. induction xs as [|a xs IH]; intros p; simpl.
  - rewrite last_ptr_nil. naive_solver.
  - rewrite IH, hd_ptr_app, last_ptr_cons. naive_solver.
Qed.

Lemma dll_is_node s p xs q a : dll s p xs q → a ∈ xs → is_Some (node_at s a).
Proof.
  revert p. induction xs as [|b xs IH]; intros p; simpl; [by intros _ ?%elem_of_nil|].
  intros (Hp & _ & Hd) [->|Hin]%elem_of_cons; [by eapply fld_is_node|by eapply IH].
Qed.

Lemma chain_frame s s' p c q :
  (∀ a, a ∈ c → fld next_in_bucket s' a = fld next_in_bucket s a) →
  chain s p c q → chain s' p c q.
Proof.
  revert p. induction c as [|a c IH]; intros p Hf; simpl; [done|].
  intros (-> & p' & Hp' & Hc). split; [done|]. exists p'. split.
  - rewrite Hf; [done|by left].
  - apply IH; [|done]. intros b Hb. apply Hf. by right.
Qed.

Lemma chain_is_node s p c q a : chain s p c q → a ∈ c → is_Some (node_at s a).
Proof.
  revert p. induction c as [|b c IH]; intros p; simpl; [by intros _ ?%elem_of_nil|].
  intros (-> & p' & Hp' & Hc) [->|Hin]%elem_of_cons; [by eapply fld_is_node|by eapply IH].
Qed.

Lemma chain_app s p c1 c2 q :
  chain s p (c1 ++ c2) q ↔ ∃ r, chain s p c1 r ∧ chain s r c2 q.
Proof.
  revert p. induction c1 as [|a c1 IH]; intros p; simpl.
  - split; [eauto|]. by intros (r & -> & ?).
  - split.
    + intros (-> & p' & Hp' & (r & ? & ?)%IH). eauto 10.
    + intros (r & (-> & p' & Hp' & ?) & ?). split; [done|]. exists p'. split; [done|].
      apply IH. eauto.
Qed.

(** A list of distinct allocated addresses is no longer than the store. *)
Lemma length_le_size s (c : list positive) :
  NoDup c → (∀ a, a ∈ c → is_Some (s !! a)) → (length c ≤ base.size s)%nat.
Proof.
  intros Hnd Hin. rewrite <-(size_dom (D:=gset positive)), <-(size_list_to_set (C:=gset positive) c) by done.
  apply subseteq_size. intros x Hx%elem_of_list_to_set. apply elem_of_dom. auto.
Qed.

(** ** Looking a key up among the entries *)

Lemma entry_of_Some k es e :
  entry_of k es = Some e → e ∈ es ∧ equal_func e.2.1 k = true.
Proof.
  induction es as [|e' es IH]; simpl; [done|].
  destruct (equal_func e'.2.1 k) eqn:E.
  - intros [= <-]. split; [by left|done].
  - intros [? ?]%IH. split; [by right|done].
Qed.

Lemma entry_of_None k es :
  entry_of k es = None ↔ ∀ e, e ∈ es → equal_func e.2.1 k = false.
Proof.
  induction es as [|e' es IH]; simpl.
  - split; [by intros _ e ?%elem_of_nil|done].
  - destruct (equal_func e'.2.1 k) eqn:E.
    + split; [done|]. intros Hall. rewrite Hall in E; [done|by left].
    + rewrite IH. split.
      * intros Hall e [->|?]%elem_of_cons; auto.
      * intros Hall e ?. apply Hall. by right.
Qed.

Lemma entry_of_app k es1 es2 :
  entry_of k (es1 ++ es2)
  = match entry_of k es1 with Some e => Some e | None => entry_of k es2 end.
Proof.
  induction es1 as [|e es1 IH]; simpl; [done|]. by destruct (equal_func e.2.1 k).
Qed.

Lemma entries_of_locs es (c : list positive) :
  (∀ a, a ∈ c → ∃ kv, (a, kv) ∈ es) →
  ∃ ce : list entry, ce.*1 = c ∧ ∀ e, e ∈ ce → e ∈ es.
Proof.
  induction c as [|a c IH]; intros Hc.
  - exists []. split; [done|]. by intros e ?%elem_of_nil.
  - destruct (Hc a) as [kv Hkv]; [by left|].
    destruct IH as (ce & <- & Hce); [intros b ?; apply Hc; by right|].
    exists ((a, kv) :: ce). split; [done|].
    intros e [->|?]%elem_of_cons; auto.
Qed.

Lemma entry_fst_inj es (e1 e2 : entry) :
  NoDup es.*1 → e1 ∈ es → e2 ∈ es → e1.1 = e2.1 → e1 = e2.
Proof.
  intros Hnd [i Hi]%list_elem_of_lookup [j Hj]%list_elem_of_lookup Heq.
  assert (i = j) as ->; [|congruence].
  apply (NoDup_lookup es.*1 i j e1.1); [done| |]; rewrite list_lookup_fmap.
  - by rewrite Hi.
  - by rewrite Hj, Heq.
Qed.

Section lookup_laws.
Context {laws : KeyLaws Key}.

Lemma bucket_of_equal bc (k1 k2 : Key) :
  equal_func k1 k2 = true → bucket_of bc k1 = bucket_of bc k2.
Proof. intros E. unfold bucket_of. by rewrite (hash_equal _ _ E). Qed.

(** Searching the chain of the key's bucket is searching all entries. *)
Lemma entry_of_bucket es (ce : list entry) bc k :
  NoDup es.*1 →
  (∀ e1 e2, e1 ∈ es → e2 ∈ es → e1.1 ≠ e2.1 → equal_func e1.2.1 e2.2.1 = false) →
  (∀ e, e ∈ ce → e ∈ es) →
  (∀ e, e ∈ es → bucket_of bc e.2.1 = bucket_of bc k → e.1 ∈ ce.*1) →
  entry_of k ce = entry_of k es.
Proof.
  intros Hnd Hkeys Hsub Hall.
  destruct (entry_of k es) as [e|] eqn:Ees.
  - apply entry_of_Some in Ees as [Hin Heq].
    destruct (entry_of k ce) as [e'|] eqn:Ece.
    + apply entry_of_Some in Ece as [Hin' Heq'].
      f_equal. apply (entry_fst_inj es); auto.
      destruct (decide (e'.1 = e.1)) as [|Hne]; [done|].
      apply (Hkeys _ _ (Hsub _ Hin') Hin) in Hne.
      rewrite (equal_trans e'.2.1 k e.2.1) in Hne; [done|done|].
      by rewrite equal_sym.
    + exfalso. assert (e.1 ∈ ce.*1) as Hce by (apply Hall; [done|by apply bucket_of_equal]).
      apply list_elem_of_fmap in Hce as (e' & He' & Hin').
      assert (e' = e) as -> by (apply (entry_fst_inj es); auto).
      rewrite entry_of_None in Ece. rewrite (Ece e Hin') in Heq. done.
  - rewrite entry_of_None in Ees. apply entry_of_None. auto.
Qed.

End lookup_laws.

(** ** find_in_bucket *)

Lemma find_in_bucket_loop_spec s k (ce : list entry) p fuel :
  chain s p ce.*1 None →
  (∀ e, e ∈ ce → fld data s e.1 = Some (Some e.2)) →
  (length ce < fuel)%nat →
  find_in_bucket_loop fuel k p s = Ret (fst <$> entry_of k ce) s.
Proof.
  revert p fuel. induction ce as [|e ce IH]; intros p fuel Hc Hd Hf;
    (destruct fuel as [|fuel]; [simpl in Hf; lia|]).
  - simpl in Hc. by subst.
  - destruct Hc as (-> & p' & Hp' & Hc). simpl.
    assert (fld data s e.1 = Some (Some e.2)) by (apply Hd; by left).
    mstep. mstep. destruct (equal_func e.2.1 k); [done|].
    mstep. apply IH; [done| |simpl in Hf; lia].
    intros e' ?. apply Hd. by right.
Qed.

Lemma Rep_entries_nodup s this h t b es bc : Rep s this h t b es bc → NoDup es.*1.
Proof.
  intros [_ Hnd _ _ _ _ _ _]. apply NoDup_cons in Hnd as [_ Hnd].
  by apply NoDup_app in Hnd as [? _].
Qed.

Lemma Rep_entry_allocated s this h t b es bc e :
  Rep s this h t b es bc → e ∈ es → is_Some (s !! e.1).
Proof.
  intros HR He. apply node_allocated. eapply fld_is_node, (rep_data _ _ _ _ _ _ _ HR e.1 e.2).
  by destruct e.
Qed.

Lemma bucket_index_lt bc k : (0 < bc)%N → (N.to_nat (bucket_of bc k) < N.to_nat bc)%nat.
Proof. intros. unfold bucket_of. pose proof (N.mod_lt (hash_func k) bc). lia. Qed.

Lemma find_in_bucket_spec {laws : KeyLaws Key} s this h t b es bc k :
  Rep s this h t b es bc →
  find_in_bucket (Some this) k (bucket_of bc k) s = Ret (fst <$> entry_of k es) s.
Proof.
  intros HR. pose proof (Rep_entries_nodup _ _ _ _ _ _ _ HR) as Hnd.
  destruct HR as [Hthis _ _ Hdata Hbc _ (bs & Hbs & Hlen & Hbk) Hkeys].
  unfold find_in_bucket. mstep.
  destruct (lookup_lt_is_Some_2 bs (N.to_nat (bucket_of bc k))) as [p Hp];
    [rewrite Hlen; apply bucket_index_lt; lia|].
  erewrite run_bind by (eapply run_array_get; [rd|done]). msimpl.
  destruct (Hbk _ _ Hp) as (c & Hc & Hcnd & Hcin).
  destruct (entries_of_locs es c) as (ce & <- & Hce); [intros a Ha; apply Hcin in Ha; naive_solver|].
  rewrite run_with_fuel, <-(entry_of_bucket es ce bc k); try done.
  - apply find_in_bucket_loop_spec; [done| |].
    + intros e He. apply Hdata. destruct e. by apply Hce.
    + rewrite <-(length_fmap fst). apply Nat.lt_succ_r, length_le_size; [done|].
      intros a Ha. apply node_allocated. by eapply chain_is_node.
  - intros e He Hb. apply Hcin. exists e.2. rewrite N2Nat.id. by destruct e.
Qed.

Lemma get_bucket_index_spec s this m k :
  map_at s this = Some m → (0 < bucket_count m)%N →
  get_bucket_index (Some this) k s = Ret (bucket_of (bucket_count m) k) s.
Proof.
  intros Hm Hbc. unfold get_bucket_index. mstep.
  destruct (N.eqb_spec (bucket_count m) 0); [lia|done].
Qed.

Lemma Rep_order s this h t b es bc :
  Rep s this h t b es bc →
  fld prev s h = Some None ∧ fld next s h = Some (hd_ptr es.*1 (Some t)) ∧
  dll s (Some h) es.*1 (Some t) ∧
  fld prev s t = Some (last_ptr (Some h) es.*1) ∧ fld next s t = Some None.
Proof.
  intros [_ _ Hord _ _ _ _ _]. destruct Hord as (Hhp & Hhn & Hd).
  rewrite hd_ptr_app in Hhn. apply dll_app in Hd as [Hd (Htp & Htn & _)]. done.
Qed.

Lemma Rep_ne s this h t b es bc :
  Rep s this h t b es bc →
  h ≠ t ∧ (h ∉ es.*1) ∧ (t ∉ es.*1) ∧ NoDup (es.*1).
Proof.
  intros [_ Hnd _ _ _ _ _ _]. apply NoDup_cons in Hnd as [Hh Hnd].
  apply NoDup_app in Hnd as (Hnd & Ht & _).
  split_and!; [| |intros Hin; eapply Ht; [done|by left]|done].
  - intros ->. apply Hh, elem_of_app. right. by left.
  - intros Hin. apply Hh, elem_of_app. by left.
Qed.

(** ** Traversal *)

Lemma run_end s this m : map_at s this = Some m → end_ (Some this) s = Ret (mkIt (tail m) (Some this)) s.
Proof. intros. unfold end_. by mstep. Qed.

Lemma iterate_loop_spec s this m t es p fuel :
  map_at s this = Some m → tail m = Some t →
  dll s p es.*1 (Some t) → t ∉ es.*1 →
  (∀ e, e ∈ es → fld data s e.1 = Some (Some e.2)) →
  (length es < fuel)%nat →
  iterate_loop fuel (Some this) (mkIt (hd_ptr es.*1 (Some t)) (Some this)) s = Ret es.*2 s.
Proof.
  intros Hm Ht. revert p fuel. induction es as [|e es IH]; intros p fuel Hd Hnt Hdata Hf;
    (destruct fuel as [|fuel]; [simpl in Hf; lia|]); simpl.
  - mstep_by run_end. rewrite Ht. unfold operator_ne, operator_eq. simpl.
    by rewrite !bool_decide_eq_true_2.
  - mstep_by run_end. rewrite Ht. unfold operator_ne, operator_eq. simpl.
    assert (e.1 ≠ t) by (intros E; apply Hnt; rewrite <-E; by left).
    rewrite bool_decide_eq_false_2 by congruence. simpl.
    destruct Hd as (Hp & Hn & Hd).
    assert (fld data s e.1 = Some (Some e.2)) by (apply Hdata; by left).
    unfold operator_deref, operator_inc. msimpl.
    erewrite (run_bind (_ ≫= _)); [|by mstep]. msimpl.
    erewrite (run_bind (_ ≫= _)).
    2:{ mstep. rewrite Ht. rewrite decide_False by congruence. by mstep. }
    msimpl. erewrite run_bind; [done|].
    eapply IH; [done| | |simpl in Hf; lia].
    + intros ?. apply Hnt. by right.
    + intros e' ?. apply Hdata. by right.
Qed.

Lemma begin_spec s this h t b es bc :
  Rep s this h t b es bc →
  begin (Some this) s = Ret (mkIt (hd_ptr es.*1 (Some t)) (Some this)) s.
Proof.
  intros HR. destruct (Rep_order _ _ _ _ _ _ _ HR) as (_ & Hhn & _).
  pose proof (rep_this _ _ _ _ _ _ _ HR) as Hthis.
  unfold begin. mstep. by mstep.
Qed.

Lemma end_spec s this h t b es bc :
  Rep s this h t b es bc → end_ (Some this) s = Ret (mkIt (Some t) (Some this)) s.
Proof. intros HR. by rewrite (run_end _ _ _ (rep_this _ _ _ _ _ _ _ HR)). Qed.

Lemma iterate_spec s this h t b es bc :
  Rep s this h t b es bc → iterate (Some this) s = Ret es.*2 s.
Proof.
  intros HR. destruct (Rep_order _ _ _ _ _ _ _ HR) as (_ & Hhn & Hd & _).
  destruct (Rep_ne _ _ _ _ _ _ _ HR) as (_ & _ & Hnt & Hnd).
  pose proof (rep_this _ _ _ _ _ _ _ HR) as Hthis.
  unfold iterate. rewrite (run_bind _ _ _ _ _ (begin_spec _ _ _ _ _ _ _ HR)).
  rewrite run_with_fuel.
  eapply iterate_loop_spec; try done.
  - intros e He. apply (rep_data _ _ _ _ _ _ _ HR). by destruct e.
  - rewrite <-(length_fmap fst). apply Nat.lt_succ_r, length_le_size; [done|].
    intros a Ha. apply node_allocated. by eapply dll_is_node.
Qed.

(** ** The default constructor *)

Lemma ctor_spec s this m :
  map_at s this = Some m →
  ∃ h t b s',
    ctor (Some this) s = Ret () s' ∧
    Rep s' this h t b [] INITIAL_BUCKET_COUNT ∧
    s !! h = None ∧ s !! t = None ∧ s !! b = None ∧
    (∀ x, x ∉ ({[this; h; t; b]} : gset positive) → s' !! x = s !! x).
Proof.
  intros Hm. unfold ctor. mstep.
  match goal with |- context [mbind _ _ ?S] => set (s1 := S) end.
  destruct (init_sentinels_spec s1 this _ ltac:(subst s1; rd))
    as (h & t & s2 & E2 & Hht & Hh & Ht & Hm2 & Hd2 & Hf2).
  rewrite (run_bind _ _ _ _ _ E2). msimpl.
  destruct (init_buckets_spec s2 this _ INITIAL_BUCKET_COUNT Hm2)
    as (b & s3 & E3 & Hb & Hm3 & Ha3 & Hf3).
  exists h, t, b, s3. split; [done|]. simpl in Hm3.
  assert (Hnh : is_Some (node_at s2 h)) by (destruct Hd2 as (? & _); by eapply fld_is_node).
  assert (Hnt : is_Some (node_at s2 t)) by (destruct Hd2 as (_ & _ & ? & _); by eapply fld_is_node).
  assert (b ≠ h) by (apply (unused_ne _ _ _ Hb); by apply node_allocated).
  assert (b ≠ t) by (apply (unused_ne _ _ _ Hb); by apply node_allocated).
  assert (this ≠ h) by (apply not_eq_sym; eapply node_map_ne; eauto).
  assert (this ≠ t) by (apply not_eq_sym; eapply node_map_ne; eauto).
  assert (Hs1 : ∀ x, x ≠ this → s1 !! x = s !! x) by (intros; subst s1; lkne).
  assert (this ≠ b).
  { intros ->. apply map_at_Some in Hm2. congruence. }
  split_and!.
  - split.
    + done.
    + apply NoDup_cons. split; [|apply NoDup_singleton]. by intros ->%list_elem_of_singleton.
    + apply (dll_frame s2); [|exact Hd2]. intros a Ha. unfold fld, node_at.
      rewrite Hf3; [done| |]; intros ->; set_solver.
    + by intros a kv ?%elem_of_nil.
    + by split.
    + unfold INITIAL_BUCKET_COUNT. simpl. lia.
    + eexists. split_and!; [done|by rewrite length_replicate|].
      intros i p [-> _]%lookup_replicate. exists []. split_and!; [done|constructor|].
      intros a. split; [by intros ?%elem_of_nil|]. by intros (kv & ?%elem_of_nil & _).
    + by intros e1 e2 ?%elem_of_nil.
  - rewrite <-Hs1 by done. done.
  - rewrite <-Hs1 by done. done.
  - rewrite <-Hs1, <-Hf2 by done. done.
  - intros x Hx. rewrite Hf3, Hf2, Hs1 by set_solver. done.
Qed.

(** ** Buckets *)

Lemma fld_ext {X} (f : Node Key T → X) s s' a : s' !! a = s !! a → fld f s' a = fld f s a.
Proof. intros E. unfold fld, node_at. by rewrite E. Qed.

Lemma bucket_ok_locs es bc i (c : list positive) :
  (∀ a, a ∈ c ↔ ∃ kv, (a, kv) ∈ es ∧ bucket_of bc kv.1 = N.of_nat i) →
  ∀ a, a ∈ c → a ∈ es.*1.
Proof.
  intros Hc a (kv & Hin & _)%Hc. apply list_elem_of_fmap. by exists (a, kv).
Qed.

Lemma bucket_ok_frame s s' es bc i p :
  (∀ a, a ∈ es.*1 → fld next_in_bucket s' a = fld next_in_bucket s a) →
  bucket_ok s es bc i p → bucket_ok s' es bc i p.
Proof.
  intros Hf (c & Hc & Hnd & Hin). exists c. split_and!; [|done..].
  eapply chain_frame; [|done]. intros a Ha. apply Hf. by eapply bucket_ok_locs.
Qed.

Lemma bucket_ok_equiv s es es' bc i p :
  (∀ e, e ∈ es ↔ e ∈ es') → bucket_ok s es bc i p → bucket_ok s es' bc i p.
Proof.
  intros He (c & Hc & Hnd & Hin). exists c. split_and!; [done..|].
  intros a. rewrite Hin. by setoid_rewrite He.
Qed.

Lemma bucket_ok_other s es (e : entry) bc i p :
  bucket_of bc e.2.1 ≠ N.of_nat i →
  bucket_ok s es bc i p → bucket_ok s (es ++ [e]) bc i p.
Proof.
  intros Hne (c & Hc & Hnd & Hin). exists c. split_and!; [done..|].
  intros a. rewrite Hin. split.
  - intros (kv & ? & ?). exists kv. split; [|done]. apply elem_of_app. by left.
  - intros (kv & [?|He%list_elem_of_singleton]%elem_of_app & ?); [by exists kv|by subst].
Qed.

Lemma bucket_ok_push s s' es (e : entry) bc i (q : option positive) :
  bucket_ok s es bc i q → e.1 ∉ es.*1 →
  bucket_of bc e.2.1 = N.of_nat i →
  fld next_in_bucket s' e.1 = Some q →
  (∀ a, a ∈ es.*1 → fld next_in_bucket s' a = fld next_in_bucket s a) →
  bucket_ok s' (es ++ [e]) bc i (Some e.1).
Proof.
  intros (c & Hc & Hnd & Hin) Hfresh Hb Hx Hf. exists (e.1 :: c).
  assert (Hsub : ∀ a, a ∈ c → a ∈ es.*1) by by eapply bucket_ok_locs.
  split_and!.
  - split; [done|]. exists q. split; [done|].
    eapply chain_frame; [|done]. intros a Ha. apply Hf. by apply Hsub.
  - apply NoDup_cons. split; [|done]. intros ?. by apply Hfresh, Hsub.
  - intros a. rewrite elem_of_cons, Hin. split.
    + intros [->|(kv & ? & ?)].
      * exists e.2. split; [|done]. apply elem_of_app. right.
        apply list_elem_of_singleton. by destruct e.
      * exists kv. split; [|done]. apply elem_of_app. by left.
    + intros (kv & [?|He%list_elem_of_singleton]%elem_of_app & ?); [right; by exists kv|left].
      by subst e.
Qed.

Lemma bucket_ok_empty s bc i : bucket_ok s [] bc i None.
Proof.
  exists []. split_and!; [done|constructor|].
  intros a. split; [by intros ?%elem_of_nil|]. by intros (kv & ?%elem_of_nil & _).
Qed.

(** ** rehash *)

Lemma rehash_loop_spec s this m t b' nbc nbs (done_ todo : list entry) p fuel :
  map_at s this = Some m → tail m = Some t →
  arr_at s b' = Some nbs → length nbs = N.to_nat nbc → (0 < nbc)%N →
  dll s p todo.*1 (Some t) → t ∉ todo.*1 → NoDup (done_ ++ todo).*1 →
  (∀ e, e ∈ todo → fld data s e.1 = Some (Some e.2)) →
  (∀ i q, nbs !! i = Some q → bucket_ok s done_ nbc i q) →
  (length todo < fuel)%nat →
  ∃ s' nbs',
    rehash_loop fuel (Some this) nbc (Some b') (hd_ptr todo.*1 (Some t)) s = Ret () s' ∧
    arr_at s' b' = Some nbs' ∧ length nbs' = N.to_nat nbc ∧
    (∀ i q, nbs' !! i = Some q → bucket_ok s' (done_ ++ todo) nbc i q) ∧
    (∀ x, x ≠ b' → x ∉ todo.*1 → s' !! x = s !! x) ∧
    (∀ x, map_at s' x = map_at s x) ∧
    (∀ a, fld prev s' a = fld prev s a ∧ fld next s' a = fld next s a ∧
          fld data s' a = fld data s a).
Proof.
  intros Hm Ht. revert s done_ nbs p fuel Hm.
  induction todo as [|e todo IH]; intros s done_ nbs p fuel Hm Hnbs Hlen Hpos Hd Hnt Hnd Hdata Hbk Hf;
    (destruct fuel as [|fuel]; [simpl in Hf; lia|]); simpl.
  - mstep. rewrite Ht, decide_True by done. exists s, nbs.
    rewrite app_nil_r. by split_and!.
  - destruct Hd as (Hp & Hn & Hd).
    assert (Hat : e.1 ≠ t) by (intros E; apply Hnt; rewrite <-E; by left).
    assert (Hde : fld data s e.1 = Some (Some e.2)) by (apply Hdata; by left).
    mstep. rewrite Ht, decide_False by congruence.
    mstep. mstep. destruct (N.eqb_spec nbc 0) as [|_]; [lia|]. mstep.
    set (idx := (hash_func e.2.1 mod nbc)%N).
    destruct (lookup_lt_is_Some_2 nbs (N.to_nat idx)) as [x Hx];
      [rewrite Hlen; apply (bucket_index_lt nbc e.2.1); lia|].
    erewrite run_bind by (eapply run_array_get; [rd|done]). msimpl.
    mstep.
    erewrite run_bind by (eapply run_array_set; [rd|by eapply lookup_lt_Some]). msimpl.
    mstep.
    match goal with |- context [rehash_loop _ _ _ _ _ ?S] => set (s2 := S) end.
    assert (Hfl : ∀ {X} (f : Node Key T → X) a, (∀ n y, f (with_next_in_bucket y n) = f n) →
               fld f s2 a = fld f s a).
    { intros X f a Hfg. subst s2. rewrite fld_set_arr. by apply fld_upd_inv. }
    assert (Hnib : ∀ a, a ≠ e.1 → fld next_in_bucket s2 a = fld next_in_bucket s a).
    { intros a ?. subst s2. rewrite fld_set_arr. by apply fld_upd_ne. }
    rewrite fmap_app in Hnd. simpl in Hnd.
    assert (Hefresh : e.1 ∉ done_.*1).
    { intros Hin. apply NoDup_app in Hnd as (_ & Hdisj & _). eapply Hdisj; [done|by left]. }
    destruct (IH s2 (done_ ++ [e]) (<[N.to_nat idx:=Some e.1]> nbs) (Some e.1) fuel)
      as (s' & nbs' & E & Hnbs' & Hlen' & Hbk' & Hfr & Hmap & Hflds).
    + subst s2. rd.
    + subst s2. rd.
    + by rewrite length_insert.
    + done.
    + eapply dll_frame; [|done]. intros a _. by rewrite !Hfl.
    + intros ?. apply Hnt. by right.
    + rewrite <-app_assoc, fmap_app. done.
    + intros e' ?. rewrite Hfl by done. apply Hdata. by right.
    + intros i q Hq. destruct (decide (i = N.to_nat idx)) as [->|Hne].
      * rewrite list_lookup_insert_eq in Hq by by eapply lookup_lt_Some.
        injection Hq as <-.
        eapply bucket_ok_push; [by apply Hbk|done| | |].
        -- unfold bucket_of. fold idx. lia.
        -- subst s2. rd.
        -- intros a Ha. apply Hnib. intros ->. done.
      * rewrite list_lookup_insert_ne in Hq by done.
        apply bucket_ok_other; [unfold bucket_of; fold idx; lia|].
        eapply bucket_ok_frame; [|by apply Hbk].
        intros a Ha. apply Hnib. intros ->. done.
    + simpl in Hf. lia.
    + exists s', nbs'. split_and!; try done.
      * intros i q Hq. rewrite (app_assoc done_ [e] todo) || rewrite <-(app_assoc done_ [e] todo) in Hbk'.
        by apply Hbk'.
      * intros y Hyb Hyn. rewrite Hfr; [|done|intros ?; apply Hyn; by right].
        assert (y ≠ e.1) by (intros ->; apply Hyn; by left).
        subst s2. lkne.
      * intros y. rewrite Hmap. subst s2. by rewrite map_at_set_arr, map_at_upd.
      * intros a. destruct (Hflds a) as (-> & -> & ->). by rewrite !Hfl.
Qed.

Lemma fld_pres_eq {X} (f : Node Key T → X) s s' a :
  is_Some (node_at s a) → (∀ v, fld f s a = Some v → fld f s' a = Some v) →
  fld f s' a = fld f s a.
Proof. intros [n E] Hv. unfold fld at 2. rewrite E. simpl. apply Hv. unfold fld. by rewrite E. Qed.

Lemma dll_pres s s' p xs q :
  (∀ a v, a ∈ xs → fld prev s a = Some v → fld prev s' a = Some v) →
  (∀ a v, a ∈ xs → fld next s a = Some v → fld next s' a = Some v) →
  dll s p xs q → dll s' p xs q.
Proof.
  intros Hp Hn Hd. eapply dll_frame; [|done]. intros a Ha.
  pose proof (dll_is_node _ _ _ _ _ Hd Ha).
  split; apply fld_pres_eq; eauto.
Qed.

Lemma chain_pres s s' p c q :
  (∀ a v, a ∈ c → fld next_in_bucket s a = Some v → fld next_in_bucket s' a = Some v) →
  chain s p c q → chain s' p c q.
Proof.
  intros Hp Hc. eapply chain_frame; [|done]. intros a Ha.
  pose proof (chain_is_node _ _ _ _ _ Hc Ha). apply fld_pres_eq; eauto.
Qed.

Lemma bucket_ok_pres s s' es bc i p :
  (∀ a v, a ∈ es.*1 → fld next_in_bucket s a = Some v → fld next_in_bucket s' a = Some v) →
  bucket_ok s es bc i p → bucket_ok s' es bc i p.
Proof.
  intros Hf (c & Hc & Hnd & Hin). exists c. split_and!; [|done..].
  eapply chain_pres; [|done]. intros a v Ha. apply Hf. by eapply bucket_ok_locs.
Qed.

(** A well-formed container stays so when nothing it owns changes. *)
Lemma Rep_frame s s' this h t b es bc :
  Rep s this h t b es bc →
  (∀ x, x ∈ footprint this h t b es → s' !! x = s !! x) →
  Rep s' this h t b es bc.
Proof.
  intros HR Hf. pose proof HR as [Hthis Hnd Hord Hdata Hbc Hload (bs & Hbs & Hlen & Hbk) Hkeys].
  assert (Hnode : ∀ a, a ∈ h :: es.*1 ++ [t] → s' !! a = s !! a).
  { intros a Ha. apply Hf. unfold footprint. set_solver. }
  assert (Hent : ∀ a, a ∈ es.*1 → s' !! a = s !! a).
  { intros a Ha. apply Hnode. set_solver. }
  split; try done.
  - unfold map_at. rewrite Hf; [done|]. unfold footprint. set_solver.
  - eapply dll_frame; [|done]. intros a Ha. split; apply fld_ext; auto.
  - intros a kv Hin. rewrite (fld_ext data s s'); [eauto|].
    apply Hent, list_elem_of_fmap. by exists (a, kv).
  - exists bs. split_and!; [|done|].
    + unfold arr_at. rewrite Hf; [done|]. unfold footprint. set_solver.
    + intros i p Hp. eapply bucket_ok_frame; [|eauto]. intros a Ha. apply fld_ext; auto.
Qed.

Lemma Rep_allocated s this h t b es bc x :
  Rep s this h t b es bc → x ∈ footprint this h t b es → is_Some (s !! x).
Proof.
  intros HR Hx. pose proof HR as [Hthis Hnd Hord Hdata Hbc Hload (bs & Hbs & Hlen & Hbk) Hkeys].
  unfold footprint in Hx. apply elem_of_union in Hx as [Hx|Hx].
  - assert (x = this ∨ x = h ∨ x = t ∨ x = b) as Hcases by set_solver.
    destruct Hcases as [->|[->|[->| ->]]].
    + apply map_allocated. eauto.
    + apply node_allocated. eapply dll_is_node; [done|]. by left.
    + apply node_allocated. eapply dll_is_node; [done|]. set_solver.
    + apply arr_allocated. eauto.
  - apply elem_of_list_to_set in Hx. apply node_allocated.
    eapply dll_is_node; [done|]. set_solver.
Qed.

Lemma rehash_spec s this h t b es bc nbc :
  Rep s this h t b es bc →
  (0 < nbc < 2 ^ 64)%N → (4 * N.of_nat (length es) ≤ 3 * nbc)%N →
  ∃ b' s',
    rehash (Some this) nbc s = Ret () s' ∧
    Rep s' this h t b' es nbc ∧
    s !! b' = None ∧
    (∀ x, x ∉ footprint this h t b es → x ≠ b' → s' !! x = s !! x).
Proof.
  intros HR Hnbc Hload'.
  destruct (Rep_order _ _ _ _ _ _ _ HR) as (Hhp & Hhn & Hd & Htp & Htn).
  destruct (Rep_ne _ _ _ _ _ _ _ HR) as (Hht & Hhes & Htes & Hndes).
  pose proof HR as [Hthis Hnd Hord Hdata Hbc Hload (bs & Hbs & Hlen & Hbk) Hkeys].
  unfold rehash. malloc b' Hb'.
  erewrite run_bind by (eapply for_range_reset_direct_len; [rd|by rewrite length_replicate]).
  msimpl. mstep. mstep.
  match goal with |- context [mbind _ (with_fuel _) ?S] => set (s1 := S) end.
  assert (Hs1 : ∀ {X} (f : Node Key T → X) a v, fld f s a = Some v → fld f s1 a = Some v).
  { intros X f a v Hv. subst s1. rd. }
  destruct (rehash_loop_spec s1 this (mkMap (Some h) (Some t) (Some b) bc (N.of_nat (length es)))
              t b' nbc (replicate (N.to_nat nbc) None) [] es
              (Some h) (S (base.size s1)))
    as (s2 & nbs & E & Hnbs & Hlen2 & Hbk2 & Hfr2 & Hmap2 & Hfld2).
  { subst s1. rd. }
  { done. }
  { subst s1. rd. }
  { by rewrite length_replicate. }
  { lia. }
  { eapply dll_pres; [| |done]; intros; by apply Hs1. }
  { done. }
  { done. }
  { intros e He. apply Hs1, Hdata. by destruct e. }
  { intros i q [-> _]%lookup_replicate. apply bucket_ok_empty. }
  { rewrite <-(length_fmap fst). apply Nat.lt_succ_r, length_le_size; [done|].
    intros a Ha. apply node_allocated.
    pose proof (dll_is_node _ _ _ _ _ Hd Ha) as [n Hn].
    eapply fld_is_node, (Hs1 _ prev). by apply fld_node. }
  erewrite run_bind by (rewrite run_with_fuel; exact E). msimpl. simpl in Hbk2.
  assert (Hm2 : map_at s2 this = Some (mkMap (Some h) (Some t) (Some b) bc (N.of_nat (length es)))).
  { rewrite Hmap2. subst s1. rd. }
  assert (Hbb' : b ≠ b').
  { apply not_eq_sym, (unused_ne _ _ _ Hb'). apply arr_allocated. eauto. }
  assert (Hbs2 : arr_at s2 b = Some bs).
  { unfold arr_at. rewrite Hfr2; [| done |].
    - fold (arr_at s1 b). subst s1. rd.
    - intros Hin. pose proof (dll_is_node _ _ _ _ _ Hd Hin).
      eapply node_arr_ne; eauto. }
  mstep. mstep. mstep. eexists b', _. split; [mlast|].
  match goal with |- Rep ?S _ _ _ _ _ _ ∧ _ => set (s3 := S) end.
  assert (Hs3 : ∀ {X} (f : Node Key T → X) a, fld f s3 a = fld f s2 a).
  { intros X f a. subst s3. rewrite !fld_set_map. apply fld_delete_other, arr_node_None. eauto. }
  split_and!.
  - split; try done.
    + subst s3. rd.
    + eapply dll_pres; [| |exact Hord]; intros a v _ Hv; rewrite Hs3.
      * destruct (Hfld2 a) as (-> & _). by apply Hs1.
      * destruct (Hfld2 a) as (_ & -> & _). by apply Hs1.
    + intros a kv Hin. rewrite Hs3. destruct (Hfld2 a) as (_ & _ & ->). by apply Hs1, Hdata.
    + exists nbs. split_and!; [subst s3; rd|done|].
      intros i q Hq. eapply bucket_ok_frame; [|by apply Hbk2]. intros a _. apply Hs3.
  - eapply unused_older; [exact Hb'|]. intros ?. rd.
  - intros x Hx Hxb'. subst s3.
    assert (x ≠ this ∧ x ≠ b ∧ x ∉ es.*1) as (? & ? & ?) by (unfold footprint in Hx; set_solver).
    lkne. rewrite Hfr2 by done. subst s1. lkne.
Qed.

(** ** insert *)

Local Arguments dll : simpl never.
Local Arguments chain : simpl never.

Lemma last_ptr_Some (h : positive) (xs : list positive) :
  ∃ l, last (h :: xs) = Some l ∧ last_ptr (Some h) xs = Some l.
Proof.
  unfold last_ptr. rewrite last_cons. destruct (last xs) as [l|]; eauto.
Qed.

(** Redirecting the [next] of the last node of a segment. *)
Lemma dll_retarget s s' p L q q' l :
  dll s p L q → last L = Some l → NoDup L →
  (∀ a, a ∈ L → fld prev s' a = fld prev s a) →
  (∀ a, a ∈ L → a ≠ l → fld next s' a = fld next s a) →
  fld next s' l = Some q' →
  dll s' p L q'.
Proof.
  revert p. induction L as [|a L IH]; intros p Hd Hl Hnd Hp Hn Hq; [done|].
  destruct Hd as (Hap & Han & Hd). apply NoDup_cons in Hnd as [Hna HndL].
  destruct L as [|a' L].
  - injection Hl as ->. split_and!; [|done..]. rewrite Hp by by left. done.
  - rewrite last_cons_cons in Hl.
    assert (a ≠ l). { intros ->. apply Hna. by eapply last_Some_elem_of. }
    split_and!.
    + rewrite Hp by by left. done.
    + rewrite Hn; [done|by left|done].
    + apply IH; try done.
      * intros b Hb. apply Hp. by right.
      * intros b Hb. apply Hn. by right.
Qed.

(** Re-entering a segment from another predecessor. *)
Lemma dll_reenter s s' p p' a L q :
  dll s p (a :: L) q →
  fld prev s' a = Some p' → fld next s' a = fld next s a →
  (∀ b, b ∈ L → fld prev s' b = fld prev s b ∧ fld next s' b = fld next s b) →
  dll s' p' (a :: L) q.
Proof.
  intros (Hp & Hn & Hd) Hp' Hn' Hf. split_and!; [done|by rewrite Hn'|].
  by eapply dll_frame.
Qed.

Lemma wrap_small (n : N) : (n < 2 ^ 64)%N → wrap n = n.
Proof. intros. unfold wrap. by apply N.mod_small. Qed.

Lemma insert_tail_spec s this h t b es bc k v :
  Rep s this h t b es bc →
  (∀ e, e ∈ es → equal_func e.2.1 k = false ∧ equal_func k e.2.1 = false) →
  (4 * (N.of_nat (length es) + 1) ≤ 3 * bc)%N →
  ∃ a s',
    insert_tail (Some this) (k, v) (bucket_of bc k) s
    = Ret (mkIt (Some a) (Some this), true) s' ∧
    Rep s' this h t b (es ++ [(a, (k, v))]) bc ∧
    s !! a = None ∧
    (∀ x, x ∉ footprint this h t b es → x ≠ a → s' !! x = s !! x).
Proof.
  intros HR Hfresh Hroom.
  destruct (Rep_order _ _ _ _ _ _ _ HR) as (Hhp & Hhn & Hd & Htp & Htn).
  destruct (Rep_ne _ _ _ _ _ _ _ HR) as (Hht & Hhes & Htes & Hndes).
  pose proof HR as [Hthis Hnd Hord Hdata Hbc Hload (bs & Hbs & Hlen & Hbk) Hkeys].
  destruct (last_ptr_Some h es.*1) as (l & Hlast & Hl). rewrite Hl in Htp.
  assert (HlL : l ∈ h :: es.*1) by by eapply last_Some_elem_of.
  assert (Hnode : ∀ x, x ∈ h :: es.*1 ++ [t] → is_Some (node_at s x)).
  { intros x Hx. by eapply dll_is_node. }
  assert (Hnl : is_Some (node_at s l)) by (apply Hnode; set_solver).
  assert (Hnt : is_Some (node_at s t)) by (apply Hnode; set_solver).
  unfold insert_tail. malloc a Ha.
  assert (Hanode : ∀ x, is_Some (node_at s x) → x ≠ a).
  { intros x Hx. apply not_eq_sym, (unused_ne _ _ _ Ha). by apply node_allocated. }
  assert (Hal : l ≠ a) by (apply Hanode, Hnode; set_solver).
  assert (Hat : t ≠ a) by (apply Hanode, Hnode; set_solver).
  assert (Hlt : l ≠ t).
  { intros ->. apply NoDup_cons in Hnd as [Hh' Hnd]. apply elem_of_cons in HlL as [->|?]; [done|].
    by apply Htes. }
  mstep.
  destruct (lookup_lt_is_Some_2 bs (N.to_nat (bucket_of bc k))) as [q Hq];
    [rewrite Hlen; apply bucket_index_lt; lia|].
  erewrite run_bind by (eapply run_array_get; [rd|done]). msimpl.
  mstep.
  erewrite run_bind by (eapply run_array_set; [rd|by eapply lookup_lt_Some]). msimpl.
  mstep.
  erewrite run_bind.
  2:{ unfold insert_to_order_list. do 5 mstep. mlast. }
  msimpl. mstep. mstep. eexists a, _. split; [mlast|].
  match goal with |- Rep ?S _ _ _ _ _ _ ∧ _ => set (s' := S) end.
  assert (Hold : ∀ {X} (f : Node Key T → X) x,
             x ≠ a → (x ≠ t ∨ ∀ n y, f (with_prev y n) = f n) →
             (x ≠ l ∨ ∀ n y, f (with_next y n) = f n) →
             fld f s' x = fld f s x).
  { intros X f x Hxa Hxt Hxl. subst s'. rewrite fld_set_map.
    destruct Hxt as [?|Hxt]; [rewrite fld_upd_ne by done|rewrite fld_upd_inv by (intros; apply Hxt)];
    (destruct Hxl as [?|Hxl]; [rewrite fld_upd_ne by done|rewrite fld_upd_inv by (intros; apply Hxl)]);
    by fsimp. }
  assert (Hlen1 : (N.of_nat (length es) + 1 < 2 ^ 64)%N) by lia.
  split_and!.
  - split.
    + subst s'. rewrite map_at_set_eq by rd. rewrite wrap_small by done.
      rewrite length_app. simpl. do 2 f_equal. lia.
    + rewrite fmap_app. simpl. rewrite <-app_assoc. simpl.
      apply NoDup_cons in Hnd as [Hh' Hnd]. apply NoDup_app in Hnd as (Hnd1 & Hnd2 & Hnd3).
      apply NoDup_cons. split.
      { rewrite !elem_of_app, !elem_of_cons, elem_of_nil.
        intros [?|[?|[?|[]]]]; [done|by apply (Hanode h); [apply Hnode; set_solver|]|done]. }
      apply NoDup_app. split_and!; [done| |].
      { intros x Hx [->|[->|[]%elem_of_nil]%elem_of_cons]%elem_of_cons; [|done].
        apply (Hanode a); [apply Hnode; set_solver|done]. }
      apply NoDup_cons. split; [|apply NoDup_singleton].
      intros ->%list_elem_of_singleton. done.
    + rewrite fmap_app. simpl. rewrite <-app_assoc. simpl.
      change (h :: es.*1 ++ [a; t]) with ((h :: es.*1) ++ [a; t]).
      apply dll_app. split.
      * simpl hd_ptr. destruct Hord as (Hhp' & Hhn' & Hd').
        eapply (dll_retarget s s' None (h :: es.*1) (Some t) (Some a) l); try done.
        -- apply NoDup_cons in Hnd as [Hh' Hnd]. apply NoDup_app in Hnd as (Hnd1 & _).
           apply NoDup_cons. split; [|done]. set_solver.
        -- intros x Hx. apply Hold; [apply Hanode, Hnode; set_solver| |by right].
           left. intros ->. apply elem_of_cons in Hx as [?|?]; done.
        -- intros x Hx Hxl. apply Hold; [apply Hanode, Hnode; set_solver|by right|by left].
        -- subst s'. rd.
      * unfold last_ptr. rewrite Hlast. simpl. rewrite !dll_cons. simpl.
        split_and!; try done; subst s'; rd.
    + intros x kv [Hin|Hin%list_elem_of_singleton]%elem_of_app.
      * rewrite Hold; [by apply Hdata| |by right|by right].
        apply Hanode. eapply fld_is_node, Hdata. done.
      * injection Hin as -> ->. subst s'. rd.
    + done.
    + rewrite length_app. simpl. lia.
    + exists (<[N.to_nat (bucket_of bc k):=Some a]> bs). split_and!.
      * subst s'. rd.
      * by rewrite length_insert.
      * assert (Hnib : ∀ x, x ∈ es.*1 → fld next_in_bucket s' x = fld next_in_bucket s x).
        { intros x Hx. apply Hold; [apply Hanode, Hnode; set_solver|by right|by right]. }
        intros i p Hp. destruct (decide (i = N.to_nat (bucket_of bc k))) as [->|Hne].
        -- rewrite list_lookup_insert_eq in Hp by by eapply lookup_lt_Some.
           injection Hp as <-.
           eapply (bucket_ok_push s s' es (a, (k, v))); [by apply Hbk| |simpl; lia| |done].
           ++ simpl. intros Hin. apply (Hanode a); [apply Hnode; set_solver|done].
           ++ simpl. subst s'. rd.
        -- rewrite list_lookup_insert_ne in Hp by done.
           apply bucket_ok_other; [simpl; lia|].
           eapply bucket_ok_frame; [|by apply Hbk]. done.
    + intros e1 e2 [H1|H1%list_elem_of_singleton]%elem_of_app
        [H2|H2%list_elem_of_singleton]%elem_of_app Hne.
      * by apply Hkeys.
      * subst e2. simpl. by apply Hfresh.
      * subst e1. simpl. by apply Hfresh.
      * subst. done.
  - eapply unused_older; [exact Ha|]. intros ?. rd.
  - intros x Hx Hxa. subst s'.
    assert (x ≠ this ∧ x ≠ h ∧ x ≠ t ∧ x ≠ b ∧ x ∉ es.*1) as (? & ? & ? & ? & ?)
      by (unfold footprint in Hx; set_solver).
    assert (x ≠ l) by (intros ->; set_solver).
    lkne.
Qed.

Lemma insert_unfold this (value : Key * T) :
  insert this value =
  (idx ← get_bucket_index this value.1;
   existing ← find_in_bucket this value.1 idx;
   match existing with
   | Some _ => mret (mkIt existing this, false)
   | None =>
     ec ← get_element_count this; bc ← get_bucket_count this;
     idx ← (if exceeds_load (wrap (ec + 1)) bc
            then rehash this (wrap (bc * 2));; get_bucket_index this value.1
            else mret idx);
     insert_tail this value idx
   end).
Proof. reflexivity. Qed.

Section insert_laws.
Context {laws : KeyLaws Key}.

(** Inserting a key that is present changes nothing. *)
Lemma insert_existing_spec s this h t b es bc k v e :
  Rep s this h t b es bc → entry_of k es = Some e →
  insert (Some this) (k, v) s = Ret (mkIt (Some e.1) (Some this), false) s.
Proof.
  intros HR He. pose proof (rep_this _ _ _ _ _ _ _ HR) as Hthis.
  pose proof (rep_bc _ _ _ _ _ _ _ HR) as Hbc.
  rewrite insert_unfold. simpl.
  erewrite run_bind by (eapply get_bucket_index_spec; [done|simpl; lia]). msimpl.
  erewrite run_bind by (by eapply find_in_bucket_spec).
  rewrite He. done.
Qed.

(** Inserting a new key appends it to the order list, after doubling the
    bucket array if the load factor would be exceeded. *)
Lemma insert_new_spec s this h t b es bc k v :
  Rep s this h t b es bc → entry_of k es = None →
  (exceeds_load (N.of_nat (length es) + 1) bc = true → (bc < 2 ^ 63)%N) →
  ∃ a b' s',
    insert (Some this) (k, v) s = Ret (mkIt (Some a) (Some this), true) s' ∧
    Rep s' this h t b' (es ++ [(a, (k, v))]) (grown (length es) bc) ∧
    (exceeds_load (N.of_nat (length es) + 1) bc = false → b' = b) ∧
    frame (footprint this h t b es) s s' ∧
    (∀ x, x ∈ footprint this h t b' (es ++ [(a, (k, v))]) →
          x ∈ footprint this h t b es ∨ s !! x = None).
Proof.
  intros HR Hk Hbc63.
  pose proof HR as [Hthis _ _ _ Hbc Hload _ _].
  assert (Hfresh : ∀ e, e ∈ es → equal_func e.2.1 k = false ∧ equal_func k e.2.1 = false).
  { rewrite entry_of_None in Hk. intros e He. split; [by apply Hk|].
    rewrite equal_sym. by apply Hk. }
  assert (H64 : (2 ^ 64 = 2 * 2 ^ 63)%N) by done.
  rewrite insert_unfold. simpl.
  erewrite run_bind by (eapply get_bucket_index_spec; [done|simpl; lia]). msimpl.
  erewrite run_bind by (by eapply find_in_bucket_spec).
  rewrite Hk. simpl. mstep. mstep.
  rewrite wrap_small by lia. unfold grown.
  destruct (exceeds_load (N.of_nat (length es) + 1) bc) eqn:Hex.
  - specialize (Hbc63 eq_refl). apply N.ltb_lt in Hex. rewrite wrap_small by lia.
    destruct (rehash_spec s this h t b es bc (bc * 2)%N HR) as (b1 & s1 & E1 & HR1 & Hb1 & Hf1);
      [lia|lia|].
    erewrite run_bind.
    2:{ erewrite run_bind by exact E1.
        eapply get_bucket_index_spec; [by apply (rep_this _ _ _ _ _ _ _ HR1)|simpl; lia]. }
    simpl bucket_count.
    destruct (insert_tail_spec s1 this h t b1 es (bc * 2)%N k v HR1 Hfresh)
      as (a & s' & E & HR' & Ha & Hf'); [lia|].
    exists a, b1, s'. replace (2 * bc)%N with (bc * 2)%N by lia.
    split_and!; [done|done|done| |].
    + intros x Hx Hsome.
      assert (x ≠ b1) by (intros ->; destruct Hsome; congruence).
      assert (s1 !! x = s !! x) as Hx1 by by apply Hf1.
      rewrite <-Hx1. apply Hf'.
      * unfold footprint in *. set_solver.
      * intros ->. rewrite Ha in Hx1. destruct Hsome. congruence.
    + intros x Hx. destruct (decide (x ∈ footprint this h t b es)) as [|Hnin]; [by left|right].
      unfold footprint in Hx. rewrite fmap_app in Hx. simpl in Hx.
      assert (x = b1 ∨ x = a) as [->| ->]; [unfold footprint in Hnin; set_solver|done|].
      destruct (s !! a) eqn:Hsa; [|done].
      destruct (decide (a = b1)) as [->|]; [congruence|].
      rewrite <-Hf1, Ha in Hsa; done.
  - apply N.ltb_ge in Hex. mstep.
    destruct (insert_tail_spec s this h t b es bc k v HR Hfresh)
      as (a & s' & E & HR' & Ha & Hf'); [lia|].
    exists a, b, s'. split_and!; [done|done|done| |].
    + intros x Hx Hsome. apply Hf'; [done|]. intros ->. destruct Hsome. congruence.
    + intros x Hx. destruct (decide (x ∈ footprint this h t b es)) as [|Hnin]; [by left|right].
      unfold footprint in Hx. rewrite fmap_app in Hx. simpl in Hx.
      assert (x = a) as ->; [unfold footprint in Hnin; set_solver|done].
Qed.

End insert_laws.

(** ** erase *)

Lemma erase_loop_spec s a c1 c2 pp p q fuel :
  pp_read pp s = Ret p s →
  chain s p (c1 ++ a :: c2) q → a ∉ c1 →
  (length c1 < fuel)%nat →
  erase_loop fuel (Some a) pp s
  = Ret (match last c1 with Some l => NextInBucket (Some l) | None => pp end) s.
Proof.
  revert pp p fuel. induction c1 as [|y c1 IH]; intros pp p fuel Hpp Hc Ha Hf;
    (destruct fuel as [|fuel]; [simpl in Hf; lia|]); simpl.
  - apply chain_cons in Hc as (-> & _).
    rewrite (run_bind _ _ _ _ _ Hpp). simpl.
    by rewrite bool_decide_eq_false_2 by naive_solver.
  - apply chain_cons in Hc as (-> & p' & Hp' & Hc).
    rewrite (run_bind _ _ _ _ _ Hpp). simpl.
    assert (y ≠ a) by (intros ->; apply Ha; by left).
    rewrite bool_decide_eq_true_2 by congruence.
    rewrite (IH (NextInBucket (Some y)) p' fuel); [| |done| |simpl in Hf; lia].
    + rewrite last_cons. by destruct (last c1).
    + simpl. by apply run_get_next_in_bucket.
    + intros ?. apply Ha. by right.
Qed.

Lemma entries_remove es1 (e : entry) es2 :
  NoDup (es1 ++ e :: es2).*1 →
  ∀ e', e' ∈ es1 ++ es2 ↔ e' ∈ es1 ++ e :: es2 ∧ e'.1 ≠ e.1.
Proof.
  intros Hnd e'. rewrite fmap_app, fmap_cons in Hnd.
  apply NoDup_app in Hnd as (Hnd1 & Hdisj & Hnd2). apply NoDup_cons in Hnd2 as [He2 Hnd2].
  rewrite !elem_of_app, elem_of_cons. split.
  - intros [Hin|Hin]; (split; [tauto|]); intros Heq.
    + apply (Hdisj e'.1); [by apply list_elem_of_fmap_2|]. rewrite Heq. by left.
    + apply He2. rewrite <-Heq. by apply list_elem_of_fmap_2.
  - intros [[?|[->|?]] Hne]; tauto.
Qed.

Lemma bucket_ok_remove_other s s' es1 (e : entry) es2 bc i p :
  NoDup (es1 ++ e :: es2).*1 →
  bucket_of bc e.2.1 ≠ N.of_nat i →
  (∀ a kv, (a, kv) ∈ es1 ++ es2 → bucket_of bc kv.1 = N.of_nat i →
           fld next_in_bucket s' a = fld next_in_bucket s a) →
  bucket_ok s (es1 ++ e :: es2) bc i p → bucket_ok s' (es1 ++ es2) bc i p.
Proof.
  intros Hnd Hne Hf (c & Hc & Hcnd & Hin).
  assert (Hequiv : ∀ a, a ∈ c ↔ ∃ kv, (a, kv) ∈ es1 ++ es2 ∧ bucket_of bc kv.1 = N.of_nat i).
  { intros a. rewrite Hin. split; intros (kv & Hkv & Hb); exists kv; (split; [|done]).
    - apply (entries_remove _ _ _ Hnd). split; [done|]. simpl. intros Heq.
      assert ((a, kv) = e) as Hee.
      { apply (entry_fst_inj (es1 ++ e :: es2)); [done|done|set_solver|done]. }
      apply Hne. by rewrite <-Hee.
    - by apply (entries_remove _ _ _ Hnd) in Hkv as [? _]. }
  exists c. split_and!; [|done..].
  eapply chain_frame; [|done]. intros a Ha.
  apply Hequiv in Ha as (kv & ? & ?). by eapply Hf.
Qed.

Lemma bucket_ok_remove s' es1 (e : entry) es2 bc i p' (c1 c2 : list positive) :
  NoDup (es1 ++ e :: es2).*1 →
  (∀ a, a ∈ c1 ++ e.1 :: c2 ↔
        ∃ kv, (a, kv) ∈ es1 ++ e :: es2 ∧ bucket_of bc kv.1 = N.of_nat i) →
  NoDup (c1 ++ e.1 :: c2) →
  chain s' p' (c1 ++ c2) None →
  bucket_ok s' (es1 ++ es2) bc i p'.
Proof.
  intros Hnd Hin Hcnd Hc. exists (c1 ++ c2).
  apply NoDup_app in Hcnd as (Hnd1 & Hdisj & Hnd2). apply NoDup_cons in Hnd2 as [He2 Hnd2].
  split_and!; [done| |].
  - apply NoDup_app. split_and!; [done| |done]. intros a Ha ?. apply (Hdisj a Ha). by right.
  - intros a. split.
    + intros Ha.
      assert (a ≠ e.1).
      { intros ->. apply elem_of_app in Ha as [Ha|Ha]; [|done]. apply (Hdisj _ Ha). by left. }
      destruct (proj1 (Hin a)) as (kv & Hkv & Hb); [set_solver|].
      exists kv. split; [|done]. apply (entries_remove _ _ _ Hnd). by split.
    + intros (kv & Hkv & Hb). apply (entries_remove _ _ _ Hnd) in Hkv as [Hkv Hne].
      assert (a ∈ c1 ++ e.1 :: c2) as Ha by (apply Hin; by exists kv).
      rewrite elem_of_app, elem_of_cons in Ha. rewrite elem_of_app. simpl in Hne. tauto.
Qed.

(** Unlinking a live node from its collision chain: the part of [erase]
    between the computation of the bucket index and
    [remove_from_order_list], followed by any continuation. *)
Lemma erase_unlink_spec s this h t b es1 a kv es2 bc :
  Rep s this h t b (es1 ++ (a, kv) :: es2) bc →
  ∃ sc bs',
    (∀ A (rest : M A),
       (bucket_ptr ← with_fuel (λ fuel,
            erase_loop fuel (Some a) (Slot (Some b) (bucket_of bc kv.1)));
        cur ← pp_read bucket_ptr;
        (if bool_decide (cur ≠ None)
         then nib ← get_next_in_bucket (Some a); pp_write bucket_ptr nib
         else mret ());;
        rest) s = rest sc) ∧
    arr_at sc b = Some bs' ∧ length bs' = N.to_nat bc ∧
    (∀ i p, bs' !! i = Some p → bucket_ok sc (es1 ++ es2) bc i p) ∧
    (∀ x, map_at sc x = map_at s x) ∧
    (∀ x, fld prev sc x = fld prev s x ∧ fld next sc x = fld next s x ∧
          fld data sc x = fld data s x) ∧
    (∀ x, x ∉ footprint this h t b (es1 ++ (a, kv) :: es2) → sc !! x = s !! x).
Proof.
  intros HR.
  pose proof (Rep_entries_nodup _ _ _ _ _ _ _ HR) as Hndes.
  pose proof HR as [Hthis Hnd Hord Hdata Hbc Hload (bs & Hbs & Hlen & Hbk) Hkeys].
  set (es := es1 ++ (a, kv) :: es2) in *.
  set (idx := bucket_of bc kv.1).
  assert (Hain : (a, kv) ∈ es) by (subst es; set_solver).
  destruct (lookup_lt_is_Some_2 bs (N.to_nat idx)) as [p Hp];
    [rewrite Hlen; apply bucket_index_lt; lia|].
  destruct (Hbk _ _ Hp) as (c & Hc & Hcnd & Hcin).
  assert (Hac : a ∈ c) by (apply Hcin; exists kv; split; [done|]; subst idx; lia).
  apply list_elem_of_split in Hac as (c1 & c2 & ->).
  assert (Hac1 : a ∉ c1).
  { intros ?. apply NoDup_app in Hcnd as (_ & Hdisj & _). eapply Hdisj; [done|by left]. }
  assert (Hcnode : ∀ x, x ∈ c1 ++ a :: c2 → is_Some (node_at s x)).
  { intros x Hx. by eapply chain_is_node. }
  assert (Hces : ∀ x, x ∈ c1 ++ a :: c2 → x ∈ es.*1).
  { intros x (kv' & ? & _)%Hcin. apply list_elem_of_fmap. by exists (x, kv'). }
  assert (Hbnode : ∀ x, is_Some (node_at s x) → x ≠ b).
  { intros x Hx. eapply node_arr_ne; eauto. }
  assert (Hloop : erase_loop (S (base.size s)) (Some a) (Slot (Some b) idx) s
    = Ret (match last c1 with Some l => NextInBucket (Some l) | None => Slot (Some b) idx end) s).
  { eapply erase_loop_spec; [|done|done|].
    - simpl. by eapply run_array_get.
    - apply Nat.lt_succ_r. etrans; [|apply (length_le_size s (c1 ++ a :: c2))].
      + rewrite length_app. lia.
      + done.
      + intros x Hx. by apply node_allocated, Hcnode. }
  apply chain_app in Hc as (r0 & Hc1 & Hc2).
  apply chain_cons in Hc2 as (-> & r & Hr & Hc2).
  assert (Hother : ∀ s' i q, i ≠ N.to_nat idx → bs !! i = Some q →
             (∀ x, x ∉ c1 → fld next_in_bucket s' x = fld next_in_bucket s x) →
             bucket_ok s' (es1 ++ es2) bc i q).
  { intros s' i q Hi Hq Hf.
    eapply (bucket_ok_remove_other s s' es1 (a, kv) es2); [done| | |by apply Hbk].
    - simpl. fold idx. lia.
    - intros x kv' Hx Hb'. apply Hf. intros Hxc.
      destruct (proj1 (Hcin x)) as (kv'' & Hkv'' & Hb''); [set_solver|].
      assert ((x, kv') = (x, kv'')) as [= <-].
      { apply (entry_fst_inj es); [done| |done..].
        by apply (entries_remove _ _ _ Hndes) in Hx as [? _]. }
      lia. }
  destruct c1 as [|l c1' _] using rev_ind.
  - (* the node heads its chain: the array slot is redirected *)
    apply chain_nil in Hc1 as ->. simpl in Hloop.
    exists (set_arr (<[N.to_nat idx:=r]> bs) b s), (<[N.to_nat idx:=r]> bs).
    split_and!.
    + intros A rest. erewrite run_bind by (rewrite run_with_fuel; exact Hloop).
      simpl. erewrite run_bind by (by eapply run_array_get). simpl.
      erewrite run_bind; [done|]. mstep.
      eapply run_array_set; [done|by eapply lookup_lt_Some].
    + rd.
    + by rewrite length_insert.
    + intros i q Hq. destruct (decide (i = N.to_nat idx)) as [->|Hne].
      * rewrite list_lookup_insert_eq in Hq by by eapply lookup_lt_Some.
        injection Hq as <-.
        eapply (bucket_ok_remove _ es1 (a, kv) es2 bc _ _ [] c2); [done| |done|].
        -- intros x. rewrite Hcin. subst idx. by rewrite N2Nat.id.
        -- simpl. eapply chain_frame; [|done]. intros x _. by rewrite fld_set_arr.
      * rewrite list_lookup_insert_ne in Hq by done.
        apply Hother; [done..|]. intros x _. by rewrite fld_set_arr.
    + intros x. by rewrite map_at_set_arr.
    + intros x. by rewrite !fld_set_arr.
    + intros x Hx. apply set_arr_lookup_ne. unfold footprint in Hx. set_solver.
  - (* the node follows [l] in its chain: [l] is redirected *)
    rewrite last_snoc in Hloop.
    apply chain_app in Hc1 as (r1 & Hc1 & Hl).
    apply chain_cons in Hl as (-> & r2 & Hl & ->%chain_nil).
    assert (Hla : l ≠ a) by (intros ->; apply Hac1; set_solver).
    assert (Hnl : is_Some (node_at s l)) by by eapply fld_is_node.
    exists (upd_node (with_next_in_bucket r) l s), bs.
    assert (Hnib : ∀ x, x ≠ l →
              fld next_in_bucket (upd_node (with_next_in_bucket r) l s) x
              = fld next_in_bucket s x).
    { intros x ?. by rewrite fld_upd_ne. }
    pose proof Hcnd as Hcnd0.
    apply NoDup_app in Hcnd as (Hnd1 & Hdisj & Hnd2).
    apply NoDup_app in Hnd1 as (Hnd1 & Hdisj1 & _).
    apply NoDup_cons in Hnd2 as (Hac2 & Hnd2).
    split_and!.
    + intros A rest. erewrite run_bind by (rewrite run_with_fuel; exact Hloop).
      simpl. mstep. simpl. erewrite run_bind; [done|]. mstep. mlast.
    + rd.
    + done.
    + intros i q Hq. destruct (decide (i = N.to_nat idx)) as [->|Hne].
      * assert (q = p) as -> by congruence.
        eapply (bucket_ok_remove _ es1 (a, kv) es2 bc _ _ (c1' ++ [l]) c2); [done| | |].
        -- intros x. rewrite Hcin. subst idx. by rewrite N2Nat.id.
        -- exact Hcnd0.
        -- rewrite <-app_assoc. apply chain_app. exists (Some l). split.
           ++ eapply chain_frame; [|done]. intros x Hx. apply Hnib.
              intros ->. eapply Hdisj1; [done|by left].
           ++ apply chain_cons. split; [done|]. exists r. split; [rd|].
              eapply chain_frame; [|done]. intros x Hx. apply Hnib.
              intros ->. eapply (Hdisj l); [set_solver|by right].
      * apply Hother; [done..|]. intros x Hx. apply Hnib. intros ->. set_solver.
    + intros x. by rewrite map_at_upd.
    + intros x. by fsimp.
    + intros x Hx. apply upd_node_lookup_ne. intros ->. apply Hx.
      unfold footprint. apply elem_of_union. right. apply elem_of_list_to_set.
      apply Hces. set_solver.
Qed.

Lemma wrap_pred (n : N) : (0 < n < 2 ^ 64)%N → wrap (n + 2 ^ 64 - 1) = (n - 1)%N.
Proof.
  intros Hn. unfold wrap.
  replace (n + 2 ^ 64 - 1)%N with ((n - 1) + 1 * 2 ^ 64)%N by lia.
  rewrite N.Div0.mod_add. apply N.mod_small. lia.
Qed.

Lemma hd_ptr_Some (xs : list positive) (t : positive) :
  ∃ nx rest, xs ++ [t] = nx :: rest ∧ hd_ptr xs (Some t) = Some nx.
Proof. destruct xs as [|x xs]; simpl; eauto. Qed.

Lemma footprint_elem x this h t b es :
  x ∈ footprint this h t b es ↔ x = this ∨ x = h ∨ x = t ∨ x = b ∨ x ∈ es.*1.
Proof.
  unfold footprint.
  rewrite elem_of_union, elem_of_list_to_set, !elem_of_union, !elem_of_singleton. tauto.
Qed.
Lemma footprint_not_elem x this h t b es :
  x ∉ footprint this h t b es ↔ x ≠ this ∧ x ≠ h ∧ x ≠ t ∧ x ≠ b ∧ x ∉ es.*1.
Proof. rewrite footprint_elem. tauto. Qed.

Lemma erase_spec s this h t b es1 a kv es2 bc :
  Rep s this h t b (es1 ++ (a, kv) :: es2) bc →
  ∃ s',
    erase (Some this) (mkIt (Some a) (Some this)) s = Ret () s' ∧
    Rep s' this h t b (es1 ++ es2) bc ∧
    s' !! a = None ∧
    (∀ x, x ∉ footprint this h t b (es1 ++ (a, kv) :: es2) → s' !! x = s !! x).
Proof.
  intros HR.
  destruct (erase_unlink_spec _ _ _ _ _ _ _ _ _ _ HR)
    as (sc & bs' & Hrun & Hbs' & Hlen' & Hbk' & Hmapc & Hfldc & Hframec).
  destruct (Rep_ne _ _ _ _ _ _ _ HR) as (Hht & Hhes & Htes & Hndes).
  pose proof HR as [Hthis Hnd Hord Hdata Hbc Hload _ Hkeys].
  rewrite fmap_app, fmap_cons in Hord, Hnd, Hhes, Htes, Hndes. simpl in Hord, Hnd, Hhes, Htes, Hndes.
  assert (Hah : a ≠ h) by (intros ->; apply Hhes; set_solver).
  assert (Hat : a ≠ t) by (intros ->; apply Htes; set_solver).
  assert (Hda : fld data s a = Some (Some kv)) by (apply Hdata; set_solver).
  (* the neighbours of the node on the order list *)
  destruct (last_ptr_Some h es1.*1) as (pl & Hlast & Hpl).
  destruct (hd_ptr_Some es2.*1 t) as (nx & post & Hpost & Hnx).
  rewrite <-app_assoc in Hord, Hnd. simpl in Hord, Hnd.
  change (h :: es1.*1 ++ a :: es2.*1 ++ [t]) with ((h :: es1.*1) ++ a :: es2.*1 ++ [t])
    in Hord, Hnd.
  rewrite Hpost in Hord, Hnd.
  pose proof Hord as Hord0.
  apply dll_app in Hord as [Hpre Hmid]. rewrite last_ptr_cons, Hpl in Hmid.
  apply dll_cons in Hmid as (Hpa & Hna & Hpostd). simpl in Hna.
  pose proof Hnd as Hnd0.
  apply NoDup_app in Hnd as (Hndpre & Hdisj & Hndpost).
  apply NoDup_cons in Hndpost as [Hapost Hndpost].
  assert (Hplpre : pl ∈ h :: es1.*1) by by eapply last_Some_elem_of.
  assert (Hpla : pl ≠ a) by (intros ->; eapply Hdisj; [done|by left]).
  assert (Hnxa : nx ≠ a) by (intros ->; apply Hapost; by left).
  assert (Hplnx : pl ≠ nx) by (intros ->; eapply Hdisj; [done|right; by left]).
  assert (Hnode : ∀ x, x ∈ (h :: es1.*1) ++ a :: nx :: post → is_Some (node_at sc x)).
  { intros x Hx. pose proof (dll_is_node _ _ _ _ _ Hord0 Hx) as [n Hn].
    eapply (fld_is_node prev). destruct (Hfldc x) as (-> & _). by apply fld_node. }
  assert (Hnpl : is_Some (node_at sc pl)) by (apply Hnode; set_solver).
  assert (Hnnx : is_Some (node_at sc nx)) by (apply Hnode; set_solver).
  assert (Hna' : is_Some (node_at sc a)) by (apply Hnode; set_solver).
  assert (Hpac : fld prev sc a = Some (Some pl)) by (by destruct (Hfldc a) as (-> & _)).
  assert (Hnac : fld next sc a = Some (Some nx)) by (by destruct (Hfldc a) as (_ & -> & _)).
  assert (Hthisc : map_at sc this
                   = Some (mkMap (Some h) (Some t) (Some b) bc
                             (N.of_nat (length (es1 ++ (a, kv) :: es2)))))
    by by rewrite Hmapc.
  (* running the function *)
  unfold erase. msimpl.
  erewrite run_bind.
  2:{ rewrite decide_False by (by intros ?). mstep. rewrite decide_False by congruence.
      mstep. by rewrite decide_False by congruence. }
  msimpl. mstep. mstep.
  erewrite run_bind by (eapply get_bucket_index_spec; [done|simpl; lia]). msimpl.
  mstep. rewrite Hrun.
  erewrite run_bind.
  2:{ unfold remove_from_order_list. do 5 mstep. mlast. }
  msimpl. mstep. mstep. eexists. split; [mlast|].
  match goal with |- Rep ?S _ _ _ _ _ _ ∧ _ => set (s' := S) end.
  assert (Hold : ∀ {X} (f : Node Key T → X) x,
             x ≠ a → (x ≠ nx ∨ ∀ n y, f (with_prev y n) = f n) →
             (x ≠ pl ∨ ∀ n y, f (with_next y n) = f n) →
             fld f s' x = fld f sc x).
  { intros X f x Hxa Hxn Hxp. subst s'. rewrite fld_set_map, fld_delete_ne by done.
    destruct Hxn as [?|Hxn]; [rewrite fld_upd_ne by done|rewrite fld_upd_inv by (intros; apply Hxn)];
    (destruct Hxp as [?|Hxp]; [rewrite fld_upd_ne by done|rewrite fld_upd_inv by (intros; apply Hxp)]);
    done. }
  assert (Hlenes : length (es1 ++ (a, kv) :: es2) = S (length (es1 ++ es2))).
  { rewrite !length_app. simpl. lia. }
  split_and!.
  - split.
    + subst s'. rewrite map_at_set_eq by rd. rewrite wrap_pred by lia.
      do 2 f_equal. lia.
    + rewrite fmap_app, <-app_assoc.
      change (h :: es1.*1 ++ es2.*1 ++ [t]) with ((h :: es1.*1) ++ es2.*1 ++ [t]).
      rewrite Hpost. apply NoDup_app. split_and!; [done| |done].
      intros x Hx ?. eapply Hdisj; [done|by right].
    + rewrite fmap_app, <-app_assoc.
      change (h :: es1.*1 ++ es2.*1 ++ [t]) with ((h :: es1.*1) ++ es2.*1 ++ [t]).
      rewrite Hpost. apply dll_app. split.
      * simpl hd_ptr.
        eapply (dll_retarget s s' None (h :: es1.*1) (Some a) (Some nx) pl); try done.
        -- intros x Hx. rewrite Hold; [by destruct (Hfldc x) as (-> & _)| | |by right].
           ++ intros ->. eapply Hdisj; [done|by left].
           ++ left. intros ->. eapply Hdisj; [done|right; by left].
        -- intros x Hx Hxl. rewrite Hold; [by destruct (Hfldc x) as (_ & -> & _)| |by right|by left].
           intros ->. eapply Hdisj; [done|by left].
        -- subst s'. rd.
      * rewrite last_ptr_cons, Hpl.
        eapply (dll_reenter s s' (Some a) (Some pl) nx post None); [done| | |].
        -- subst s'. rd.
        -- rewrite Hold; [by destruct (Hfldc nx) as (_ & -> & _)|done|by right|by left].
        -- apply NoDup_cons in Hndpost as [Hnxpost _].
           intros x Hx.
           assert (x ≠ a) by (intros ->; apply Hapost; by right).
           assert (x ≠ nx) by (intros ->; done).
           assert (x ≠ pl) by (intros ->; eapply Hdisj; [done|right; by right]).
           rewrite !Hold by (done || by left). destruct (Hfldc x) as (-> & -> & _). done.
    + intros x kv' Hin.
      apply (entries_remove es1 (a, kv) es2) in Hin as [Hin Hne];
        [|by rewrite fmap_app, fmap_cons].
      rewrite Hold; [|done|by right|by right].
      destruct (Hfldc x) as (_ & _ & ->). by apply Hdata.
    + done.
    + lia.
    + exists bs'. split_and!; [subst s'; rd|done|].
      intros i p Hp. eapply bucket_ok_frame; [|by apply Hbk'].
      intros x Hx. apply Hold; [|by right|by right].
      intros ->. apply list_elem_of_fmap in Hx as ([x kv'] & Heq & Hin). simpl in Heq. subst x.
      apply (entries_remove es1 (a, kv) es2) in Hin as [_ Hne]; [done|].
      by rewrite fmap_app, fmap_cons.
    + intros e1 e2 H1 H2. apply Hkeys; set_solver.
  - subst s'. rewrite set_map_lookup_ne; [apply lookup_delete_eq|].
    intros ->. apply map_at_Some in Hthisc. destruct Hna' as [? ?%node_at_Some]. congruence.
  - intros x Hx. rewrite <-Hframec by done. subst s'.
    apply footprint_not_elem in Hx as (? & ? & ? & ? & Hxes).
    rewrite fmap_app, fmap_cons, elem_of_app, elem_of_cons in Hxes. simpl in Hxes.
    assert (x ≠ a) by tauto.
    assert (x ≠ pl).
    { intros ->. apply elem_of_cons in Hplpre as [?|?]; tauto. }
    assert (x ≠ nx).
    { intros ->. assert (nx ∈ es2.*1 ++ [t]) as Hin by (rewrite Hpost; by left).
      apply elem_of_app in Hin as [?|?%list_elem_of_singleton]; tauto. }
    lkne.
Qed.

End construction_and_update.

Section storage_accounting.

Context {Key T : Type} {KeyHash : Hash Key} {KeyEqual : Equal Key}
  {TDefault : DefaultConstructible T} {laws : KeyLaws Key}.

Implicit Types (s : gmap positive (object Key T)) (a x : positive).
Implicit Types (es : list (positive * (Key * T))).
Abbreviation entry := (positive * (Key * T))%type (only parsing).

(** ** Storage accounting *)

Lemma spends_bind {A B} n p m (c : M A) (k : A → M B) :
  spends (Key:=Key) (T:=T) n p c → (∀ r, spends (Key:=Key) (T:=T) p m (k r)) →
  spends (Key:=Key) (T:=T) n m (c ≫= k).
Proof.
  intros Hc Hk s r s' E. unfold mbind, M_bind in E.
  destruct (c s) as [r1 s1| | |] eqn:Ec; try done.
  pose proof (Hc _ _ _ Ec). pose proof (Hk _ _ _ _ E). lia.
Qed.
Lemma spends_weaken {A} n m n' m' (c : M A) :
  spends (Key:=Key) (T:=T) n m c → (n + m' ≤ n' + m)%nat →
  spends (Key:=Key) (T:=T) n' m' c.
Proof. intros Hc Hle s r s' E. pose proof (Hc _ _ _ E). lia. Qed.
Lemma spends_drop {A} n m (c : M A) :
  spends (Key:=Key) (T:=T) n n c → (m ≤ n)%nat → spends (Key:=Key) (T:=T) n m c.
Proof. intros Hc Hle. eapply spends_weaken; [done|lia]. Qed.
Lemma spends_ret {A} n (r : A) : spends (Key:=Key) (T:=T) n n (mret r).
Proof. intros s r' s' [= _ <-]. lia. Qed.
Lemma spends_fault {A} n : spends (Key:=Key) (T:=T) n n (fault : M A).
Proof. by intros s r s' E. Qed.
Lemma spends_timeout {A} n : spends (Key:=Key) (T:=T) n n (timeout : M A).
Proof. by intros s r s' E. Qed.
Lemma spends_throw {A} n e : spends (Key:=Key) (T:=T) n n (throw e : M A).
Proof. by intros s r s' E. Qed.
Lemma spends_load n p : spends (Key:=Key) (T:=T) n n (load p).
Proof.
  intros s r s' E. unfold load in E. repeat case_match; simplify_eq. lia.
Qed.
Lemma spends_update n p (o : object Key T) : spends (Key:=Key) (T:=T) n n (update p o).
Proof.
  intros s r s' E. unfold update in E. repeat case_match; simplify_eq.
  rewrite map_size_insert_Some by eauto. lia.
Qed.
Lemma spends_alloc m (o : object Key T) : spends (Key:=Key) (T:=T) (S m) m (alloc o).
Proof.
  intros s r s' E. unfold alloc in E. simplify_eq.
  rewrite map_size_insert_None by apply fresh_unused. lia.
Qed.
Lemma spends_dealloc m p : spends (Key:=Key) (T:=T) m (S m) (dealloc p).
Proof.
  intros s r s' E. unfold dealloc in E. repeat case_match; simplify_eq.
  rewrite map_size_delete_Some by eauto.
  assert (base.size s ≠ 0%nat) by (eapply map_size_ne_0_lookup_2; eauto). lia.
Qed.
Lemma spends_with_fuel {A} n m (f : nat → M A) :
  (∀ fuel, spends (Key:=Key) (T:=T) n m (f fuel)) →
  spends (Key:=Key) (T:=T) n m (with_fuel f).
Proof. intros Hf s r s' E. by eapply Hf. Qed.
Lemma spends_for_range n cnt i body :
  (∀ j, spends (Key:=Key) (T:=T) n n (body j)) →
  spends (Key:=Key) (T:=T) n n (for_range cnt i body).
Proof.
  intros Hb. revert i. induction cnt as [|cnt IH]; intros i; simpl.
  - apply spends_ret.
  - eapply spends_bind; [done|]. intros _. apply IH.
Qed.

(** Account for a computation statement by statement; [known] closes the
    calls of functions accounted for before. *)
Ltac spend_leaf known :=
  first
    [ known
    | apply spends_ret | apply spends_fault | apply spends_timeout | apply spends_throw
    | apply spends_load | apply spends_update | apply spends_alloc | apply spends_dealloc ].

Ltac spend_step known :=
  lazymatch goal with
  | |- spends _ _ (mbind _ _) => eapply spends_bind; [|intros ?]
  | |- spends _ _ (with_fuel _) => apply spends_with_fuel; intros ?
  | |- spends _ _ (for_range _ _ _) => apply spends_for_range; intros ?
  | |- spends _ _ (match ?x with _ => _ end) => destruct x
  | |- spends _ _ (if ?x then _ else _) => destruct x
  | |- spends _ _ _ =>
    first [ spend_leaf known | apply spends_drop; [spend_leaf known|lia] ]
  end.

Ltac spend known :=
  unfold get_data, get_next_in_bucket, get_prev, get_next,
    set_data, set_next_in_bucket, set_prev, set_next, get_head, get_tail, get_buckets,
    get_bucket_count, get_element_count, set_head, set_tail, set_buckets, set_bucket_count,
    set_element_count, array_get, array_set, deref, new_Node, new_Node_val, new_array,
    pp_read, pp_write;
  unfold get_next_in_bucket, set_next_in_bucket, array_get, array_set;
  unfold load_node, load_map, load_array;
  repeat (spend_step known).

Lemma spends_find_in_bucket_loop n fuel k nd :
  spends (Key:=Key) (T:=T) n n (find_in_bucket_loop fuel k nd).
Proof.
  revert nd. induction fuel as [|fuel IH]; intros nd; simpl; spend ltac:(apply IH).
Qed.

Lemma spends_find_in_bucket n this k idx :
  spends (Key:=Key) (T:=T) n n (find_in_bucket this k idx).
Proof. unfold find_in_bucket. spend ltac:(apply spends_find_in_bucket_loop). Qed.

Lemma spends_get_bucket_index n this k :
  spends (Key:=Key) (T:=T) n n (get_bucket_index this k).
Proof. unfold get_bucket_index. spend fail. Qed.

Lemma spends_rehash_loop n fuel this nbc nb nd :
  spends (Key:=Key) (T:=T) n n (rehash_loop fuel this nbc nb nd).
Proof.
  revert nd. induction fuel as [|fuel IH]; intros nd; simpl; spend ltac:(apply IH).
Qed.

(** [rehash] allocates the new array before it frees the old one. *)
Lemma spends_rehash n this nbc : spends (Key:=Key) (T:=T) (S n) (S n) (rehash this nbc).
Proof. unfold rehash. spend ltac:(apply spends_rehash_loop). Qed.

(** [insert] leaves at most one object more than it found. *)
Lemma spends_insert n this v : spends (Key:=Key) (T:=T) (S n) n (insert this v).
Proof.
  unfold insert, insert_to_order_list.
  spend ltac:(first [apply spends_find_in_bucket | apply spends_get_bucket_index
                    | apply spends_rehash]).
Qed.

Lemma spends_operator_index n this k :
  spends (Key:=Key) (T:=T) (S n) n (operator_index this k).
Proof.
  unfold operator_index.
  spend ltac:(first [apply spends_find_in_bucket | apply spends_get_bucket_index
                    | apply spends_insert]).
Qed.

Lemma spends_init_sentinels n this :
  spends (Key:=Key) (T:=T) (S (S n)) n (init_sentinels this).
Proof. unfold init_sentinels. spend fail. Qed.

Lemma spends_init_buckets n this count :
  spends (Key:=Key) (T:=T) (S n) n (init_buckets this count).
Proof. unfold init_buckets. spend fail. Qed.

End storage_accounting.

(** ** Clearing and copying *)

Section clearing_and_copying.

Context {Key T : Type} {KeyHash : Hash Key} {KeyEqual : Equal Key}
  {TDefault : DefaultConstructible T}.

Implicit Types (s : gmap positive (object Key T)) (n : Node Key T) (a x : positive).
Implicit Types (m : linked_hashmap) (es : list (positive * (Key * T))).
Abbreviation entry := (positive * (Key * T))%type (only parsing).
Local Arguments dll : simpl never.
Local Arguments chain : simpl never.

(** ** clear and clear_all *)

Lemma delete_nodes_loop_spec s this m t (xs : list positive) p fuel :
  map_at s this = Some m → tail m = Some t →
  dll s p xs (Some t) → t ∉ xs → NoDup xs →
  (length xs < fuel)%nat →
  ∃ s',
    delete_nodes_loop fuel (Some this) (hd_ptr xs (Some t)) s = Ret () s' ∧
    (∀ x, x ∈ xs → s' !! x = None) ∧ (∀ x, x ∉ xs → s' !! x = s !! x).
Proof.
  intros Hm Ht. revert s p fuel Hm.
  induction xs as [|a xs IH]; intros s p fuel Hm Hd Hnt Hnd Hf;
    (destruct fuel as [|fuel]; [simpl in Hf; lia|]); simpl.
  - mstep. rewrite Ht, decide_True by done. exists s. split_and!; [done| |done].
    by intros x ?%elem_of_nil.
  - apply dll_cons in Hd as (Hp & Hn & Hd). apply NoDup_cons in Hnd as [Ha Hnd].
    assert (Hat : a ≠ t) by (intros ->; apply Hnt; by left).
    mstep. rewrite Ht, decide_False by congruence. mstep. mstep.
    destruct (IH (delete a s) (Some a) fuel) as (s' & E & Hgone & Hkeep).
    + rd.
    + eapply dll_frame; [|done]. intros x Hx.
      assert (x ≠ a) by (intros ->; done). by fsimp.
    + intros ?. apply Hnt. by right.
    + done.
    + simpl in Hf. lia.
    + exists s'. split_and!; [done| |].
      * intros x [->|Hx]%elem_of_cons; [|by apply Hgone].
        rewrite Hkeep by done. apply lookup_delete_eq.
      * intros x Hx. rewrite Hkeep by (intros ?; apply Hx; by right).
        apply lookup_delete_ne. intros ->. apply Hx. by left.
Qed.

Lemma clear_spec s this h t b es bc :
  Rep s this h t b es bc →
  ∃ s',
    clear (Some this) s = Ret () s' ∧
    Rep s' this h t b [] bc ∧
    (∀ x, x ∈ es.*1 → s' !! x = None) ∧
    (∀ x, x ∉ footprint this h t b es → s' !! x = s !! x).
Proof.
  intros HR.
  destruct (Rep_order _ _ _ _ _ _ _ HR) as (Hhp & Hhn & Hd & Htp & Htn).
  destruct (Rep_ne _ _ _ _ _ _ _ HR) as (Hht & Hhes & Htes & Hndes).
  pose proof HR as [Hthis Hnd Hord Hdata Hbc Hload (bs & Hbs & Hlen & Hbk) Hkeys].
  destruct (delete_nodes_loop_spec s this _ t es.*1 (Some h) (S (base.size s)) Hthis eq_refl Hd Htes Hndes)
    as (s1 & E1 & Hgone & Hkeep).
  { apply Nat.lt_succ_r, length_le_size; [done|].
    intros a Ha. apply node_allocated. by apply (dll_is_node _ _ _ _ _ Hd). }
  assert (Hthis1 : map_at s1 this = Some (mkMap (Some h) (Some t) (Some b) bc (N.of_nat (length es)))).
  { unfold map_at. rewrite Hkeep; [by apply map_at_Some in Hthis as ->|]. intros Hin.
    apply (node_map_ne s this this); [by apply (dll_is_node _ _ _ _ _ Hd)|eauto|done]. }
  assert (Hk1 : ∀ {X} (f : Node Key T → X) x, x ∉ es.*1 → fld f s1 x = fld f s x).
  { intros X f x Hx. apply fld_ext. by apply Hkeep. }
  assert (Hbs1 : arr_at s1 b = Some bs).
  { unfold arr_at. rewrite Hkeep; [by apply arr_at_Some in Hbs as ->|]. intros Hin.
    apply (node_arr_ne s b b); [by apply (dll_is_node _ _ _ _ _ Hd)|eauto|done]. }
  assert (Hnh : is_Some (node_at s1 h)) by (eapply (fld_is_node prev); by rewrite Hk1).
  assert (Hnt : is_Some (node_at s1 t)) by (eapply (fld_is_node prev); by rewrite Hk1).
  unfold clear. mstep. mstep.
  erewrite run_bind by (rewrite run_with_fuel; exact E1). msimpl.
  do 7 mstep.
  erewrite run_bind by (eapply for_range_reset_len; [rd|done|rd|lia]). msimpl.
  eexists. split; [mlast|].
  match goal with |- Rep ?S _ _ _ _ _ _ ∧ _ => set (s' := S) end.
  split_and!.
  - split.
    + subst s'. rd.
    + apply NoDup_cons. split; [|apply NoDup_singleton]. by intros ->%list_elem_of_singleton.
    + simpl. rewrite !dll_cons. simpl. split_and!; try done; subst s'; try rd.
      * fsimp. by rewrite Hk1.
      * fsimp. by rewrite Hk1.
    + by intros a kv ?%elem_of_nil.
    + done.
    + simpl. lia.
    + eexists. split_and!; [subst s'; rd|by rewrite length_replicate|].
      intros i p [-> _]%lookup_replicate. apply bucket_ok_empty.
    + by intros e1 e2 ?%elem_of_nil.
  - intros x Hx. subst s'.
    assert (is_Some (node_at s x)) as Hnx by by apply (dll_is_node _ _ _ _ _ Hd).
    assert (x ≠ this) by (eapply node_map_ne; eauto).
    assert (x ≠ b) by (eapply node_arr_ne; eauto).
    assert (x ≠ h) by (intros ->; done).
    assert (x ≠ t) by (intros ->; done).
    lkne. by apply Hgone.
  - intros x Hx. apply footprint_not_elem in Hx as (? & ? & ? & ? & ?). subst s'.
    lkne. by apply Hkeep.
Qed.

Lemma clear_all_spec s this h t b es bc :
  Rep s this h t b es bc →
  ∃ s',
    clear_all (Some this) s = Ret () s' ∧
    map_at s' this = map_at s this ∧
    (∀ x, x ∈ footprint this h t b es → x ≠ this → s' !! x = None) ∧
    (∀ x, x ∉ footprint this h t b es → s' !! x = s !! x).
Proof.
  intros HR.
  destruct (Rep_order _ _ _ _ _ _ _ HR) as (Hhp & Hhn & Hd & Htp & Htn).
  destruct (Rep_ne _ _ _ _ _ _ _ HR) as (Hht & Hhes & Htes & Hndes).
  pose proof HR as [Hthis Hnd Hord Hdata Hbc Hload (bs & Hbs & Hlen & Hbk) Hkeys].
  destruct (delete_nodes_loop_spec s this _ t es.*1 (Some h) (S (base.size s)) Hthis eq_refl Hd Htes Hndes)
    as (s1 & E1 & Hgone & Hkeep).
  { apply Nat.lt_succ_r, length_le_size; [done|].
    intros a Ha. apply node_allocated. by apply (dll_is_node _ _ _ _ _ Hd). }
  assert (Hthis1 : map_at s1 this = Some (mkMap (Some h) (Some t) (Some b) bc (N.of_nat (length es)))).
  { unfold map_at. rewrite Hkeep; [by apply map_at_Some in Hthis as ->|]. intros Hin.
    apply (node_map_ne s this this); [by apply (dll_is_node _ _ _ _ _ Hd)|eauto|done]. }
  assert (Hk1 : ∀ {X} (f : Node Key T → X) x, x ∉ es.*1 → fld f s1 x = fld f s x).
  { intros X f x Hx. apply fld_ext. by apply Hkeep. }
  assert (Hbs1 : arr_at s1 b = Some bs).
  { unfold arr_at. rewrite Hkeep; [by apply arr_at_Some in Hbs as ->|]. intros Hin.
    apply (node_arr_ne s b b); [by apply (dll_is_node _ _ _ _ _ Hd)|eauto|done]. }
  assert (Hnh : is_Some (node_at s1 h)) by (eapply (fld_is_node prev); by rewrite Hk1).
  assert (Hnt : is_Some (node_at s1 t)) by (eapply (fld_is_node prev); by rewrite Hk1).
  assert (this ≠ h) by (apply not_eq_sym; eapply node_map_ne; eauto).
  assert (this ≠ t) by (apply not_eq_sym; eapply node_map_ne; eauto).
  assert (this ≠ b) by (eapply map_arr_ne; eauto).
  assert (h ≠ b) by (eapply node_arr_ne; eauto).
  assert (t ≠ b) by (eapply node_arr_ne; eauto).
  unfold clear_all. mstep. mstep.
  erewrite run_bind by (rewrite run_with_fuel; exact E1). msimpl.
  do 5 mstep. eexists. split; [mlast|].
  split_and!.
  - fsimp. by rewrite Hthis1.
  - intros x [->|[->|[->|[->|Hx]]]]%footprint_elem Hxt; try done.
    + rewrite lookup_delete_ne, lookup_delete_ne by done. apply lookup_delete_eq.
    + rewrite lookup_delete_ne by done. apply lookup_delete_eq.
    + apply lookup_delete_eq.
    + assert (is_Some (node_at s x)) as Hnx by by apply (dll_is_node _ _ _ _ _ Hd).
      assert (x ≠ b) by (eapply node_arr_ne; eauto).
      assert (x ≠ h) by (intros ->; done).
      assert (x ≠ t) by (intros ->; done).
      lkne. by apply Hgone.
  - intros x Hx. apply footprint_not_elem in Hx as (? & ? & ? & ? & ?).
    lkne. by apply Hkeep.
Qed.

(** ** Framing *)

Lemma frame_refl F s : frame F s s.
Proof. by intros x _ _. Qed.

Lemma frame_trans (F F' : gset positive) s s' s'' :
  frame F s s' → frame F' s' s'' →
  (∀ x, x ∈ F' → x ∈ F ∨ s !! x = None) →
  frame F s s''.
Proof.
  intros H1 H2 Hsub x Hx Hsome. rewrite <-H1 by done. apply H2.
  - intros Hx'. destruct (Hsub x Hx') as [?|E]; [done|]. destruct Hsome. congruence.
  - by rewrite H1.
Qed.

(** A container is untouched by anything that respects the frame of a
    disjoint set of addresses. *)
Lemma Rep_framed (F : gset positive) s s' this h t b es bc :
  Rep s this h t b es bc → frame F s s' →
  (∀ x, x ∈ footprint this h t b es → x ∉ F) →
  Rep s' this h t b es bc.
Proof.
  intros HR Hf Hdisj. eapply Rep_frame; [done|].
  intros x Hx. apply Hf; [by apply Hdisj|by eapply Rep_allocated].
Qed.

Lemma Rep_empty s this h t b bc :
  map_at s this = Some (mkMap (Some h) (Some t) (Some b) bc 0) →
  h ≠ t → dll s None [h; t] None →
  arr_at s b = Some (replicate (N.to_nat bc) None) →
  (0 < bc < 2 ^ 64)%N →
  Rep s this h t b [] bc.
Proof.
  intros Hm Hht Hd Hb Hbc. split.
  - done.
  - apply NoDup_cons. split; [|apply NoDup_singleton]. by intros ->%list_elem_of_singleton.
  - done.
  - by intros a kv ?%elem_of_nil.
  - done.
  - simpl. lia.
  - eexists. split_and!; [done|by rewrite length_replicate|].
    intros i p [-> _]%lookup_replicate. apply bucket_ok_empty.
  - by intros e1 e2 ?%elem_of_nil.
Qed.

(** ** deep_copy *)

Section copy_laws.
Context {laws : KeyLaws Key}.

Lemma deep_copy_loop_tight s this h t b es other ho to bo bco done_ todo bc fuel :
  Rep s this h t b es bc →
  Rep s other ho to bo (done_ ++ todo) bco →
  (∀ x, x ∈ footprint this h t b es → x ∉ footprint other ho to bo (done_ ++ todo)) →
  es.*2 = done_.*2 →
  (4 * N.of_nat (length es + length todo) ≤ 3 * bc)%N →
  (length todo < fuel)%nat →
  ∃ es' s',
    deep_copy_loop fuel (Some this) (Some other) (hd_ptr todo.*1 (Some to)) s = Ret () s' ∧
    Rep s' this h t b es' bc ∧ es'.*2 = (done_ ++ todo).*2 ∧
    Rep s' other ho to bo (done_ ++ todo) bco ∧
    (∀ x, x ∈ footprint this h t b es' → x ∉ footprint other ho to bo (done_ ++ todo)) ∧
    frame (footprint this h t b es) s s' ∧
    (∀ x, x ∈ footprint this h t b es' → x ∈ footprint this h t b es ∨ s !! x = None) ∧
    (base.size s' ≤ base.size s + length todo)%nat.
Proof.
  revert s es done_ fuel.
  induction todo as [|e todo IH]; intros s es done_ fuel HR HRo Hdisj Hes Hroom Hf;
    (destruct fuel as [|fuel]; [simpl in Hf; lia|]); simpl.
  - pose proof (rep_this _ _ _ _ _ _ _ HRo) as Hthiso.
    mstep. rewrite decide_True by done. exists es, s. rewrite app_nil_r in *.
    split_and!; try done; [intros x ?; by left|simpl; lia].
  - pose proof (rep_this _ _ _ _ _ _ _ HRo) as Hthiso.
    destruct (Rep_order _ _ _ _ _ _ _ HRo) as (_ & _ & Hd & _).
    destruct (Rep_ne _ _ _ _ _ _ _ HRo) as (_ & _ & Htes & Hndes).
    rewrite fmap_app, fmap_cons in Hd, Htes, Hndes.
    apply dll_app in Hd as [_ Hd]. apply dll_cons in Hd as (_ & Hnext & _).
    assert (Heto : e.1 ≠ to) by (intros E; apply Htes; rewrite <-E; set_solver).
    assert (Hdata : fld data s e.1 = Some (Some e.2)).
    { apply (rep_data _ _ _ _ _ _ _ HRo). destruct e. set_solver. }
    mstep. rewrite decide_False by congruence. mstep. mstep.
    assert (Hk : entry_of e.2.1 es = None).
    { apply entry_of_None. intros e' He'.
      assert (e'.2 ∈ done_.*2) as Hin by (rewrite <-Hes; by apply list_elem_of_fmap_2).
      apply list_elem_of_fmap in Hin as (d & Hd2 & Hdin). rewrite Hd2.
      apply (rep_keys _ _ _ _ _ _ _ HRo); [set_solver|set_solver|].
      intros Heq. apply NoDup_app in Hndes as (_ & Hdj & _).
      apply (Hdj d.1); [by apply list_elem_of_fmap_2|]. rewrite Heq. by left. }
    assert (Hnex : exceeds_load (N.of_nat (length es) + 1) bc = false).
    { apply N.ltb_ge. simpl in Hroom. lia. }
    destruct e as [ao kv]. simpl in *.
    destruct (insert_new_spec s this h t b es bc kv.1 kv.2 HR Hk) as (a & b' & s1 & E & HR1 & Hb' & Hfr & Hnew);
      [by rewrite Hnex|].
    rewrite (Hb' Hnex) in *. unfold grown in HR1. rewrite Hnex in HR1.
    replace (kv.1, kv.2) with kv in * by by destruct kv.
    erewrite run_bind by exact E. msimpl.
    assert (Hallo : ∀ x, x ∈ footprint other ho to bo (done_ ++ (ao, kv) :: todo) →
                         s1 !! x = s !! x).
    { intros x Hx. apply Hfr; [|by eapply Rep_allocated].
      intros Hx'. by apply (Hdisj x). }
    assert (HRo1 : Rep s1 other ho to bo (done_ ++ (ao, kv) :: todo) bco).
    { eapply Rep_frame; done. }
    assert (Hdisj1 : ∀ x, x ∈ footprint this h t b (es ++ [(a, kv)]) →
                          x ∉ footprint other ho to bo (done_ ++ (ao, kv) :: todo)).
    { intros x [Hx|Hx]%Hnew; [by apply Hdisj|].
      intros Hxo. destruct (Rep_allocated _ _ _ _ _ _ _ _ HRo Hxo). congruence. }
    erewrite run_bind.
    2:{ eapply run_get_next. rewrite (fld_ext next s s1); [done|].
        apply Hallo, footprint_elem. do 4 right. rewrite fmap_app. set_solver. }
    msimpl.
    destruct (IH s1 (es ++ [(a, kv)]) (done_ ++ [(ao, kv)]) fuel)
      as (es' & s' & E' & HR' & Hes' & HRo' & Hdisj' & Hfr' & Hnew' & Hcnt').
    + done.
    + by rewrite <-app_assoc.
    + rewrite <-app_assoc. done.
    + rewrite !fmap_app, Hes. done.
    + rewrite length_app. simpl. simpl in Hroom. lia.
    + simpl in Hf. lia.
    + rewrite <-app_assoc in *. simpl in *.
      exists es', s'. split_and!; try done.
      * eapply frame_trans; done.
      * intros x [Hx|Hx]%Hnew'; [by apply Hnew|].
        destruct (decide (x ∈ footprint this h t b es)) as [|Hnin]; [by left|right].
        destruct (s !! x) eqn:Hsx; [|done].
        rewrite Hfr in Hx; [congruence|done|eauto].
      * pose proof (spends_insert 0 _ _ _ _ _ E). lia.
Qed.

Lemma deep_copy_loop_spec s this h t b es other ho to bo bco done_ todo bc fuel :
  Rep s this h t b es bc →
  Rep s other ho to bo (done_ ++ todo) bco →
  (∀ x, x ∈ footprint this h t b es → x ∉ footprint other ho to bo (done_ ++ todo)) →
  es.*2 = done_.*2 →
  (4 * N.of_nat (length es + length todo) ≤ 3 * bc)%N →
  (length todo < fuel)%nat →
  ∃ es' s',
    deep_copy_loop fuel (Some this) (Some other) (hd_ptr todo.*1 (Some to)) s = Ret () s' ∧
    Rep s' this h t b es' bc ∧ es'.*2 = (done_ ++ todo).*2 ∧
    Rep s' other ho to bo (done_ ++ todo) bco ∧
    (∀ x, x ∈ footprint this h t b es' → x ∉ footprint other ho to bo (done_ ++ todo)) ∧
    frame (footprint this h t b es) s s' ∧
    (∀ x, x ∈ footprint this h t b es' → x ∈ footprint this h t b es ∨ s !! x = None).
Proof.
  intros HR HRo Hdisj Hes Hroom Hf.
  destruct (deep_copy_loop_tight s this h t b es other ho to bo bco done_ todo bc fuel
              HR HRo Hdisj Hes Hroom Hf)
    as (es' & s' & E & HR' & Hes' & HRo' & Hdisj' & Hfr & Hnew & _).
  by exists es', s'.
Qed.

Lemma deep_copy_tight s this m other ho to bo eso bc :
  map_at s this = Some m → this ≠ other →
  Rep s other ho to bo eso bc →
  ∃ h t b es s',
    deep_copy (Some this) (Some other) s = Ret () s' ∧
    Rep s' this h t b es bc ∧ es.*2 = eso.*2 ∧
    Rep s' other ho to bo eso bc ∧
    (∀ x, x ∈ footprint this h t b es → x ∉ footprint other ho to bo eso) ∧
    frame {[this]} s s' ∧
    (∀ x, x ∈ footprint this h t b es → x = this ∨ s !! x = None) ∧
    (base.size s' ≤ base.size s + 3 + length eso)%nat.
Proof.
  intros Hm Hne HRo.
  pose proof (rep_this _ _ _ _ _ _ _ HRo) as Hthiso.
  pose proof (rep_bc _ _ _ _ _ _ _ HRo) as Hbc.
  destruct (Rep_order _ _ _ _ _ _ _ HRo) as (_ & Hhn & Hd & _).
  destruct (Rep_ne _ _ _ _ _ _ _ HRo) as (_ & _ & _ & Hndes).
  assert (Hthiso' : this ∉ footprint other ho to bo eso).
  { intros Hin. assert (is_Some (s !! this)) as _ by (apply map_allocated; eauto).
    apply footprint_elem in Hin as [?|Hin]; [done|].
    pose proof HRo as [_ _ Hord _ _ _ (bs & Hbs & _) _].
    assert (is_Some (node_at s this) ∨ is_Some (arr_at s this)) as [Hn|Hn].
    { destruct Hin as [->|[->|[->|Hin]]].
      - left. eapply dll_is_node; [done|]. set_solver.
      - left. eapply dll_is_node; [done|]. set_solver.
      - right. eauto.
      - left. eapply dll_is_node; [done|]. set_solver. }
    - apply (node_map_ne s this this); eauto.
    - apply (map_arr_ne s this this); eauto. }
  unfold deep_copy.
  destruct (init_sentinels_spec s this m Hm) as (h & t & s1 & E1 & Hht & Hh & Ht & Hm1 & Hd1 & Hf1).
  erewrite run_bind by exact E1. msimpl.
  assert (Hoh : other ≠ h) by (intros <-; apply map_at_Some in Hthiso; congruence).
  assert (Hot : other ≠ t) by (intros <-; apply map_at_Some in Hthiso; congruence).
  assert (Hthiso1 : map_at s1 other = map_at s other).
  { unfold map_at. by rewrite Hf1. }
  erewrite run_bind by (eapply run_get_bucket_count; by rewrite Hthiso1). msimpl.
  destruct (init_buckets_spec s1 this _ bc Hm1) as (b & s2 & E2 & Hb & Hm2 & Ha2 & Hf2).
  erewrite run_bind by exact E2. msimpl. simpl in Hm2.
  assert (Hbthis : b ≠ this) by (intros ->; apply map_at_Some in Hm1; congruence).
  assert (Hnh : is_Some (node_at s1 h)) by (apply dll_cons in Hd1 as (? & _); by eapply fld_is_node).
  assert (Hnt : is_Some (node_at s1 t)).
  { apply dll_cons in Hd1 as (_ & _ & Hd1). apply dll_cons in Hd1 as (? & _). by eapply fld_is_node. }
  assert (Hbh : b ≠ h) by (apply (unused_ne _ _ _ Hb); by apply node_allocated).
  assert (Hbt : b ≠ t) by (apply (unused_ne _ _ _ Hb); by apply node_allocated).
  assert (Hthish : this ≠ h) by (apply not_eq_sym; eapply node_map_ne; eauto).
  assert (Hthist : this ≠ t) by (apply not_eq_sym; eapply node_map_ne; eauto).
  assert (Hbs : s !! b = None) by (rewrite <-Hf1 by done; done).
  mstep.
  match goal with |- context [mbind _ _ ?S] => set (s3 := S) end.
  assert (Hs3 : ∀ x, x ≠ this → x ≠ h → x ≠ t → x ≠ b → s3 !! x = s !! x).
  { intros x ? ? ? ?. subst s3. rewrite set_map_lookup_ne by done.
    rewrite Hf2, Hf1 by done. done. }
  assert (Hfresh : ∀ x, is_Some (s !! x) → x ≠ h ∧ x ≠ t ∧ x ≠ b).
  { intros x [o Ho]. split_and!; intros ->; congruence. }
  assert (Hodis : ∀ x, x ∈ footprint other ho to bo eso → s3 !! x = s !! x).
  { intros x Hx. destruct (Hfresh x) as (? & ? & ?); [by eapply Rep_allocated|].
    apply Hs3; try done. by intros ->. }
  assert (HRo3 : Rep s3 other ho to bo eso bc) by (eapply Rep_frame; done).
  assert (HR3 : Rep s3 this h t b [] bc).
  { apply Rep_empty; [subst s3; rd|done| |subst s3; rd|done].
    eapply dll_frame; [|exact Hd1]. intros x Hx. unfold fld, node_at. subst s3.
    rewrite set_map_lookup_ne, Hf2; [done| | |]; set_solver. }
  destruct (Rep_order _ _ _ _ _ _ _ HRo3) as (_ & Hhn3 & _).
  erewrite run_bind by (eapply run_get_head; by apply (rep_this _ _ _ _ _ _ _ HRo3)). msimpl.
  mstep.
  destruct (deep_copy_loop_tight s3 this h t b [] other ho to bo bc [] eso bc (S (base.size s3)))
    as (es & s' & E & HR' & Hes & HRo' & Hdisj' & Hfr' & Hnew' & Hcnt'); try done.
  { intros x [->|[->|[->|[->|[]%elem_of_nil]]]]%footprint_elem; try done.
    all: intros Hin; destruct (Hfresh _ (Rep_allocated _ _ _ _ _ _ _ _ HRo Hin)) as (? & ? & ?); done. }
  { simpl. pose proof (rep_load _ _ _ _ _ _ _ HRo). lia. }
  { rewrite <-(length_fmap fst). apply Nat.lt_succ_r, length_le_size; [done|].
    intros a Ha. eapply Rep_allocated; [exact HRo3|]. apply footprint_elem. tauto. }
  exists h, t, b, es, s'. rewrite run_with_fuel. split_and!; try done.
  - intros x Hx Hsome. apply not_elem_of_singleton in Hx.
    destruct (Hfresh _ Hsome) as (? & ? & ?).
    rewrite <-Hs3 by done. apply Hfr'.
    + apply footprint_not_elem. split_and!; try done. by intros ?%elem_of_nil.
    + by rewrite Hs3.
  - intros x [Hx|Hx]%Hnew'.
    + apply footprint_elem in Hx as [->|[->|[->|[->|[]%elem_of_nil]]]]; auto.
    + destruct (decide (x = this)) as [|Hxt]; [by left|right].
      destruct (s !! x) eqn:Hsx; [|done].
      destruct (Hfresh x) as (? & ? & ?); [eauto|].
      rewrite Hs3 in Hx by done. congruence.
  - pose proof (spends_init_sentinels 0 _ _ _ _ E1).
    pose proof (spends_init_buckets 0 _ _ _ _ _ E2).
    assert (base.size s3 = base.size s2) as Hs32.
    { subst s3. unfold set_map. rewrite Hm2. apply map_size_insert_Some.
      apply map_at_Some in Hm2. eauto. }
    lia.
Qed.

Lemma deep_copy_spec s this m other ho to bo eso bc :
  map_at s this = Some m → this ≠ other →
  Rep s other ho to bo eso bc →
  ∃ h t b es s',
    deep_copy (Some this) (Some other) s = Ret () s' ∧
    Rep s' this h t b es bc ∧ es.*2 = eso.*2 ∧
    Rep s' other ho to bo eso bc ∧
    (∀ x, x ∈ footprint this h t b es → x ∉ footprint other ho to bo eso) ∧
    frame {[this]} s s' ∧
    (∀ x, x ∈ footprint this h t b es → x = this ∨ s !! x = None).
Proof.
  intros Hm Hne HRo.
  destruct (deep_copy_tight s this m other ho to bo eso bc Hm Hne HRo)
    as (h & t & b & es & s' & E & HR & Hes & HRo' & Hdisj & Hfr & Hnew & _).
  by exists h, t, b, es, s'.
Qed.

(** ** Copy construction and assignment *)

Lemma copy_ctor_spec s this m other ho to bo eso bc :
  map_at s this = Some m → this ≠ other →
  Rep s other ho to bo eso bc →
  ∃ h t b es s',
    copy_ctor (Some this) (Some other) s = Ret () s' ∧
    Rep s' this h t b es bc ∧ es.*2 = eso.*2 ∧
    Rep s' other ho to bo eso bc ∧
    (∀ x, x ∈ footprint this h t b es → x ∉ footprint other ho to bo eso) ∧
    frame {[this]} s s' ∧
    (∀ x, x ∈ footprint this h t b es → x = this ∨ s !! x = None).
Proof. apply deep_copy_spec. Qed.

Lemma operator_assign_self s this : operator_assign this this s = Ret this s.
Proof. unfold operator_assign. by rewrite decide_False by (by intros ?). Qed.

Lemma operator_assign_spec s this h t b es bc other ho to bo eso bco :
  Rep s this h t b es bc → Rep s other ho to bo eso bco →
  (∀ x, x ∈ footprint this h t b es → x ∉ footprint other ho to bo eso) →
  ∃ h' t' b' es' s',
    operator_assign (Some this) (Some other) s = Ret (Some this) s' ∧
    Rep s' this h' t' b' es' bco ∧ es'.*2 = eso.*2 ∧
    Rep s' other ho to bo eso bco ∧
    (∀ x, x ∈ footprint this h' t' b' es' → x ∉ footprint other ho to bo eso) ∧
    frame (footprint this h t b es) s s' ∧
    (∀ x, x ∈ footprint this h' t' b' es' → x ∈ footprint this h t b es ∨ s !! x = None).
Proof.
  intros HR HRo Hdisj.
  assert (Hne : this ≠ other).
  { intros ->. apply (Hdisj other); apply footprint_elem; by left. }
  destruct (clear_all_spec _ _ _ _ _ _ _ HR) as (s1 & E1 & Hm1 & Hgone & Hkeep).
  assert (HRo1 : Rep s1 other ho to bo eso bco).
  { eapply Rep_frame; [done|]. intros x Hx. apply Hkeep. intros ?. by eapply Hdisj. }
  rewrite (rep_this _ _ _ _ _ _ _ HR) in Hm1.
  destruct (deep_copy_spec s1 this _ other ho to bo eso bco Hm1 Hne HRo1)
    as (h' & t' & b' & es' & s' & E & HR' & Hes & HRo' & Hdisj' & Hfr & Hnew).
  exists h', t', b', es', s'. split_and!; try done.
  - unfold operator_assign. rewrite decide_True by congruence.
    erewrite run_bind; [done|]. erewrite run_bind by exact E1. done.
  - intros x Hx Hsome. rewrite <-Hkeep by done. apply Hfr.
    + apply not_elem_of_singleton. intros ->. apply Hx, footprint_elem. by left.
    + by rewrite Hkeep.
  - intros x [->|Hx]%Hnew; [left; apply footprint_elem; by left|].
    destruct (decide (x ∈ footprint this h t b es)) as [|Hnin]; [by left|right].
    by rewrite <-Hkeep.
Qed.

End copy_laws.

End clearing_and_copying.

(** ** Observers, cursors and sequences of operations *)

Section observers_and_sequences.

Context {Key T : Type} {KeyHash : Hash Key} {KeyEqual : Equal Key}
  {TDefault : DefaultConstructible T}.

Implicit Types (s : gmap positive (object Key T)) (n : Node Key T) (a x : positive).
Implicit Types (m : linked_hashmap) (es : list (positive * (Key * T))).
Abbreviation entry := (positive * (Key * T))%type (only parsing).
Local Arguments dll : simpl never.
Local Arguments chain : simpl never.

(** ** Lookups *)

Lemma size_spec s this h t b es bc :
  Rep s this h t b es bc → size (Some this) s = Ret (N.of_nat (length es)) s.
Proof.
  intros HR. unfold size.
  by rewrite (run_get_element_count _ _ _ (rep_this _ _ _ _ _ _ _ HR)).
Qed.

Lemma empty_spec s this h t b es bc :
  Rep s this h t b es bc → empty (Some this) s = Ret (N.of_nat (length es) =? 0)%N s.
Proof. intros HR. pose proof (rep_this _ _ _ _ _ _ _ HR). unfold empty. by mstep. Qed.

Lemma bucket_count_spec s this h t b es bc :
  Rep s this h t b es bc → get_bucket_count (Some this) s = Ret bc s.
Proof. intros HR. by rewrite (run_get_bucket_count _ _ _ (rep_this _ _ _ _ _ _ _ HR)). Qed.

Lemma read_ref_spec s this h t b es bc e :
  Rep s this h t b es bc → e ∈ es → read_ref (Some e.1) s = Ret e.2.2 s.
Proof.
  intros HR He. unfold read_ref.
  assert (fld data s e.1 = Some (Some e.2)).
  { apply (rep_data _ _ _ _ _ _ _ HR). by destruct e. }
  mstep. by mstep.
Qed.

Lemma operator_deref_spec s this h t b es bc e :
  Rep s this h t b es bc → e ∈ es →
  operator_deref (mkIt (Some e.1) (Some this)) s = Ret e.2 s.
Proof.
  intros HR He. unfold operator_deref. simpl.
  assert (fld data s e.1 = Some (Some e.2)).
  { apply (rep_data _ _ _ _ _ _ _ HR). by destruct e. }
  by mstep.
Qed.

Section lookups.
Context {laws : KeyLaws Key}.

Lemma lookup_run s this h t b es bc k :
  Rep s this h t b es bc →
  ∀ {A} (rest : option positive → M A),
    (idx ← get_bucket_index (Some this) k;
     nd ← find_in_bucket (Some this) k idx; rest nd) s
    = rest (fst <$> entry_of k es) s.
Proof.
  intros HR A rest. pose proof (rep_this _ _ _ _ _ _ _ HR) as Hthis.
  pose proof (rep_bc _ _ _ _ _ _ _ HR) as Hbc.
  erewrite run_bind by (eapply get_bucket_index_spec; [done|simpl; lia]). msimpl.
  by erewrite run_bind by (by eapply find_in_bucket_spec).
Qed.

Lemma at_present s this h t b es bc k e :
  Rep s this h t b es bc → entry_of k es = Some e →
  at_ (Some this) k s = Ret (Some e.1) s.
Proof. intros HR He. unfold at_. rewrite (lookup_run _ _ _ _ _ _ _ _ HR), He. done. Qed.

Lemma at_absent s this h t b es bc k :
  Rep s this h t b es bc → entry_of k es = None →
  at_ (Some this) k s = Throw index_out_of_bound s.
Proof. intros HR He. unfold at_. rewrite (lookup_run _ _ _ _ _ _ _ _ HR), He. done. Qed.

Lemma count_spec s this h t b es bc k :
  Rep s this h t b es bc →
  count (Some this) k s = Ret (if entry_of k es is Some _ then 1 else 0)%N s.
Proof.
  intros HR. unfold count. rewrite (lookup_run _ _ _ _ _ _ _ _ HR).
  by destruct (entry_of k es).
Qed.

Lemma find_spec s this h t b es bc k :
  Rep s this h t b es bc →
  find (Some this) k s
  = Ret (mkIt (Some (match entry_of k es with Some e => e.1 | None => t end)) (Some this)) s.
Proof.
  intros HR. unfold find. rewrite (lookup_run _ _ _ _ _ _ _ _ HR).
  destruct (entry_of k es); simpl; [done|]. by eapply end_spec.
Qed.

Lemma operator_index_present s this h t b es bc k e :
  Rep s this h t b es bc → entry_of k es = Some e →
  operator_index (Some this) k s = Ret (Some e.1) s.
Proof. intros HR He. unfold operator_index. rewrite (lookup_run _ _ _ _ _ _ _ _ HR), He. done. Qed.

Lemma operator_index_absent s this h t b es bc k :
  Rep s this h t b es bc → entry_of k es = None →
  (exceeds_load (N.of_nat (length es) + 1) bc = true → (bc < 2 ^ 63)%N) →
  ∃ a b' s',
    operator_index (Some this) k s = Ret (Some a) s' ∧
    Rep s' this h t b' (es ++ [(a, (k, T_default))]) (grown (length es) bc) ∧
    (exceeds_load (N.of_nat (length es) + 1) bc = false → b' = b) ∧
    frame (footprint this h t b es) s s' ∧
    (∀ x, x ∈ footprint this h t b' (es ++ [(a, (k, T_default))]) →
          x ∈ footprint this h t b es ∨ s !! x = None).
Proof.
  intros HR He Hb.
  destruct (insert_new_spec s this h t b es bc k T_default HR He Hb)
    as (a & b' & s' & E & HR' & Hb' & Hfr & Hnew).
  exists a, b', s'. split_and!; try done.
  unfold operator_index. rewrite (lookup_run _ _ _ _ _ _ _ _ HR), He. simpl.
  by erewrite run_bind by exact E.
Qed.

(** The key just inserted is found; an erased key is not. *)
Lemma entry_of_snoc_new es k (e : entry) :
  entry_of k es = None → equal_func e.2.1 k = true → entry_of k (es ++ [e]) = Some e.
Proof. intros He Hk. rewrite entry_of_app, He. simpl. by rewrite Hk. Qed.

Lemma entry_of_snoc_old es k (e e' : entry) :
  entry_of k es = Some e → entry_of k (es ++ [e']) = Some e.
Proof. intros He. by rewrite entry_of_app, He. Qed.

Lemma entry_of_erased s this h t b es1 (e : entry) es2 bc k :
  Rep s this h t b (es1 ++ e :: es2) bc →
  equal_func e.2.1 k = true → entry_of k (es1 ++ es2) = None.
Proof.
  intros HR Hk. apply entry_of_None. intros e' He'.
  pose proof (Rep_entries_nodup _ _ _ _ _ _ _ HR) as Hnd.
  apply (entries_remove _ _ _ Hnd) in He' as [He' Hne].
  destruct (equal_func e'.2.1 k) eqn:E; [|done].
  rewrite <-(rep_keys _ _ _ _ _ _ _ HR e' e); [|done|set_solver|done].
  symmetry. eapply equal_trans; [done|]. by rewrite equal_sym.
Qed.

Lemma entry_of_split es k (e : entry) :
  entry_of k es = Some e → ∃ es1 es2, es = es1 ++ e :: es2.
Proof. intros [He _]%entry_of_Some. by apply list_elem_of_split. Qed.

End lookups.

(** Writing through a reference to a mapped value. *)
Lemma write_ref_spec s this h t b es1 a k v es2 bc v' :
  Rep s this h t b (es1 ++ (a, (k, v)) :: es2) bc →
  ∃ s',
    write_ref (Some a) v' s = Ret () s' ∧
    Rep s' this h t b (es1 ++ (a, (k, v')) :: es2) bc ∧
    (∀ x, x ≠ a → s' !! x = s !! x).
Proof.
  intros HR. pose proof (Rep_entries_nodup _ _ _ _ _ _ _ HR) as Hndes.
  pose proof HR as [Hthis Hnd Hord Hdata Hbc Hload (bs & Hbs & Hlen & Hbk) Hkeys].
  assert (Hda : fld data s a = Some (Some (k, v))) by (apply Hdata; set_solver).
  unfold write_ref. mstep. mstep. eexists. split; [mlast|].
  assert (Hfst : (es1 ++ (a, (k, v')) :: es2).*1 = (es1 ++ (a, (k, v)) :: es2).*1).
  { by rewrite !fmap_app, !fmap_cons. }
  assert (Hmem : ∀ x kv, (x, kv) ∈ es1 ++ (a, (k, v')) :: es2 →
             ∃ w, (x, (kv.1, w)) ∈ es1 ++ (a, (k, v)) :: es2 ∧ (x = a ∨ w = kv.2)).
  { intros x kv [?|[[= -> ->]|?]%elem_of_cons]%elem_of_app.
    - exists kv.2. split; [destruct kv; set_solver|by right].
    - exists v. split; [set_solver|by left].
    - exists kv.2. split; [destruct kv; set_solver|by right]. }
  assert (Hmem' : ∀ x kv, (x, kv) ∈ es1 ++ (a, (k, v)) :: es2 →
             ∃ w, (x, (kv.1, w)) ∈ es1 ++ (a, (k, v')) :: es2).
  { intros x kv [?|[[= -> ->]|?]%elem_of_cons]%elem_of_app.
    - exists kv.2. destruct kv; set_solver.
    - exists v'. set_solver.
    - exists kv.2. destruct kv; set_solver. }
  split; [split|]; try done.
  - rewrite map_at_upd, Hthis. by rewrite !length_app.
  - by rewrite Hfst.
  - rewrite Hfst. eapply dll_frame; [|done]. intros x _. by fsimp.
  - intros x kv Hin. destruct (decide (x = a)) as [->|Hne].
    + assert (kv = (k, v')) as ->.
      { apply (entry_fst_inj (es1 ++ (a, (k, v')) :: es2) (a, kv) (a, (k, v'))) in Hin;
          [by injection Hin|by rewrite Hfst|set_solver|done]. }
      rd.
    + fsimp. destruct (Hmem _ _ Hin) as (w & Hw & [?| ->]); [done|].
      apply Hdata. by destruct kv.
  - by rewrite !length_app in *.
  - exists bs. split_and!; [rd|done|].
    intros i p Hp. destruct (Hbk _ _ Hp) as (c & Hc & Hcnd & Hcin).
    exists c. split_and!; [|done|].
    + eapply chain_frame; [|done]. intros x _. by fsimp.
    + intros x. rewrite Hcin. split.
      * intros (kv & Hkv & Hb). destruct (Hmem' _ _ Hkv) as (w & Hw). by exists (kv.1, w).
      * intros (kv & Hkv & Hb). destruct (Hmem _ _ Hkv) as (w & Hw & _). by exists (kv.1, w).
  - intros e1 e2 H1 H2 Hne.
    destruct e1 as [x1 kv1], e2 as [x2 kv2].
    destruct (Hmem _ _ H1) as (w1 & Hw1 & _), (Hmem _ _ H2) as (w2 & Hw2 & _).
    by apply (Hkeys _ _ Hw1 Hw2).
  - intros x Hx. by apply upd_node_lookup_ne.
Qed.

(** ** Cursors *)

Lemma dll_lookup s p L q i x y :
  dll s p L q → L !! i = Some x → L !! S i = Some y →
  fld next s x = Some (Some y) ∧ fld prev s y = Some (Some x).
Proof.
  revert p i. induction L as [|a L IH]; intros p i Hd Hx Hy; [done|].
  apply dll_cons in Hd as (Hp & Hn & Hd). destruct i as [|i]; simpl in *.
  - injection Hx as ->. destruct L as [|y' L]; [done|]. injection Hy as ->.
    apply dll_cons in Hd as (Hp' & _). done.
  - by eapply IH.
Qed.

Lemma positions_last h t es : positions h t es !! S (length es) = Some t.
Proof.
  unfold positions. simpl. rewrite lookup_app_r by (rewrite length_fmap; lia).
  by rewrite length_fmap, Nat.sub_diag.
Qed.

Lemma positions_first h t es : positions h t es !! 1%nat = hd_ptr es.*1 (Some t).
Proof. unfold positions. by destruct es. Qed.

Lemma positions_lookup_inj s this h t b es bc i j x :
  Rep s this h t b es bc →
  positions h t es !! i = Some x → positions h t es !! j = Some x → i = j.
Proof. intros HR. apply NoDup_lookup, (rep_nodup _ _ _ _ _ _ _ HR). Qed.

(** Advancing: fails at the tail sentinel, otherwise moves to [next]. *)
Lemma operator_inc_spec s this h t b es bc i x :
  Rep s this h t b es bc → positions h t es !! i = Some x →
  operator_inc (mkIt (Some x) (Some this)) s
  = match positions h t es !! S i with
    | Some y => Ret (mkIt (Some y) (Some this)) s
    | None => Throw invalid_iterator s
    end.
Proof.
  intros HR Hx. pose proof (rep_this _ _ _ _ _ _ _ HR) as Hthis.
  unfold operator_inc. msimpl. mstep.
  destruct (positions h t es !! S i) as [y|] eqn:Hy.
  - assert (x ≠ t).
    { intros ->. pose proof (positions_lookup_inj _ _ _ _ _ _ _ _ _ _ HR Hx (positions_last h t es)) as ->.
      apply lookup_lt_Some in Hy. unfold positions in Hy. simpl in Hy.
      rewrite length_app, length_fmap in Hy. simpl in Hy. lia. }
    rewrite decide_False by congruence.
    destruct (dll_lookup _ _ _ _ _ _ _ (rep_order _ _ _ _ _ _ _ HR) Hx Hy) as [Hn _].
    by mstep.
  - assert (x = t) as ->.
    { apply lookup_ge_None in Hy. pose proof (lookup_lt_Some _ _ _ Hx) as Hi.
      assert (i = S (length es)) as ->.
      { unfold positions in *. simpl in *. rewrite length_app, length_fmap in *. simpl in *. lia. }
      rewrite positions_last in Hx. congruence. }
    by rewrite decide_True.
Qed.

(** Retreating: fails at [head->next], otherwise moves to [prev]. *)
Lemma operator_dec_spec s this h t b es bc i x :
  Rep s this h t b es bc → positions h t es !! S i = Some x →
  operator_dec (mkIt (Some x) (Some this)) s
  = match i with
    | O => Throw invalid_iterator s
    | S _ => match positions h t es !! i with
             | Some y => Ret (mkIt (Some y) (Some this)) s
             | None => Fault
             end
    end.
Proof.
  intros HR Hx. pose proof (rep_this _ _ _ _ _ _ _ HR) as Hthis.
  destruct (Rep_order _ _ _ _ _ _ _ HR) as (_ & Hhn & _).
  unfold operator_dec. msimpl. mstep. mstep. rewrite <-(positions_first h t es).
  destruct i as [|i].
  - by rewrite Hx, decide_True.
  - rewrite decide_False.
    2:{ intros E. symmetry in E.
        by pose proof (positions_lookup_inj _ _ _ _ _ _ _ _ _ _ HR Hx E). }
    destruct (lookup_lt_is_Some_2 (positions h t es) (S i)) as [y Hy];
      [apply lookup_lt_Some in Hx; lia|].
    rewrite Hy.
    destruct (dll_lookup _ _ _ _ _ _ _ (rep_order _ _ _ _ _ _ _ HR) Hy Hx) as [_ Hp].
    by mstep.
Qed.

(** The postfix forms run the same check and the same move. *)
Lemma operator_inc_post_eq (it : iterator) s :
  operator_inc_post it s
  = match operator_inc it s with
    | Ret it' s' => Ret (it, it') s'
    | Throw e s' => Throw e s'
    | Fault => Fault
    | Timeout => Timeout
    end.
Proof.
  unfold operator_inc_post, operator_inc, mbind, M_bind.
  destruct (get_tail (map it) s) as [tl s1| | |]; [|done..].
  destruct (decide (node it = tl)); [done|].
  by destruct (get_next (node it) s1).
Qed.

Lemma operator_dec_post_eq (it : iterator) s :
  operator_dec_post it s
  = match operator_dec it s with
    | Ret it' s' => Ret (it, it') s'
    | Throw e s' => Throw e s'
    | Fault => Fault
    | Timeout => Timeout
    end.
Proof.
  unfold operator_dec_post, operator_dec, mbind, M_bind.
  destruct (get_head (map it) s) as [hd s1| | |]; [|done..].
  destruct (get_next hd s1) as [first s2| | |]; [|done..].
  destruct (decide (node it = first)); [done|].
  by destruct (get_prev (node it) s2).
Qed.

(** ** Which exceptions a function can throw *)

Lemma throws_only_bind {A B} P (c : M A) (k : A → M B) :
  throws_only (Key:=Key) (T:=T) P c →
  (∀ r, throws_only (Key:=Key) (T:=T) P (k r)) →
  throws_only (Key:=Key) (T:=T) P (c ≫= k).
Proof.
  intros Hc Hk s e s' E. unfold mbind, M_bind in E.
  destruct (c s) as [r s1|e1 s1| |] eqn:Ec; [by eapply Hk|..|done|done].
  injection E as <- <-. by eapply Hc.
Qed.
Lemma throws_only_ret {A} P (r : A) : throws_only (Key:=Key) (T:=T) P (mret r).
Proof. by intros s e s' E. Qed.
Lemma throws_only_fault {A} P : throws_only (Key:=Key) (T:=T) P (fault : M A).
Proof. by intros s e s' E. Qed.
Lemma throws_only_timeout {A} P : throws_only (Key:=Key) (T:=T) P (timeout : M A).
Proof. by intros s e s' E. Qed.
Lemma throws_only_throw {A} (P : exn →
Prop) e : P e →
throws_only (Key:=Key) (T:=T) P (throw e : M A).
Proof. intros He s e' s' [= <- _]. done. Qed.
Lemma throws_only_load P p : throws_only (Key:=Key) (T:=T) P (load p).
Proof. intros s e s' E. unfold load in E. by repeat case_match. Qed.
Lemma throws_only_update P p (o : object Key T) : throws_only (Key:=Key) (T:=T) P (update p o).
Proof. intros s e s' E. unfold update in E. by repeat case_match. Qed.
Lemma throws_only_alloc P (o : object Key T) : throws_only (Key:=Key) (T:=T) P (alloc o).
Proof. by intros s e s' E. Qed.
Lemma throws_only_dealloc P p : throws_only (Key:=Key) (T:=T) P (dealloc p).
Proof. intros s e s' E. unfold dealloc in E. by repeat case_match. Qed.
Lemma throws_only_with_fuel {A} P (f : nat → M A) :
  (∀ fuel, throws_only (Key:=Key) (T:=T) P (f fuel)) →
  throws_only (Key:=Key) (T:=T) P (with_fuel f).
Proof. intros Hf s e s' E. by eapply Hf. Qed.
Lemma throws_only_for_range P cnt i body :
  (∀ j, throws_only (Key:=Key) (T:=T) P (body j)) →
  throws_only (Key:=Key) (T:=T) P (for_range cnt i body).
Proof.
  intros Hb. revert i. induction cnt as [|cnt IH]; intros i; simpl.
  - apply throws_only_ret.
  - apply throws_only_bind; [done|]. intros _. apply IH.
Qed.
Lemma throws_only_weaken {A} (P Q : exn → Prop) (c : M A) :
  (∀ e, P e → Q e) → throws_only (Key:=Key) (T:=T) P c → throws_only (Key:=Key) (T:=T) Q c.
Proof. intros HPQ Hc s e s' E. by eapply HPQ, Hc. Qed.

(** Decompose a computation into its primitives to bound what it throws. *)
Ltac throws_step :=
  lazymatch goal with
  | |- throws_only _ (mbind _ _) => apply throws_only_bind; [|intros ?]
  | |- throws_only _ (mret _) => apply throws_only_ret
  | |- throws_only _ fault => apply throws_only_fault
  | |- throws_only _ timeout => apply throws_only_timeout
  | |- throws_only _ (throw _) => apply throws_only_throw
  | |- throws_only _ (load _) => apply throws_only_load
  | |- throws_only _ (update _ _) => apply throws_only_update
  | |- throws_only _ (alloc _) => apply throws_only_alloc
  | |- throws_only _ (dealloc _) => apply throws_only_dealloc
  | |- throws_only _ (with_fuel _) => apply throws_only_with_fuel; intros ?
  | |- throws_only _ (for_range _ _ _) => apply throws_only_for_range; intros ?
  | |- throws_only _ (match ?x with _ => _ end) => destruct x
  | |- throws_only _ (if ?x then _ else _) => destruct x
  end.

Ltac throws :=
  unfold get_data, get_next_in_bucket, get_prev, get_next,
    set_data, set_next_in_bucket, set_prev, set_next, get_head, get_tail, get_buckets,
    get_bucket_count, get_element_count, set_head, set_tail, set_buckets, set_bucket_count,
    set_element_count, array_get, array_set, deref, new_Node, new_Node_val, new_array,
    pp_read, pp_write;
  unfold get_next_in_bucket, set_next_in_bucket, array_get, array_set;
  unfold load_node, load_map, load_array;
  repeat throws_step.

Section throwing.
Context (P : exn → Prop).

Lemma throws_only_find_in_bucket_loop fuel k nd :
  throws_only (Key:=Key) (T:=T) P (find_in_bucket_loop fuel k nd).
Proof. revert nd. induction fuel as [|fuel IH]; intros nd; simpl; throws. apply IH. Qed.

Lemma throws_only_find_in_bucket this k idx :
  throws_only (Key:=Key) (T:=T) P (find_in_bucket this k idx).
Proof. unfold find_in_bucket. throws. apply throws_only_find_in_bucket_loop. Qed.

Lemma throws_only_get_bucket_index this k :
  throws_only (Key:=Key) (T:=T) P (get_bucket_index this k).
Proof. unfold get_bucket_index. throws. Qed.

Lemma throws_only_rehash_loop fuel this nbc nb nd :
  throws_only (Key:=Key) (T:=T) P (rehash_loop fuel this nbc nb nd).
Proof. revert nd. induction fuel as [|fuel IH]; intros nd; simpl; throws. apply IH. Qed.

Lemma throws_only_rehash this nbc : throws_only (Key:=Key) (T:=T) P (rehash this nbc).
Proof. unfold rehash. throws. apply throws_only_rehash_loop. Qed.

Lemma throws_only_insert this v : throws_only (Key:=Key) (T:=T) P (insert this v).
Proof.
  unfold insert, insert_to_order_list. throws;
    auto using throws_only_find_in_bucket, throws_only_get_bucket_index, throws_only_rehash.
Qed.

Lemma throws_only_operator_index this k : throws_only (Key:=Key) (T:=T) P (operator_index this k).
Proof.
  unfold operator_index. throws;
    auto using throws_only_find_in_bucket, throws_only_get_bucket_index, throws_only_insert.
Qed.

Lemma throws_only_count this k : throws_only (Key:=Key) (T:=T) P (count this k).
Proof.
  unfold count. throws; auto using throws_only_find_in_bucket, throws_only_get_bucket_index.
Qed.

Lemma throws_only_find this k : throws_only (Key:=Key) (T:=T) P (find this k).
Proof.
  unfold find, end_. throws; auto using throws_only_find_in_bucket, throws_only_get_bucket_index.
Qed.

Lemma throws_only_delete_nodes_loop fuel this nd :
  throws_only (Key:=Key) (T:=T) P (delete_nodes_loop fuel this nd).
Proof. revert nd. induction fuel as [|fuel IH]; intros nd; simpl; throws. apply IH. Qed.

Lemma throws_only_clear this : throws_only (Key:=Key) (T:=T) P (clear this).
Proof. unfold clear. throws; auto using throws_only_delete_nodes_loop. Qed.

Lemma throws_only_clear_all this : throws_only (Key:=Key) (T:=T) P (clear_all this).
Proof. unfold clear_all. throws; auto using throws_only_delete_nodes_loop. Qed.

Lemma throws_only_deep_copy_loop fuel this other nd :
  throws_only (Key:=Key) (T:=T) P (deep_copy_loop fuel this other nd).
Proof.
  revert nd. induction fuel as [|fuel IH]; intros nd; simpl; throws;
    auto using throws_only_insert.
Qed.

Lemma throws_only_deep_copy this other : throws_only (Key:=Key) (T:=T) P (deep_copy this other).
Proof.
  unfold deep_copy, init_sentinels, init_buckets. throws.
  apply throws_only_deep_copy_loop.
Qed.

Lemma throws_only_operator_assign this other :
  throws_only (Key:=Key) (T:=T) P (operator_assign this other).
Proof.
  unfold operator_assign. throws; auto using throws_only_clear_all, throws_only_deep_copy.
Qed.

Lemma throws_only_erase_loop fuel nd pp : throws_only (Key:=Key) (T:=T) P (erase_loop fuel nd pp).
Proof. revert pp. induction fuel as [|fuel IH]; intros pp; simpl; throws; apply IH. Qed.

End throwing.

Lemma erase_unfold this pos :
  erase (Key:=Key) (T:=T) this pos = (erase_guard this pos;; erase_body this pos).
Proof. reflexivity. Qed.

Lemma throws_only_erase_body P this pos : throws_only (Key:=Key) (T:=T) P (erase_body this pos).
Proof.
  unfold erase_body, remove_from_order_list. throws;
    auto using throws_only_get_bucket_index, throws_only_erase_loop.
Qed.

Lemma throws_only_erase this pos :
  throws_only (Key:=Key) (T:=T) (λ e, e = invalid_iterator) (erase this pos).
Proof.
  rewrite erase_unfold. apply throws_only_bind; [|intros; apply throws_only_erase_body].
  unfold erase_guard. throws; done.
Qed.

Lemma throws_only_at this k :
  throws_only (Key:=Key) (T:=T) (λ e, e = index_out_of_bound) (at_ this k).
Proof.
  unfold at_. throws; auto using throws_only_find_in_bucket, throws_only_get_bucket_index.
Qed.

Lemma throws_only_operator_inc it :
  throws_only (Key:=Key) (T:=T) (λ e, e = invalid_iterator) (operator_inc it).
Proof. unfold operator_inc. throws; done. Qed.

Lemma throws_only_operator_dec it :
  throws_only (Key:=Key) (T:=T) (λ e, e = invalid_iterator) (operator_dec it).
Proof. unfold operator_dec. throws; done. Qed.

(** The check of [erase] on a well-formed container. *)
Lemma erase_guard_spec s this h t b es bc pos :
  Rep s this h t b es bc →
  erase_guard (Some this) pos s
  = if bool_decide (map pos ≠ Some this ∨ node pos = Some t ∨ node pos = Some h)
    then Throw invalid_iterator s else Ret () s.
Proof.
  intros HR. pose proof (rep_this _ _ _ _ _ _ _ HR) as Hthis. unfold erase_guard.
  destruct (decide (map pos ≠ Some this)) as [Hm|Hm]; [by rewrite bool_decide_eq_true_2 by auto|].
  mstep. destruct (decide (node pos = Some t)) as [Ht|Ht]; [by rewrite bool_decide_eq_true_2 by auto|].
  mstep. destruct (decide (node pos = Some h)) as [Hh|Hh]; [by rewrite bool_decide_eq_true_2 by auto|].
  by rewrite bool_decide_eq_false_2 by tauto.
Qed.

(** ** One client operation on a well-formed container *)

Lemma footprint_same_locs this h t b es es' :
  es'.*1 = es.*1 → footprint this h t b es' = footprint this h t b es.
Proof. intros E. unfold footprint. by rewrite E. Qed.

Section exec_laws.
Context {laws : KeyLaws Key}.

Lemma exec_local_spec s this h t b es bc o :
  Rep s this h t b es bc → local_op this o → (bc < 2 ^ 63)%N →
  ∃ s' b' es' bc',
    finished (exec (Some this) o s) s' ∧
    Rep s' this h t b' es' bc' ∧
    (bc' = bc ∨ (bc' = 2 * bc ∧ 3 * bc < 4 * (N.of_nat (length es) + 1))%N) ∧
    (length es' ≤ S (length es))%nat ∧
    frame (footprint this h t b es) s s' ∧
    (∀ x, x ∈ footprint this h t b' es' → x ∈ footprint this h t b es ∨ s !! x = None).
Proof.
  intros HR Hloc Hbc.
  assert (Hunch : ∀ r : outcome Key T (), finished r s →
    ∃ s' b' es' bc',
      finished r s' ∧
      Rep s' this h t b' es' bc' ∧
      (bc' = bc ∨ (bc' = 2 * bc ∧ 3 * bc < 4 * (N.of_nat (length es) + 1))%N) ∧
      (length es' ≤ S (length es))%nat ∧
      frame (footprint this h t b es) s s' ∧
      (∀ x, x ∈ footprint this h t b' es' → x ∈ footprint this h t b es ∨ s !! x = None)).
  { intros r Hfin. exists s, b, es, bc.
    split_and!; [done|done|by left|lia|apply frame_refl|by left]. }
  assert (Hgrow : ∀ a b' s' (v : T) k,
    Rep s' this h t b' (es ++ [(a, (k, v))]) (grown (length es) bc) →
    (grown (length es) bc = bc
     ∨ (grown (length es) bc = 2 * bc ∧ 3 * bc < 4 * (N.of_nat (length es) + 1))%N)).
  { intros _ _ _ _ _ _. unfold grown, exceeds_load.
    destruct (N.ltb_spec (3 * bc) (4 * (N.of_nat (length es) + 1))); [right|left]; done. }
  destruct o as [k v|k| |k|k v|other|k|k|k]; simpl in *.
  - (* insert *)
    destruct (entry_of k es) as [e|] eqn:He.
    + pose proof (insert_existing_spec _ _ _ _ _ _ _ _ v _ HR He) as E.
      apply Hunch. rewrite (run_bind _ _ _ _ _ E). left. by exists ().
    + destruct (insert_new_spec s this h t b es bc k v HR He) as (a & b' & s' & E & HR' & _ & Hfr & Hnew);
        [done|].
      exists s', b', (es ++ [(a, (k, v))]), (grown (length es) bc).
      split_and!; [|done|by eapply Hgrow|rewrite length_app; simpl; lia|done|done].
      left. exists (). by erewrite run_bind by exact E.
  - (* erase(find(k)) *)
    rewrite (run_bind _ _ _ _ _ (find_spec _ _ _ _ _ _ _ k HR)).
    destruct (entry_of k es) as [e|] eqn:He.
    + destruct (entry_of_split _ _ _ He) as (es1 & es2 & ->). destruct e as [a kv].
      destruct (erase_spec _ _ _ _ _ _ _ _ _ _ HR) as (s' & E & HR' & Ha & Hfr).
      exists s', b, (es1 ++ es2), bc.
      split_and!; [left; by exists ()|done|by left|rewrite !length_app; simpl; lia| |].
      * intros x Hx _. by apply Hfr.
      * intros x Hx. left. apply footprint_elem in Hx. apply footprint_elem.
        rewrite fmap_app, elem_of_app in Hx. rewrite fmap_app, fmap_cons, elem_of_app, elem_of_cons.
        tauto.
    + apply Hunch. right. exists invalid_iterator.
      rewrite erase_unfold. apply run_bind_throw.
      rewrite (erase_guard_spec _ _ _ _ _ _ _ _ HR). simpl.
      by rewrite bool_decide_eq_true_2 by auto.
  - (* clear *)
    destruct (clear_spec _ _ _ _ _ _ _ HR) as (s' & E & HR' & Hgone & Hfr).
    exists s', b, [], bc.
    split_and!; [left; by exists ()|done|by left|simpl; lia| |].
    + intros x Hx _. by apply Hfr.
    + intros x Hx. left. apply footprint_elem in Hx. apply footprint_elem.
      simpl in Hx. rewrite elem_of_nil in Hx. tauto.
  - (* m[k] *)
    destruct (entry_of k es) as [e|] eqn:He.
    + pose proof (operator_index_present _ _ _ _ _ _ _ _ _ HR He) as E.
      apply Hunch. rewrite (run_bind _ _ _ _ _ E). left. by exists ().
    + destruct (operator_index_absent s this h t b es bc k HR He)
        as (a & b' & s' & E & HR' & _ & Hfr & Hnew); [done|].
      exists s', b', (es ++ [(a, (k, T_default))]), (grown (length es) bc).
      split_and!; [|done|by eapply Hgrow|rewrite length_app; simpl; lia|done|done].
      left. exists (). by erewrite run_bind by exact E.
  - (* m[k] = v *)
    destruct (entry_of k es) as [e|] eqn:He.
    + rewrite (run_bind _ _ _ _ _ (operator_index_present _ _ _ _ _ _ _ _ _ HR He)).
      destruct (entry_of_split _ _ _ He) as (es1 & es2 & ->). destruct e as [a [k0 v0]].
      destruct (write_ref_spec _ _ _ _ _ _ _ _ _ _ _ v HR) as (s' & E & HR' & Hfr).
      exists s', b, (es1 ++ (a, (k0, v)) :: es2), bc.
      assert (Hfp : footprint this h t b (es1 ++ (a, (k0, v)) :: es2)
                    = footprint this h t b (es1 ++ (a, (k0, v0)) :: es2)).
      { apply footprint_same_locs. by rewrite !fmap_app, !fmap_cons. }
      split_and!; [left; by exists ()|done|by left|rewrite !length_app; simpl; lia| |].
      * intros x Hx _. apply Hfr. intros ->. apply Hx, footprint_elem.
        rewrite fmap_app, fmap_cons, elem_of_app, elem_of_cons. simpl. tauto.
      * intros x Hx. left. by rewrite <-Hfp.
    + destruct (operator_index_absent s this h t b es bc k HR He)
        as (a & b' & s1 & E & HR1 & _ & Hfr & Hnew); [done|].
      erewrite run_bind by exact E.
      destruct (write_ref_spec _ _ _ _ _ _ _ _ _ _ _ v HR1) as (s' & E' & HR' & Hfr').
      exists s', b', (es ++ [(a, (k, v))]), (grown (length es) bc).
      assert (Hfp : footprint this h t b' (es ++ [(a, (k, v))])
                    = footprint this h t b' (es ++ [(a, (k, T_default))])).
      { apply footprint_same_locs. by rewrite !fmap_app. }
      split_and!; [left; by exists ()|done|by eapply Hgrow|rewrite length_app; simpl; lia| |].
      * intros x Hx Hsome. rewrite <-Hfr by done. apply Hfr'.
        intros ->. destruct (Hnew a) as [?|Hnone]; [|done|].
        -- apply footprint_elem. rewrite fmap_app, elem_of_app. simpl.
           rewrite list_elem_of_singleton. tauto.
        -- destruct Hsome. congruence.
      * intros x Hx. apply Hnew. by rewrite <-Hfp.
  - (* m = m *)
    subst other. pose proof (operator_assign_self s (Some this)) as E.
    apply Hunch. rewrite (run_bind _ _ _ _ _ E). left. by exists ().
  - (* at *)
    destruct (entry_of k es) as [e|] eqn:He.
    + pose proof (at_present _ _ _ _ _ _ _ _ _ HR He) as E.
      apply Hunch. rewrite (run_bind _ _ _ _ _ E). left. by exists ().
    + pose proof (at_absent _ _ _ _ _ _ _ _ HR He) as E.
      apply Hunch. rewrite (run_bind_throw _ _ _ _ _ E). right. eauto.
  - (* find *)
    pose proof (find_spec _ _ _ _ _ _ _ k HR) as E.
    apply Hunch. rewrite (run_bind _ _ _ _ _ E). left. by exists ().
  - (* count *)
    pose proof (count_spec _ _ _ _ _ _ _ k HR) as E.
    apply Hunch. rewrite (run_bind _ _ _ _ _ E). left. by exists ().
Qed.

(** ** Sequences of operations *)

Lemma finished_bind_ret {A B} (c : M A) (k : A → M B) s v s1 s' :
  c s = Ret v s1 → finished (k v s1) s' → finished ((c ≫= k) s) s'.
Proof. intros E. by rewrite (run_bind _ _ _ _ _ E). Qed.

Lemma finished_bind_throw {A B} (c : M A) (k : A → M B) s e s' :
  c s = Throw e s' → finished ((c ≫= k) s) s'.
Proof. intros E. rewrite (run_bind_throw _ _ _ _ _ E). right. eauto. Qed.

Lemma bounded_lt bc cap : bounded bc cap → (N.of_nat cap ≤ 2 ^ 60)%N → (bc < 2 ^ 63)%N.
Proof.
  unfold bounded.
  change (2 ^ 60)%N with 1152921504606846976%N.
  change (2 ^ 62)%N with 4611686018427387904%N.
  change (2 ^ 63)%N with 9223372036854775808%N. lia.
Qed.

Lemma bounded_le bc cap cap' : bounded bc cap → (cap ≤ cap')%nat → bounded bc cap'.
Proof. unfold bounded. lia. Qed.

Lemma bounded_step bc bc' len cap :
  bounded bc cap → (len ≤ cap)%nat →
  (bc' = bc ∨ (bc' = 2 * bc ∧ 3 * bc < 4 * (N.of_nat len + 1))%N) →
  bounded bc' (S cap).
Proof. unfold bounded. intros [?|?] ? [->|[-> ?]]; lia. Qed.

(** A sequence of local operations keeps the container well formed and
    never shrinks its bucket array. *)
Lemma exec_all_local_spec ops : ∀ s this h t b es bc cap,
  Rep s this h t b es bc → Forall (local_op this) ops →
  bounded bc cap → (length es ≤ cap)%nat → (N.of_nat (cap + length ops) ≤ 2 ^ 60)%N →
  ∃ s' b' es' bc',
    finished (exec_all (Some this) ops s) s' ∧
    Rep s' this h t b' es' bc' ∧ (bc ≤ bc')%N ∧
    bounded bc' (cap + length ops) ∧ (length es' ≤ cap + length ops)%nat ∧
    frame (footprint this h t b es) s s' ∧
    (∀ x, x ∈ footprint this h t b' es' → x ∈ footprint this h t b es ∨ s !! x = None).
Proof.
  induction ops as [|o ops IH]; intros s this h t b es bc cap HR Hloc Hbd Hlen Hcap; simpl.
  - exists s, b, es, bc. rewrite Nat.add_0_r.
    split_and!; [left; by exists ()|done|lia|done|done|apply frame_refl|by left].
  - apply Forall_cons in Hloc as [Ho Hloc].
    destruct (exec_local_spec s this h t b es bc o HR Ho)
      as (s1 & b1 & es1 & bc1 & Hfin & HR1 & Hbc1 & Hlen1 & Hfr1 & Hnew1).
    { eapply bounded_lt; [done|]. simpl in Hcap. lia. }
    destruct Hfin as [[[] E]|[e E]].
    + destruct (IH s1 this h t b1 es1 bc1 (S cap) HR1 Hloc)
        as (s' & b' & es' & bc' & Hfin' & HR' & Hbc' & Hbd' & Hlen' & Hfr' & Hnew').
      { exact (bounded_step _ _ _ _ Hbd Hlen Hbc1). }
      { lia. }
      { simpl in Hcap. lia. }
      rewrite Nat.add_succ_r.
      exists s', b', es', bc'. split_and!; [by eapply finished_bind_ret|done| |done|done| |].
      * destruct Hbc1 as [->|[-> _]]; lia.
      * by eapply frame_trans.
      * intros x [Hx|Hx]%Hnew'; [by apply Hnew1|].
        destruct (decide (x ∈ footprint this h t b es)) as [|Hnin]; [by left|right].
        destruct (s !! x) eqn:Hsx; [|done].
        rewrite Hfr1 in Hx; [congruence|done|eauto].
    + exists s1, b1, es1, bc1.
      split_and!; [by eapply finished_bind_throw|done| | | |done|done].
      * destruct Hbc1 as [->|[-> _]]; lia.
      * eapply bounded_le; [exact (bounded_step _ _ _ _ Hbd Hlen Hbc1)|lia].
      * lia.
Qed.

(** Whatever is done to one container leaves a disjoint one untouched. *)
Lemma exec_all_independent ops : ∀ s cpy h t b es bc orig ho to bo eso bco cap,
  Rep s cpy h t b es bc → Rep s orig ho to bo eso bco →
  (∀ x, x ∈ footprint cpy h t b es → x ∉ footprint orig ho to bo eso) →
  Forall (op_on_copy cpy orig) ops →
  bounded bc cap → (length es ≤ cap)%nat → (length eso ≤ cap)%nat → (bco ≤ 2 ^ 62)%N →
  (N.of_nat (cap + length ops) ≤ 2 ^ 60)%N →
  ∃ s',
    finished (exec_all (Some cpy) ops s) s' ∧
    Rep s' orig ho to bo eso bco ∧
    (∀ x, x ∈ footprint orig ho to bo eso → s' !! x = s !! x).
Proof.
  induction ops as [|o ops IH];
    intros s cpy h t b es bc orig ho to bo eso bco cap HR HRo Hdisj Hops Hbd Hlen Hleno Hbco Hcap;
    simpl.
  - exists s. split_and!; [left; by exists ()|done|done].
  - apply Forall_cons in Hops as [Ho Hops].
    assert (Hstep : ∃ s1 h1 t1 b1 es1 bc1,
      finished (exec (Some cpy) o s) s1 ∧
      Rep s1 cpy h1 t1 b1 es1 bc1 ∧ bounded bc1 (S cap) ∧ (length es1 ≤ S cap)%nat ∧
      frame (footprint cpy h t b es) s s1 ∧
      (∀ x, x ∈ footprint cpy h1 t1 b1 es1 → x ∈ footprint cpy h t b es ∨ s !! x = None)).
    { assert (local_op cpy o ∨ o = Assign (Some orig)) as [Hl| ->].
      { destruct o; simpl in *; try (by left). destruct Ho as [->| ->]; [by left|by right]. }
      - destruct (exec_local_spec s cpy h t b es bc o HR Hl)
          as (s1 & b1 & es1 & bc1 & Hfin & HR1 & Hbc1 & Hlen1 & Hfr1 & Hnew1).
        { eapply bounded_lt; [done|]. simpl in Hcap. lia. }
        exists s1, h, t, b1, es1, bc1. split_and!; [done|done|exact (bounded_step _ _ _ _ Hbd Hlen Hbc1)|lia|done|done].
      - destruct (operator_assign_spec s cpy h t b es bc orig ho to bo eso bco HR HRo Hdisj)
          as (h1 & t1 & b1 & es1 & s1 & E & HR1 & Hes1 & _ & _ & Hfr1 & Hnew1).
        exists s1, h1, t1, b1, es1, bco. split_and!; try done.
        + left. exists (). simpl. by rewrite (run_bind _ _ _ _ _ E).
        + by left.
        + rewrite <-(length_fmap snd), Hes1, length_fmap. lia. }
    destruct Hstep as (s1 & h1 & t1 & b1 & es1 & bc1 & Hfin & HR1 & Hbd1 & Hlen1 & Hfr1 & Hnew1).
    assert (Hkeep : ∀ x, x ∈ footprint orig ho to bo eso → s1 !! x = s !! x).
    { intros x Hx. apply Hfr1; [|by eapply Rep_allocated]. intros ?. by eapply Hdisj. }
    assert (HRo1 : Rep s1 orig ho to bo eso bco) by by eapply Rep_frame.
    destruct Hfin as [[[] E]|[e E]].
    + destruct (IH s1 cpy h1 t1 b1 es1 bc1 orig ho to bo eso bco (S cap) HR1 HRo1)
        as (s' & Hfin' & HRo' & Hkeep'); try done; try lia.
      { intros x [Hx|Hx]%Hnew1; [by apply Hdisj|].
        intros Hxo. destruct (Rep_allocated _ _ _ _ _ _ _ _ HRo Hxo). congruence. }
      { simpl in Hcap. lia. }
      exists s'. split_and!; [by eapply finished_bind_ret|done|].
      intros x Hx. by rewrite Hkeep', Hkeep.
    + exists s1. split_and!; [by eapply finished_bind_throw|done|done].
Qed.

End exec_laws.

End observers_and_sequences.

(** * The properties of the specification *)

Section properties.

Context {Key T : Type} {KeyHash : Hash Key} {KeyEqual : Equal Key}
  {TDefault : DefaultConstructible T} {laws : KeyLaws Key}.

Implicit Types (s : gmap positive (object Key T)) (n : Node Key T) (a x : positive).
Implicit Types (m : linked_hashmap) (es : list (positive * (Key * T))).
Abbreviation entry := (positive * (Key * T))%type (only parsing).
Local Arguments dll : simpl never.
Local Arguments chain : simpl never.

(** ** Insertion order *)

Lemma held_entry k es : held k es.*2.*1 = true → is_Some (entry_of k es).
Proof.
  intros (k' & Hk' & Heq)%existsb_exists. apply list_elem_of_In in Hk'.
  destruct (entry_of k es) eqn:He; [by eexists|].
  apply list_elem_of_fmap in Hk' as (kv & -> & Hkv).
  apply list_elem_of_fmap in Hkv as (e1 & -> & He1).
  rewrite entry_of_None in He. apply He in He1. congruence.
Qed.

Lemma not_held_entry k es : held k es.*2.*1 = false → entry_of k es = None.
Proof.
  intros Hn. destruct (entry_of k es) as [e|] eqn:He; [|done].
  apply entry_of_Some in He as [He Heq].
  assert (held k es.*2.*1 = true) as Hh; [|congruence].
  apply existsb_exists. exists e.2.1. split; [|done].
  apply list_elem_of_In, list_elem_of_fmap. exists e.2. split; [done|].
  apply list_elem_of_fmap. by exists e.
Qed.

Lemma bounded_mono bc cap : bounded bc cap → bounded bc (S cap).
Proof. intros ?. eapply bounded_le; [done|lia]. Qed.

Lemma bounded_grown bc len cap :
  bounded bc cap → (len ≤ cap)%nat → bounded (grown len bc) (S cap).
Proof.
  intros Hbd Hlen. apply (bounded_step bc _ len cap Hbd Hlen).
  unfold grown, exceeds_load. destruct (N.ltb_spec (3 * bc) (4 * (N.of_nat len + 1))); [right|left]; done.
Qed.

Lemma exec_all_inserts_spec ops : ∀ s this h t b es bc cap,
  Rep s this h t b es bc → distinct_inserts es.*2.*1 ops = true →
  bounded bc cap → (length es ≤ cap)%nat → (N.of_nat (cap + length ops) ≤ 2 ^ 60)%N →
  ∃ s' b' es' bc',
    exec_all (Some this) ops s = Ret () s' ∧
    Rep s' this h t b' es' bc' ∧ es'.*2 = es.*2 ++ inserted ops.
Proof.
  induction ops as [|o ops IH]; intros s this h t b es bc cap HR Hops Hbd Hlen Hcap.
  { exists s, b, es, bc. simpl. by rewrite app_nil_r. }
  assert (Hcap' : (N.of_nat (S cap + length ops) ≤ 2 ^ 60)%N) by (simpl in Hcap; lia).
  assert (Hbc : (bc < 2 ^ 63)%N).
  { eapply bounded_lt; [done|]. simpl in Hcap. lia. }
  assert (Hsame : ∀ c : M (Key:=Key) (T:=T) (), c s = Ret () s → distinct_inserts es.*2.*1 ops = true →
    ∃ s' b' es' bc',
      (c;; exec_all (Some this) ops) s = Ret () s' ∧
      Rep s' this h t b' es' bc' ∧ es'.*2 = es.*2 ++ inserted ops).
  { intros c E Hops'.
    destruct (IH s this h t b es bc (S cap) HR Hops') as (s' & b' & es' & bc' & E' & HR' & Hes');
      [by apply bounded_mono|lia|done|].
    exists s', b', es', bc'. by rewrite (run_bind _ _ _ _ _ E). }
  destruct o as [k v| | |k| | |k|k|k]; simpl in Hops; try done.
  - apply andb_prop in Hops as [Hk%negb_true_iff Hops]. apply not_held_entry in Hk.
    destruct (insert_new_spec s this h t b es bc k v HR Hk (λ _, Hbc))
      as (a & b1 & s1 & E & HR1 & _).
    destruct (IH s1 this h t b1 (es ++ [(a, (k, v))]) (grown (length es) bc) (S cap) HR1)
      as (s' & b' & es' & bc' & E' & HR' & Hes').
    { by rewrite !fmap_app. }
    { by apply bounded_grown. }
    { rewrite length_app. simpl. lia. }
    { done. }
    exists s', b', es', bc'. split_and!; [|done|].
    + simpl. erewrite run_bind; [done|]. by rewrite (run_bind _ _ _ _ _ E).
    + rewrite Hes', fmap_app, <-app_assoc. done.
  - apply andb_prop in Hops as [[e He]%held_entry Hops]. apply Hsame; [|done]. unfold exec.
    by rewrite (run_bind _ _ _ _ _ (operator_index_present _ _ _ _ _ _ _ _ _ HR He)).
  - apply andb_prop in Hops as [[e He]%held_entry Hops]. apply Hsame; [|done]. unfold exec.
    by rewrite (run_bind _ _ _ _ _ (at_present _ _ _ _ _ _ _ _ _ HR He)).
  - apply Hsame; [|done]. unfold exec. by rewrite (run_bind _ _ _ _ _ (find_spec _ _ _ _ _ _ _ k HR)).
  - apply Hsame; [|done]. unfold exec. by rewrite (run_bind _ _ _ _ _ (count_spec _ _ _ _ _ _ _ k HR)).
Qed.

Lemma bounded_initial : bounded INITIAL_BUCKET_COUNT 0.
Proof. left. done. Qed.

(** C1 (order preservation): on a freshly constructed container, inserting
    keys that are pairwise different under [Equal], interleaved with lookups
    of keys already present and with no erasure, completes; a traversal from
    [begin()] to [end()] then yields exactly the inserted entries, in the
    order of their insertion, and [size()] is their number. *)
Theorem C1_insertion_order_traversal s this m ops :
  map_at s this = Some m →
  distinct_inserts [] ops = true →
  (N.of_nat (length ops) ≤ 2 ^ 60)%N →
  ∃ s',
    (ctor (Some this);; exec_all (Some this) ops) s = Ret () s' ∧
    iterate (Some this) s' = Ret (inserted ops) s' ∧
    size (Some this) s' = Ret (N.of_nat (length (inserted ops))) s'.
Proof.
  intros Hm Hops Hlen.
  destruct (ctor_spec s this m Hm) as (h & t & b & s0 & E0 & HR0 & _).
  destruct (exec_all_inserts_spec ops s0 this h t b [] INITIAL_BUCKET_COUNT 0%nat HR0 Hops
              bounded_initial) as (s' & b' & es' & bc' & E & HR & Hes); [done|done|].
  exists s'. split_and!.
  - by rewrite (run_bind _ _ _ _ _ E0).
  - by rewrite (iterate_spec _ _ _ _ _ _ _ HR), Hes.
  - rewrite (size_spec _ _ _ _ _ _ _ HR).
    by rewrite <-(length_fmap snd es'), Hes.
Qed.

(** ** Re-insertion, load factor, lookups *)

Lemma positions_snoc h t es (e : entry) :
  positions h t (es ++ [e]) !! S (length es) = Some e.1.
Proof.
  unfold positions. rewrite fmap_app, <-app_assoc. simpl.
  rewrite lookup_app_r by (rewrite length_fmap; lia).
  by rewrite length_fmap, Nat.sub_diag.
Qed.

Lemma load_ok_no_growth len bc :
  (4 * N.of_nat (S len) ≤ 3 * bc)%N → exceeds_load (N.of_nat len + 1) bc = false.
Proof. intros Hl. unfold exceeds_load. apply N.ltb_ge. lia. Qed.

(** Erasing the entry of a key that is present. *)
Lemma erase_find_spec s this h t b es bc k e :
  Rep s this h t b es bc → entry_of k es = Some e →
  ∃ es1 es2 s',
    es = es1 ++ e :: es2 ∧
    (it ← find (Some this) k; erase (Some this) it) s = Ret () s' ∧
    Rep s' this h t b (es1 ++ es2) bc ∧
    entry_of k (es1 ++ es2) = None.
Proof.
  intros HR He.
  destruct (entry_of_split _ _ _ He) as (es1 & es2 & ->).
  apply entry_of_Some in He as He'. destruct He' as [_ Hk].
  destruct e as [a kv].
  destruct (erase_spec s this h t b es1 a kv es2 bc HR) as (s' & E & HR' & _).
  exists es1, es2, s'. split_and!; [done| |done|by eapply entry_of_erased].
  rewrite (run_bind _ _ _ _ _ (find_spec _ _ _ _ _ _ _ k HR)), He. done.
Qed.

(** C2 (re-insertion stability): inserting a key that is present leaves the
    whole store as it is (order list, stored value, size and buckets) and
    returns the position of the existing entry with [false]; after erasing
    the key and inserting it again, its entry is the last one of the
    traversal, and advancing from its position reaches [end()]. *)
Theorem C2_reinsertion_stability s this h t b es bc k v e :
  Rep s this h t b es bc → entry_of k es = Some e →
  insert (Some this) (k, v) s = Ret (mkIt (Some e.1) (Some this), false) s ∧
  ∃ es1 es2 s1 pos s2,
    es = es1 ++ e :: es2 ∧
    (it ← find (Some this) k; erase (Some this) it) s = Ret () s1 ∧
    insert (Some this) (k, v) s1 = Ret (pos, true) s2 ∧
    iterate (Some this) s2 = Ret (es1.*2 ++ es2.*2 ++ [(k, v)]) s2 ∧
    operator_inc pos s2 = end_ (Some this) s2.
Proof.
  intros HR He. split; [by eapply insert_existing_spec|].
  destruct (erase_find_spec s this h t b es bc k e HR He)
    as (es1 & es2 & s1 & -> & E1 & HR1 & Hk1).
  destruct (insert_new_spec s1 this h t b (es1 ++ es2) bc k v HR1 Hk1)
    as (a & b2 & s2 & E2 & HR2 & _).
  { intros Hx. rewrite load_ok_no_growth in Hx; [done|].
    pose proof (rep_load _ _ _ _ _ _ _ HR) as Hl.
    rewrite length_app in Hl. simpl in Hl. rewrite length_app. lia. }
  exists es1, es2, s1, (mkIt (Some a) (Some this)), s2. split_and!; [done|done|done| |].
  - rewrite (iterate_spec _ _ _ _ _ _ _ HR2), !fmap_app, <-app_assoc. done.
  - pose proof (operator_inc_spec _ _ _ _ _ _ _ _ _ HR2 (positions_snoc h t _ (a, (k, v)))) as Ei.
    simpl in Ei. rewrite Ei, (end_spec _ _ _ _ _ _ _ HR2).
    pose proof (positions_last h t ((es1 ++ es2) ++ [(a, (k, v))])) as Hl.
    rewrite length_app in Hl. simpl in Hl. rewrite Nat.add_1_r in Hl. by rewrite Hl.
Qed.


(** C6 (key not found): [at] and the read-only subscript return a reference
    to the mapped value of a key that is present, and throw
    [index_out_of_bound] exactly when the key is absent, leaving the store
    as it is; [insert] and the mutating subscript never throw. *)
Theorem C6_key_not_found s this h t b es bc k :
  Rep s this h t b es bc →
  (∀ e, entry_of k es = Some e →
     at_ (Some this) k s = Ret (Some e.1) s ∧
     operator_index_const (Some this) k s = Ret (Some e.1) s ∧
     read_ref (Some e.1) s = Ret e.2.2 s) ∧
  (at_ (Some this) k s = Throw index_out_of_bound s ↔ entry_of k es = None) ∧
  (operator_index_const (Some this) k s = Throw index_out_of_bound s ↔ entry_of k es = None) ∧
  (∀ e s', at_ (Some this) k s = Throw e s' → e = index_out_of_bound ∧ s' = s) ∧
  (∀ v e s', insert (Some this) (k, v) s ≠ Throw e s') ∧
  (∀ e s', operator_index (Some this) k s ≠ Throw e s').
Proof.
  intros HR.
  assert (Hat : ∀ e, entry_of k es = Some e → at_ (Some this) k s = Ret (Some e.1) s).
  { intros e He. by eapply at_present. }
  assert (Hiff : at_ (Some this) k s = Throw index_out_of_bound s ↔ entry_of k es = None).
  { split; [|by eapply at_absent].
    destruct (entry_of k es) as [e|] eqn:He; [|done]. by rewrite (Hat e). }
  split_and!; [|done|done| | |].
  - intros e He. split_and!; [by apply Hat|by apply Hat|].
    apply entry_of_Some in He as [He _]. by eapply read_ref_spec.
  - intros e s' E. destruct (entry_of k es) as [e0|] eqn:He.
    + by rewrite (Hat e0) in E.
    + rewrite (at_absent _ _ _ _ _ _ _ _ HR He) in E. by injection E as <- <-.
  - intros v e s' E. by apply (throws_only_insert (λ _, False) _ _ _ _ _ E).
  - intros e s' E. by apply (throws_only_operator_index (λ _, False) _ _ _ _ _ E).
Qed.

(** C7 (round trip): after inserting a new key with a value, [at] of the
    key returns that value; after erasing the entry that [find] returns for
    a present key, [count] of the key is 0 and [size] is one less. *)
Theorem C7_insert_erase_round_trip s this h t b es bc k :
  Rep s this h t b es bc → (bc < 2 ^ 63)%N →
  (∀ v, entry_of k es = None →
     ∃ pos s' r,
       insert (Some this) (k, v) s = Ret (pos, true) s' ∧
       at_ (Some this) k s' = Ret r s' ∧
       read_ref r s' = Ret v s') ∧
  (∀ e, entry_of k es = Some e →
     ∃ s',
       (it ← find (Some this) k; erase (Some this) it) s = Ret () s' ∧
       count (Some this) k s' = Ret 0%N s' ∧
       size (Some this) s' = Ret (N.of_nat (length es) - 1)%N s').
Proof.
  intros HR Hbc. split.
  - intros v Hk.
    destruct (insert_new_spec s this h t b es bc k v HR Hk (λ _, Hbc))
      as (a & b' & s' & E & HR' & _).
    pose proof (entry_of_snoc_new _ _ (a, (k, v)) Hk (equal_refl k)) as He.
    exists (mkIt (Some a) (Some this)), s', (Some a). split_and!; [done| |].
    + by rewrite (at_present _ _ _ _ _ _ _ _ _ HR' He).
    + apply entry_of_Some in He as [He _].
      exact (read_ref_spec _ _ _ _ _ _ _ _ HR' He).
  - intros e He.
    destruct (erase_find_spec s this h t b es bc k e HR He)
      as (es1 & es2 & s' & -> & E & HR' & Hk).
    exists s'. split_and!; [done| |].
    + by rewrite (count_spec _ _ _ _ _ _ _ k HR'), Hk.
    + rewrite (size_spec _ _ _ _ _ _ _ HR'), !length_app. simpl. f_equal. lia.
Qed.

(** ** Cursors *)

Lemma length_positions h t es : length (positions h t es) = S (S (length es)).
Proof. unfold positions. simpl. rewrite length_app, length_fmap. simpl. lia. Qed.

(** The positions a cursor of the container can be at: the entries and the
    tail sentinel. *)
Lemma cursor_position h t es x :
  x ∈ es.*1 ++ [t] → ∃ i, positions h t es !! S i = Some x.
Proof. intros [i Hi]%list_elem_of_lookup. by exists i. Qed.

Lemma positions_entry h t es i y :
  (i < length es)%nat → positions h t es !! S i = Some y → y ∈ es.*1.
Proof.
  intros Hi Hy. unfold positions in Hy. simpl in Hy.
  rewrite lookup_app_l in Hy by (by rewrite length_fmap).
  by eapply list_elem_of_lookup_2.
Qed.

Lemma operator_inc_cases s this h t b es bc i x :
  Rep s this h t b es bc → positions h t es !! S i = Some x →
  (x = t ∧ operator_inc (mkIt (Some x) (Some this)) s = Throw invalid_iterator s) ∨
  (x ≠ t ∧ ∃ y,
     fld next s x = Some (Some y) ∧
     operator_inc (mkIt (Some x) (Some this)) s = Ret (mkIt (Some y) (Some this)) s).
Proof.
  intros HR Hx. rewrite (operator_inc_spec _ _ _ _ _ _ _ _ _ HR Hx).
  pose proof (lookup_lt_Some _ _ _ Hx) as Hlt. rewrite length_positions in Hlt.
  destruct (positions h t es !! S (S i)) as [y|] eqn:Hy.
  - right. split.
    + intros ->.
      pose proof (positions_lookup_inj _ _ _ _ _ _ _ _ _ _ HR Hx (positions_last h t es)) as Hi.
      apply lookup_lt_Some in Hy. rewrite length_positions in Hy. lia.
    + exists y. split; [|done].
      by destruct (dll_lookup _ _ _ _ _ _ _ (rep_order _ _ _ _ _ _ _ HR) Hx Hy).
  - left. split; [|done].
    apply lookup_ge_None in Hy. rewrite length_positions in Hy.
    assert (i = length es) as -> by lia.
    rewrite positions_last in Hx. congruence.
Qed.

Lemma operator_dec_cases s this h t b es bc i x :
  Rep s this h t b es bc → positions h t es !! S i = Some x →
  (hd_ptr es.*1 (Some t) = Some x ∧
   operator_dec (mkIt (Some x) (Some this)) s = Throw invalid_iterator s) ∨
  (hd_ptr es.*1 (Some t) ≠ Some x ∧ ∃ y,
     y ∈ es.*1 ∧ fld prev s x = Some (Some y) ∧
     operator_dec (mkIt (Some x) (Some this)) s = Ret (mkIt (Some y) (Some this)) s).
Proof.
  intros HR Hx. rewrite (operator_dec_spec _ _ _ _ _ _ _ _ _ HR Hx).
  pose proof (lookup_lt_Some _ _ _ Hx) as Hlt. rewrite length_positions in Hlt.
  destruct i as [|j].
  - left. split; [|done]. by rewrite <-(positions_first h).
  - right. split.
    + rewrite <-(positions_first h). intros H1.
      pose proof (positions_lookup_inj _ _ _ _ _ _ _ _ _ _ HR Hx H1). lia.
    + destruct (positions h t es !! S j) as [y|] eqn:Hy.
      * exists y. split_and!; [|by destruct (dll_lookup _ _ _ _ _ _ _ (rep_order _ _ _ _ _ _ _ HR) Hy Hx)|done].
        eapply positions_entry; [|done]. lia.
      * apply lookup_ge_None in Hy. rewrite length_positions in Hy. lia.
Qed.

Lemma erase_throws_iff s this h t b es bc pos :
  Rep s this h t b es bc →
  erase (Some this) pos s = Throw invalid_iterator s ↔
  map pos ≠ Some this ∨ node pos = Some t ∨ node pos = Some h.
Proof.
  intros HR. rewrite erase_unfold.
  pose proof (erase_guard_spec _ _ _ _ _ _ _ pos HR) as Eg.
  destruct (decide (map pos ≠ Some this ∨ node pos = Some t ∨ node pos = Some h)) as [Hc|Hc].
  - rewrite bool_decide_eq_true_2 in Eg by done.
    by rewrite (run_bind_throw _ _ _ _ _ Eg).
  - rewrite bool_decide_eq_false_2 in Eg by done.
    rewrite (run_bind _ _ _ _ _ Eg). split; [|done].
    intros E. by destruct (throws_only_erase_body (λ _, False) _ _ _ _ _ E).
Qed.

(** C5 (invalid position), amended: for a cursor of the container at an
    entry or at [end()], advancing throws [invalid_iterator] exactly at
    [end()] and otherwise moves to [next]; retreating throws exactly at
    [begin()], which is the first entry or, when there are no entries,
    [end()], and otherwise moves to [prev]; [erase] throws exactly when the
    position belongs to another container or is a sentinel.  None of the
    three throws anything else. *)
Theorem C5_invalid_position s this h t b es bc :
  Rep s this h t b es bc →
  (∀ x, x ∈ es.*1 ++ [t] →
     (operator_inc (mkIt (Some x) (Some this)) s = Throw invalid_iterator s ↔
      end_ (Some this) s = Ret (mkIt (Some x) (Some this)) s) ∧
     (end_ (Some this) s ≠ Ret (mkIt (Some x) (Some this)) s →
      ∃ y, fld next s x = Some (Some y) ∧
           operator_inc (mkIt (Some x) (Some this)) s = Ret (mkIt (Some y) (Some this)) s) ∧
     (operator_dec (mkIt (Some x) (Some this)) s = Throw invalid_iterator s ↔
      begin (Some this) s = Ret (mkIt (Some x) (Some this)) s) ∧
     (begin (Some this) s ≠ Ret (mkIt (Some x) (Some this)) s →
      ∃ y, fld prev s x = Some (Some y) ∧
           operator_dec (mkIt (Some x) (Some this)) s = Ret (mkIt (Some y) (Some this)) s)) ∧
  begin (Some this) s = Ret (mkIt (hd_ptr es.*1 (Some t)) (Some this)) s ∧
  (∀ pos, erase (Some this) pos s = Throw invalid_iterator s ↔
          map pos ≠ Some this ∨ node pos = Some t ∨ node pos = Some h) ∧
  (∀ it e s', operator_inc it s = Throw e s' → e = invalid_iterator) ∧
  (∀ it e s', operator_dec it s = Throw e s' → e = invalid_iterator) ∧
  (∀ pos e s', erase (Some this) pos s = Throw e s' → e = invalid_iterator).
Proof.
  intros HR. split_and!.
  - intros x [i Hx]%(cursor_position h).
    rewrite (end_spec _ _ _ _ _ _ _ HR), (begin_spec _ _ _ _ _ _ _ HR).
    destruct (operator_inc_cases _ _ _ _ _ _ _ _ _ HR Hx) as [[-> Ei]|[Hne (y & Hy & Ei)]];
    destruct (operator_dec_cases _ _ _ _ _ _ _ _ _ HR Hx) as [[Hhd Ed]|[Hhd (z & _ & Hz & Ed)]];
    rewrite Ei, Ed, ?Hhd; split_and!; try done; try (intros; exfalso; congruence);
      try (split; intros; exfalso; congruence);
      try (intros _; by eexists).
  - by eapply begin_spec.
  - intros pos. by eapply erase_throws_iff.
  - intros it e s' E. exact (throws_only_operator_inc _ _ _ _ E).
  - intros it e s' E. exact (throws_only_operator_dec _ _ _ _ E).
  - intros pos e s' E. exact (throws_only_erase _ _ _ _ _ E).
Qed.

(** C9 (retreat on an empty container): with no entries, [begin()] is
    [end()] and retreating the [end()] cursor throws [invalid_iterator],
    with both forms of the decrement; and in any container, retreating a
    cursor either throws or reaches an entry, never a sentinel. *)
Theorem C9_retreat_from_end_of_empty s this h t b es bc :
  Rep s this h t b es bc →
  (es = [] →
     begin (Some this) s = end_ (Some this) s ∧
     (e ← end_ (Some this); operator_dec e) s = Throw invalid_iterator s ∧
     (e ← end_ (Some this); operator_dec_post e) s = Throw invalid_iterator s) ∧
  (∀ x, x ∈ es.*1 ++ [t] →
     operator_dec (mkIt (Some x) (Some this)) s = Throw invalid_iterator s ∨
     ∃ y, y ∈ es.*1 ∧
          operator_dec (mkIt (Some x) (Some this)) s = Ret (mkIt (Some y) (Some this)) s).
Proof.
  intros HR. split.
  - intros ->.
    pose proof (end_spec _ _ _ _ _ _ _ HR) as Ee.
    assert (Ed : operator_dec (mkIt (Some t) (Some this)) s = Throw invalid_iterator s).
    { by rewrite (operator_dec_spec _ _ _ _ _ _ _ 0%nat t HR). }
    split_and!.
    + by rewrite (begin_spec _ _ _ _ _ _ _ HR), Ee.
    + by rewrite (run_bind _ _ _ _ _ Ee).
    + by rewrite (run_bind _ _ _ _ _ Ee), operator_dec_post_eq, Ed.
  - intros x [i Hx]%(cursor_position h).
    destruct (operator_dec_cases _ _ _ _ _ _ _ _ _ HR Hx) as [[_ Ed]|[_ (y & Hy & _ & Ed)]];
      [by left|right; by exists y].
Qed.

(** C10 (self-assignment): assigning a container to itself returns it and
    leaves the whole store as it is, hence size, entries, order and bucket
    count; whatever runs next behaves as if the assignment was not there. *)
Theorem C10_self_assignment_is_noop (this : option positive) s :
  operator_assign this this s = Ret this s ∧
  size this s = (operator_assign this this;; size this) s ∧
  iterate this s = (operator_assign this this;; iterate this) s ∧
  get_bucket_count this s = (operator_assign this this;; get_bucket_count this) s.
Proof.
  pose proof (operator_assign_self s this) as E.
  by rewrite !(run_bind _ _ _ _ _ E).
Qed.

(** ** Bucket count and copies *)

(** C4 (bucket count), amended: along any sequence of operations of the
    container on itself (insert, erase, clear, subscript, lookups,
    self-assignment) the bucket count never decreases, between any two
    points of the sequence; copy assignment from another container sets it
    to the bucket count of the source, whatever it was before. *)
Theorem C4_bucket_count_of_local_operations s this h t b es bc ops1 ops2 :
  Rep s this h t b es bc → Forall (local_op this) (ops1 ++ ops2) →
  (bc ≤ 2 ^ 62)%N → (N.of_nat (length es + length (ops1 ++ ops2)) ≤ 2 ^ 60)%N →
  (∃ s1 bc1 s2 bc2,
     finished (exec_all (Some this) ops1 s) s1 ∧
     get_bucket_count (Some this) s1 = Ret bc1 s1 ∧
     finished (exec_all (Some this) ops2 s1) s2 ∧
     get_bucket_count (Some this) s2 = Ret bc2 s2 ∧
     (bc ≤ bc1 ≤ bc2)%N) ∧
  (∀ other ho to bo eso bco,
     Rep s other ho to bo eso bco →
     (∀ x, x ∈ footprint this h t b es → x ∉ footprint other ho to bo eso) →
     ∃ s', operator_assign (Some this) (Some other) s = Ret (Some this) s' ∧
           get_bucket_count (Some this) s' = Ret bco s').
Proof.
  intros HR Hops Hbc Hcap. apply Forall_app in Hops as [Hops1 Hops2].
  rewrite length_app in Hcap. split.
  - destruct (exec_all_local_spec ops1 s this h t b es bc (length es) HR Hops1)
      as (s1 & b1 & es1 & bc1 & Hfin1 & HR1 & Hle1 & Hbd1 & Hlen1 & _);
      [by left|done|lia|].
    destruct (exec_all_local_spec ops2 s1 this h t b1 es1 bc1 (length es + length ops1) HR1 Hops2)
      as (s2 & b2 & es2 & bc2 & Hfin2 & HR2 & Hle2 & _);
      [done|done|lia|].
    exists s1, bc1, s2, bc2.
    split_and!; [done|by eapply bucket_count_spec|done|by eapply bucket_count_spec|done|done].
  - intros other ho to bo eso bco HRo Hdisj.
    destruct (operator_assign_spec s this h t b es bc other ho to bo eso bco HR HRo Hdisj)
      as (h' & t' & b' & es' & s' & E & HR' & _).
    exists s'. split; [done|by eapply bucket_count_spec].
Qed.

Lemma run_new_linked_hashmap_copy s other ho to bo eso bc :
  Rep s other ho to bo eso bc →
  ∃ this h t b es s',
    new_linked_hashmap_copy (Some other) s = Ret (Some this) s' ∧
    Rep s' this h t b es bc ∧ es.*2 = eso.*2 ∧
    Rep s' other ho to bo eso bc ∧
    (∀ x, x ∈ footprint this h t b es → x ∉ footprint other ho to bo eso).
Proof.
  intros HR. set (l := fresh (dom s)).
  assert (Hl : s !! l = None) by apply fresh_unused.
  assert (HR0 : Rep (<[l:=raw_storage]> s) other ho to bo eso bc).
  { eapply Rep_frame; [done|]. intros x Hx. apply lookup_insert_ne.
    intros <-. destruct (Rep_allocated _ _ _ _ _ _ _ _ HR Hx). congruence. }
  assert (Hne : l ≠ other).
  { intros ->. destruct (Rep_allocated _ _ _ _ _ _ _ other HR); [|congruence].
    apply footprint_elem. by left. }
  destruct (copy_ctor_spec (<[l:=raw_storage]> s) l (mkMap None None None 0 0) other
              ho to bo eso bc) as (h & t & b & es & s' & E & HR' & Hes & HRo & Hdisj & _);
    [unfold map_at, raw_storage; by rewrite lookup_insert_eq|done|done|].
  exists l, h, t, b, es, s'. split_and!; try done.
  unfold new_linked_hashmap_copy.
  rewrite (run_bind _ _ _ _ _ (run_alloc s raw_storage)).
  by rewrite (run_bind _ _ _ _ _ E).
Qed.

(** What holds of a container that was made a copy of another. *)
Lemma copy_consequences s1 cpy h t b es orig ho to bo eso bco :
  Rep s1 cpy h t b es bco → Rep s1 orig ho to bo eso bco → es.*2 = eso.*2 →
  (∀ x, x ∈ footprint cpy h t b es → x ∉ footprint orig ho to bo eso) →
  (bco ≤ 2 ^ 62)%N →
  cpy ≠ orig ∧
  iterate (Some cpy) s1 = Ret eso.*2 s1 ∧
  size (Some cpy) s1 = Ret (N.of_nat (length eso)) s1 ∧
  get_bucket_count (Some cpy) s1 = Ret bco s1 ∧
  get_bucket_count (Some orig) s1 = Ret bco s1 ∧
  (∃ bcpy borig, get_buckets (Some cpy) s1 = Ret (Some bcpy) s1 ∧
                 get_buckets (Some orig) s1 = Ret (Some borig) s1 ∧ bcpy ≠ borig) ∧
  iterate (Some orig) s1 = Ret eso.*2 s1 ∧
  (∀ ops, Forall (op_on_copy cpy orig) ops →
     (N.of_nat (length eso + length ops) ≤ 2 ^ 60)%N →
     ∃ s2, finished (exec_all (Some cpy) ops s1) s2 ∧
           size (Some orig) s2 = Ret (N.of_nat (length eso)) s2 ∧
           iterate (Some orig) s2 = Ret eso.*2 s2).
Proof.
  intros HR HRo Hes Hdisj Hbco.
  assert (Hlen : length es = length eso).
  { by rewrite <-(length_fmap snd es), Hes, length_fmap. }
  split_and!.
  - intros ->. apply (Hdisj orig); apply footprint_elem; by left.
  - by rewrite (iterate_spec _ _ _ _ _ _ _ HR), Hes.
  - by rewrite (size_spec _ _ _ _ _ _ _ HR), Hlen.
  - by eapply bucket_count_spec.
  - by eapply bucket_count_spec.
  - exists b, bo. split_and!.
    + by rewrite (run_get_buckets _ _ _ (rep_this _ _ _ _ _ _ _ HR)).
    + by rewrite (run_get_buckets _ _ _ (rep_this _ _ _ _ _ _ _ HRo)).
    + intros ->. apply (Hdisj bo); apply footprint_elem; auto.
  - by eapply iterate_spec.
  - intros ops Hops Hcap.
    destruct (exec_all_independent ops s1 cpy h t b es bco orig ho to bo eso bco (length eso)
                HR HRo Hdisj Hops) as (s2 & Hfin & HRo2 & _); [by left|lia|done|done|done|].
    exists s2. split_and!; [done|by eapply size_spec|by eapply iterate_spec].
Qed.

(** C8 (copy independence): copy construction, and copy assignment to
    another container, make a container that yields the entries of the
    source in the source's order, has the source's bucket count and a
    bucket array of its own, and leave the source as it was; whatever is
    then done to the copy, the source keeps its size, order and values. *)
Theorem C8_copy_independence s orig ho to bo eso bco (copy : M (option positive)) :
  Rep s orig ho to bo eso bco → (bco ≤ 2 ^ 62)%N →
  (copy = new_linked_hashmap_copy (Some orig) ∨
   ∃ this h0 t0 b0 es0 bc0,
     copy = operator_assign (Some this) (Some orig) ∧
     Rep s this h0 t0 b0 es0 bc0 ∧
     (∀ x, x ∈ footprint this h0 t0 b0 es0 → x ∉ footprint orig ho to bo eso)) →
  ∃ cpy s1,
    copy s = Ret (Some cpy) s1 ∧
    cpy ≠ orig ∧
    iterate (Some cpy) s1 = Ret eso.*2 s1 ∧
    size (Some cpy) s1 = Ret (N.of_nat (length eso)) s1 ∧
    get_bucket_count (Some cpy) s1 = Ret bco s1 ∧
    get_bucket_count (Some orig) s1 = Ret bco s1 ∧
    (∃ bcpy borig, get_buckets (Some cpy) s1 = Ret (Some bcpy) s1 ∧
                   get_buckets (Some orig) s1 = Ret (Some borig) s1 ∧ bcpy ≠ borig) ∧
    iterate (Some orig) s1 = Ret eso.*2 s1 ∧
    (∀ ops, Forall (op_on_copy cpy orig) ops →
       (N.of_nat (length eso + length ops) ≤ 2 ^ 60)%N →
       ∃ s2, finished (exec_all (Some cpy) ops s1) s2 ∧
             size (Some orig) s2 = Ret (N.of_nat (length eso)) s2 ∧
             iterate (Some orig) s2 = Ret eso.*2 s2).
Proof.
  intros HRo Hbco [->|(this & h0 & t0 & b0 & es0 & bc0 & -> & HR0 & Hdisj0)].
  - destruct (run_new_linked_hashmap_copy s orig ho to bo eso bco HRo)
      as (cpy & h & t & b & es & s1 & E & HR & Hes & HRo1 & Hdisj).
    exists cpy, s1. split; [done|]. by eapply copy_consequences.
  - destruct (operator_assign_spec s this h0 t0 b0 es0 bc0 orig ho to bo eso bco HR0 HRo Hdisj0)
      as (h & t & b & es & s1 & E & HR & Hes & HRo1 & Hdisj & _).
    exists this, s1. split; [done|]. by eapply copy_consequences.
Qed.

End properties.

(** * Further properties of the code *)

Section further_properties.

Context {Key T : Type} {KeyHash : Hash Key} {KeyEqual : Equal Key}
  {TDefault : DefaultConstructible T} {laws : KeyLaws Key}.

Implicit Types (s : gmap positive (object Key T)) (n : Node Key T) (a x : positive).
Implicit Types (m : linked_hashmap) (es : list (positive * (Key * T))).
Abbreviation entry := (positive * (Key * T))%type (only parsing).
Local Arguments dll : simpl never.
Local Arguments chain : simpl never.

(** ** The container refines an association list *)

Lemma assoc_has_entry k es :
  assoc_has k es.*2 = match entry_of k es with Some _ => true | None => false end.
Proof.
  induction es as [|e es IH]; [done|]. simpl.
  destruct (equal_func e.2.1 k); [done|]. exact IH.
Qed.

Lemma assoc_remove_split k es1 (e : entry) es2 :
  entry_of k es1 = None → equal_func e.2.1 k = true →
  assoc_remove k (es1 ++ e :: es2).*2 = es1.*2 ++ es2.*2.
Proof.
  intros Hk He. induction es1 as [|e1 es1 IH].
  - simpl. by rewrite He.
  - simpl in Hk. rewrite <-!app_comm_cons, !fmap_cons. cbn [assoc_remove].
    destruct (equal_func e1.2.1 k); [done|]. by rewrite IH.
Qed.

Lemma assoc_update_split k v es1 (e : entry) es2 :
  entry_of k es1 = None → equal_func e.2.1 k = true →
  assoc_update k v (es1 ++ e :: es2).*2 = es1.*2 ++ (e.2.1, v) :: es2.*2.
Proof.
  intros Hk He. induction es1 as [|e1 es1 IH].
  - simpl. by rewrite He.
  - simpl in Hk. rewrite <-!app_comm_cons, !fmap_cons. cbn [assoc_update].
    destruct (equal_func e1.2.1 k); [done|]. by rewrite IH.
Qed.

(** The entry of a key comes after entries of other keys only. *)
Lemma entry_of_first s this h t b es1 (e : entry) es2 bc k :
  Rep s this h t b (es1 ++ e :: es2) bc → equal_func e.2.1 k = true →
  entry_of k es1 = None ∧ entry_of k es2 = None.
Proof.
  intros HR He. pose proof (entry_of_erased _ _ _ _ _ _ _ _ _ _ HR He) as Hn.
  rewrite entry_of_app in Hn. by destruct (entry_of k es1).
Qed.

Lemma grown_cases len bc :
  grown len bc = bc ∨ (grown len bc = 2 * bc ∧ 3 * bc < 4 * (N.of_nat len + 1))%N.
Proof.
  unfold grown, exceeds_load.
  destruct (N.ltb_spec (3 * bc) (4 * (N.of_nat len + 1))); [right|left]; done.
Qed.

(** One statement does to the traversal what [abstract_step] does to the
    list, and throws when it throws, leaving the store as it is. *)
Lemma exec_refines s this h t b es bc o :
  Rep s this h t b es bc → local_op this o → (bc < 2 ^ 63)%N →
  match abstract_step es.*2 o with
  | inl l' =>
    ∃ s' b' es' bc',
      exec (Some this) o s = Ret () s' ∧
      Rep s' this h t b' es' bc' ∧ es'.*2 = l' ∧
      (bc' = bc ∨ (bc' = 2 * bc ∧ 3 * bc < 4 * (N.of_nat (length es) + 1))%N) ∧
      (length es' ≤ S (length es))%nat
  | inr e => exec (Some this) o s = Throw e s
  end.
Proof.
  intros HR Hloc Hbc.
  assert (Hsame : ∀ c : M (Key:=Key) (T:=T) (), c s = Ret () s →
    ∃ s' b' es' bc',
      c s = Ret () s' ∧ Rep s' this h t b' es' bc' ∧ es'.*2 = es.*2 ∧
      (bc' = bc ∨ (bc' = 2 * bc ∧ 3 * bc < 4 * (N.of_nat (length es) + 1))%N) ∧
      (length es' ≤ S (length es))%nat).
  { intros c E. exists s, b, es, bc. split_and!; [done|done|done|by left|lia]. }
  destruct o as [k v|k| |k|k v|other|k|k|k]; simpl abstract_step;
    rewrite ?assoc_has_entry; unfold exec.
  - (* insert *)
    destruct (entry_of k es) as [e|] eqn:He.
    + apply Hsame.
      by rewrite (run_bind _ _ _ _ _ (insert_existing_spec _ _ _ _ _ _ _ _ v _ HR He)).
    + destruct (insert_new_spec s this h t b es bc k v HR He (λ _, Hbc))
        as (a & b' & s' & E & HR' & _).
      exists s', b', (es ++ [(a, (k, v))]), (grown (length es) bc).
      split_and!; [by rewrite (run_bind _ _ _ _ _ E)|done|by rewrite fmap_app|
                   apply grown_cases|rewrite length_app; simpl; lia].
  - (* erase(find(k)) *)
    rewrite (run_bind _ _ _ _ _ (find_spec _ _ _ _ _ _ _ k HR)).
    destruct (entry_of k es) as [e|] eqn:He.
    + destruct (entry_of_split _ _ _ He) as (es1 & es2 & ->).
      apply entry_of_Some in He as [_ Hk].
      destruct (entry_of_first _ _ _ _ _ _ _ _ _ _ HR Hk) as [Hk1 _].
      destruct e as [a kv].
      destruct (erase_spec _ _ _ _ _ _ _ _ _ _ HR) as (s' & E & HR' & _).
      exists s', b, (es1 ++ es2), bc.
      split_and!; [done|done| |by left|rewrite !length_app; simpl; lia].
      by rewrite (assoc_remove_split _ _ _ _ Hk1 Hk), fmap_app.
    + rewrite erase_unfold. apply run_bind_throw.
      rewrite (erase_guard_spec _ _ _ _ _ _ _ _ HR). simpl.
      by rewrite bool_decide_eq_true_2 by auto.
  - (* clear *)
    destruct (clear_spec _ _ _ _ _ _ _ HR) as (s' & E & HR' & _).
    exists s', b, [], bc. split_and!; [done|done|done|by left|simpl; lia].
  - (* m[k] *)
    destruct (entry_of k es) as [e|] eqn:He.
    + apply Hsame.
      by rewrite (run_bind _ _ _ _ _ (operator_index_present _ _ _ _ _ _ _ _ _ HR He)).
    + destruct (operator_index_absent s this h t b es bc k HR He (λ _, Hbc))
        as (a & b' & s' & E & HR' & _).
      exists s', b', (es ++ [(a, (k, T_default))]), (grown (length es) bc).
      split_and!; [by rewrite (run_bind _ _ _ _ _ E)|done|by rewrite fmap_app|
                   apply grown_cases|rewrite length_app; simpl; lia].
  - (* m[k] = v *)
    destruct (entry_of k es) as [e|] eqn:He.
    + rewrite (run_bind _ _ _ _ _ (operator_index_present _ _ _ _ _ _ _ _ _ HR He)).
      destruct (entry_of_split _ _ _ He) as (es1 & es2 & ->).
      apply entry_of_Some in He as [_ Hk].
      destruct (entry_of_first _ _ _ _ _ _ _ _ _ _ HR Hk) as [Hk1 _].
      destruct e as [a [k0 v0]].
      destruct (write_ref_spec _ _ _ _ _ _ _ _ _ _ _ v HR) as (s' & E & HR' & _).
      exists s', b, (es1 ++ (a, (k0, v)) :: es2), bc.
      split_and!; [done|done| |by left|rewrite !length_app; simpl; lia].
      by rewrite (assoc_update_split _ _ _ _ _ Hk1 Hk), fmap_app.
    + destruct (operator_index_absent s this h t b es bc k HR He (λ _, Hbc))
        as (a & b' & s1 & E & HR1 & _).
      rewrite (run_bind _ _ _ _ _ E).
      destruct (write_ref_spec _ _ _ _ _ _ _ _ _ _ _ v HR1) as (s' & E' & HR' & _).
      exists s', b', (es ++ [(a, (k, v))]), (grown (length es) bc).
      split_and!; [done|done|by rewrite fmap_app|apply grown_cases|
                   rewrite length_app; simpl; lia].
  - (* m = m *)
    simpl in Hloc. subst other. apply Hsame.
    by rewrite (run_bind _ _ _ _ _ (operator_assign_self s (Some this))).
  - (* at *)
    destruct (entry_of k es) as [e|] eqn:He.
    + apply Hsame. by rewrite (run_bind _ _ _ _ _ (at_present _ _ _ _ _ _ _ _ _ HR He)).
    + by rewrite (run_bind_throw _ _ _ _ _ (at_absent _ _ _ _ _ _ _ _ HR He)).
  - (* find *)
    apply Hsame. by rewrite (run_bind _ _ _ _ _ (find_spec _ _ _ _ _ _ _ k HR)).
  - (* count *)
    apply Hsame. by rewrite (run_bind _ _ _ _ _ (count_spec _ _ _ _ _ _ _ k HR)).
Qed.

Lemma exec_all_refines ops : ∀ s this h t b es bc cap,
  Rep s this h t b es bc → Forall (local_op this) ops →
  bounded bc cap → (length es ≤ cap)%nat → (N.of_nat (cap + length ops) ≤ 2 ^ 60)%N →
  ∃ s' b' es' bc',
    exec_all (Some this) ops s
    = match (abstract_run es.*2 ops).2 with
      | None => Ret () s'
      | Some e => Throw e s'
      end ∧
    Rep s' this h t b' es' bc' ∧ es'.*2 = (abstract_run es.*2 ops).1.
Proof.
  induction ops as [|o ops IH]; intros s this h t b es bc cap HR Hloc Hbd Hlen Hcap.
  { exists s, b, es, bc. done. }
  apply Forall_cons in Hloc as [Ho Hloc].
  assert (Hbc : (bc < 2 ^ 63)%N).
  { eapply bounded_lt; [done|]. simpl in Hcap. lia. }
  pose proof (exec_refines s this h t b es bc o HR Ho Hbc) as Hstep.
  simpl. destruct (abstract_step es.*2 o) as [l'|e].
  - destruct Hstep as (s1 & b1 & es1 & bc1 & E1 & HR1 & <- & Hbc1 & Hlen1).
    destruct (IH s1 this h t b1 es1 bc1 (S cap) HR1 Hloc) as (s' & b' & es' & bc' & E & HR' & Hes').
    { exact (bounded_step _ _ _ _ Hbd Hlen Hbc1). }
    { lia. }
    { simpl in Hcap. lia. }
    exists s', b', es', bc'. split_and!; [|done|done].
    by rewrite (run_bind _ _ _ _ _ E1).
  - exists s, b, es, bc. split_and!; [|done|done].
    by rewrite (run_bind_throw _ _ _ _ _ Hstep).
Qed.

(** X1 (refinement): a sequence of statements of a container on itself
    does to its traversal what [abstract_run] does to an insertion-ordered
    association list: it throws exactly when the list operations do, with
    the same exception, and the traversal and [size()] it ends with are the
    list and its length. *)
Theorem X1_refines_association_list s this h t b es bc ops :
  Rep s this h t b es bc → Forall (local_op this) ops →
  (bc ≤ 2 ^ 62)%N → (N.of_nat (length es + length ops) ≤ 2 ^ 60)%N →
  ∃ l s',
    iterate (Some this) s = Ret l s ∧
    exec_all (Some this) ops s
    = match (abstract_run l ops).2 with
      | None => Ret () s'
      | Some e => Throw e s'
      end ∧
    iterate (Some this) s' = Ret (abstract_run l ops).1 s' ∧
    size (Some this) s' = Ret (N.of_nat (length (abstract_run l ops).1)) s'.
Proof.
  intros HR Hops Hbc Hcap.
  destruct (exec_all_refines ops s this h t b es bc (length es) HR Hops)
    as (s' & b' & es' & bc' & E & HR' & Hes'); [by left|done|done|].
  exists es.*2, s'. split_and!; [by eapply iterate_spec|done| |].
  - by rewrite (iterate_spec _ _ _ _ _ _ _ HR'), Hes'.
  - by rewrite (size_spec _ _ _ _ _ _ _ HR'), <-Hes', length_fmap.
Qed.

(** X2 (exception safety): a statement of a container on itself throws
    only as [at] or [erase(find(k))] of an absent key, and then the store
    is exactly as before; every other statement returns. *)
Theorem X2_strong_exception_guarantee s this h t b es bc o :
  Rep s this h t b es bc → local_op this o → (bc < 2 ^ 63)%N →
  (∀ e s', exec (Some this) o s = Throw e s' →
     s' = s ∧
     ((∃ k, o = At k ∧ e = index_out_of_bound ∧ count (Some this) k s = Ret 0%N s) ∨
      (∃ k, o = EraseKey k ∧ e = invalid_iterator ∧ count (Some this) k s = Ret 0%N s))) ∧
  ((∃ s', exec (Some this) o s = Ret () s') ∨ (∃ e, exec (Some this) o s = Throw e s)).
Proof.
  intros HR Hloc Hbc.
  pose proof (exec_refines s this h t b es bc o HR Hloc Hbc) as Hstep.
  destruct (abstract_step es.*2 o) as [l'|e0] eqn:Habs.
  - destruct Hstep as (s1 & b1 & es1 & bc1 & E1 & _).
    split; [|left; by exists s1]. intros e s' E. congruence.
  - split; [|right; by exists e0]. intros e s' E.
    rewrite Hstep in E. injection E as <- <-. split; [done|].
    destruct o as [k v|k| |k|k v|other|k|k|k]; simpl in Habs;
      rewrite ?assoc_has_entry in Habs; try done.
    + right. exists k. rewrite (count_spec _ _ _ _ _ _ _ k HR).
      destruct (entry_of k es); [done|]. by injection Habs as <-.
    + left. exists k. rewrite (count_spec _ _ _ _ _ _ _ k HR).
      destruct (entry_of k es); [done|]. by injection Habs as <-.
Qed.

(** ** What every reachable container satisfies *)


Lemma hd_ptr_tail_iff s this h t b es bc :
  Rep s this h t b es bc → hd_ptr es.*1 (Some t) = Some t ↔ es = [].
Proof.
  intros HR. destruct (Rep_ne _ _ _ _ _ _ _ HR) as (_ & _ & Ht & _).
  destruct es as [|e es]; [done|]. simpl. split; [|done].
  intros [= Heq]. destruct Ht. rewrite fmap_cons, Heq. by left.
Qed.


(** ** clear, empty, size *)

(** X4 (clear): [clear()] removes every entry and frees its node: then
    [size()] is 0, [empty()] holds, a traversal yields nothing, [begin()]
    is [end()], no key is found, and the bucket count is what it was;
    nothing outside the container changes. *)
Theorem X4_clear_empties_the_container s this h t b es bc :
  Rep s this h t b es bc →
  ∃ s',
    clear (Some this) s = Ret () s' ∧
    size (Some this) s' = Ret 0%N s' ∧
    empty (Some this) s' = Ret true s' ∧
    iterate (Some this) s' = Ret [] s' ∧
    begin (Some this) s' = end_ (Some this) s' ∧
    get_bucket_count (Some this) s' = Ret bc s' ∧
    (∀ k, count (Some this) k s' = Ret 0%N s' ∧
          find (Some this) k s' = end_ (Some this) s' ∧
          at_ (Some this) k s' = Throw index_out_of_bound s') ∧
    (∀ x, x ∈ es.*1 → s' !! x = None) ∧
    (∀ x, x ∉ footprint this h t b es → s' !! x = s !! x).
Proof.
  intros HR. destruct (clear_spec _ _ _ _ _ _ _ HR) as (s' & E & HR' & Hgone & Hfr).
  exists s'. split_and!; [done| | | | | | |done|done].
  - by rewrite (size_spec _ _ _ _ _ _ _ HR').
  - by rewrite (empty_spec _ _ _ _ _ _ _ HR').
  - by rewrite (iterate_spec _ _ _ _ _ _ _ HR').
  - by rewrite (begin_spec _ _ _ _ _ _ _ HR'), (end_spec _ _ _ _ _ _ _ HR').
  - by eapply bucket_count_spec.
  - intros k. split_and!.
    + by rewrite (count_spec _ _ _ _ _ _ _ k HR').
    + by rewrite (find_spec _ _ _ _ _ _ _ k HR'), (end_spec _ _ _ _ _ _ _ HR').
    + by eapply at_absent.
Qed.

(** X5 (observers agree): on a well-formed container [size()] is the number
    of pairs a traversal yields, and [empty()], [size() == 0] and
    [begin() == end()] hold together, exactly when the traversal yields
    nothing; none of them changes the store. *)
Theorem X5_empty_size_begin_end_agree s this h t b es bc :
  Rep s this h t b es bc →
  ∃ l (cnt : N) (none : bool) first last,
    iterate (Some this) s = Ret l s ∧ size (Some this) s = Ret cnt s ∧
    empty (Some this) s = Ret none s ∧
    begin (Some this) s = Ret first s ∧ end_ (Some this) s = Ret last s ∧
    cnt = N.of_nat (length l) ∧
    (none = true ↔ l = []) ∧ (cnt = 0%N ↔ l = []) ∧
    (operator_eq first last = true ↔ l = []) ∧
    (operator_ne first last = true ↔ l ≠ []).
Proof.
  intros HR.
  exists es.*2, (N.of_nat (length es)), (N.of_nat (length es) =? 0)%N,
    (mkIt (hd_ptr es.*1 (Some t)) (Some this)), (mkIt (Some t) (Some this)).
  pose proof (hd_ptr_tail_iff _ _ _ _ _ _ _ HR) as Hhd.
  assert (Heq : operator_eq (mkIt (hd_ptr es.*1 (Some t)) (Some this))
                  (mkIt (Some t) (Some this)) = true ↔ es.*2 = []).
  { unfold operator_eq. simpl. rewrite andb_true_iff, !bool_decide_eq_true, Hhd.
    destruct es; naive_solver. }
  split_and!.
  - by eapply iterate_spec.
  - by eapply size_spec.
  - by eapply empty_spec.
  - by eapply begin_spec.
  - by eapply end_spec.
  - by rewrite length_fmap.
  - rewrite N.eqb_eq. destruct es; simpl; split; (done || lia).
  - destruct es; simpl; split; (done || lia).
  - exact Heq.
  - unfold operator_ne. rewrite negb_true_iff, <-not_true_iff_false. by rewrite Heq.
Qed.

(** ** Lookups *)

(** X6 (lookups agree): [find], [count] and [at] tell the same about a
    key.  When [find(k)] is not [end()], it is at a pair of the traversal
    whose key equals [k], [count(k)] is 1 and [at(k)] refers to that pair's
    value; when it is [end()], [count(k)] is 0, [at(k)] throws and no pair
    of the traversal has a key equal to [k]. *)
Theorem X6_find_count_at_agree s this h t b es bc k :
  Rep s this h t b es bc →
  ∃ it last l,
    find (Some this) k s = Ret it s ∧ end_ (Some this) s = Ret last s ∧
    iterate (Some this) s = Ret l s ∧
    (operator_ne it last = true →
       ∃ kv, operator_deref it s = Ret kv s ∧ kv ∈ l ∧ equal_func kv.1 k = true ∧
             count (Some this) k s = Ret 1%N s ∧
             (r ← at_ (Some this) k; read_ref r) s = Ret kv.2 s) ∧
    (operator_eq it last = true →
       count (Some this) k s = Ret 0%N s ∧
       at_ (Some this) k s = Throw index_out_of_bound s ∧
       ∀ kv, kv ∈ l → equal_func kv.1 k = false).
Proof.
  intros HR.
  exists (mkIt (Some (match entry_of k es with Some e => e.1 | None => t end)) (Some this)),
    (mkIt (Some t) (Some this)), es.*2.
  destruct (Rep_ne _ _ _ _ _ _ _ HR) as (_ & _ & Ht & _).
  split_and!; [by eapply find_spec|by eapply end_spec|by eapply iterate_spec| |].
  - destruct (entry_of k es) as [e|] eqn:He.
    + intros _. apply entry_of_Some in He as He'. destruct He' as [Hin Hk].
      exists e.2. split_and!.
      * by eapply operator_deref_spec.
      * apply list_elem_of_fmap. by exists e.
      * done.
      * by rewrite (count_spec _ _ _ _ _ _ _ k HR), He.
      * rewrite (run_bind _ _ _ _ _ (at_present _ _ _ _ _ _ _ _ _ HR He)).
        by eapply read_ref_spec.
    + unfold operator_ne, operator_eq. simpl. by rewrite !bool_decide_eq_true_2.
  - destruct (entry_of k es) as [e|] eqn:He.
    + unfold operator_eq. simpl. intros [Heq _]%andb_true_iff.
      apply bool_decide_eq_true in Heq as [= Het].
      apply entry_of_Some in He as [Hin _]. destruct Ht. rewrite <-Het.
      apply list_elem_of_fmap. by exists e.
    + intros _. split_and!.
      * by rewrite (count_spec _ _ _ _ _ _ _ k HR), He.
      * by eapply at_absent.
      * intros kv (e & -> & Hin)%list_elem_of_fmap.
        rewrite entry_of_None in He. by apply He.
Qed.



(** ** Subscript and references *)

Lemma entry_of_other_snoc es k' (e' e : entry) :
  entry_of k' es = Some e' → entry_of k' (es ++ [e]) = Some e'.
Proof. intros He. by rewrite entry_of_app, He. Qed.

Lemma entry_of_update_other es1 (a : positive) (k0 : Key) (v0 v : T) es2 k' (e' : entry) :
  e'.1 ≠ a →
  entry_of k' (es1 ++ (a, (k0, v0)) :: es2) = Some e' →
  entry_of k' (es1 ++ (a, (k0, v)) :: es2) = Some e'.
Proof.
  intros Hne. rewrite !entry_of_app. destruct (entry_of k' es1); [done|]. simpl.
  destruct (equal_func k0 k'); [|done]. intros [= <-]. by destruct Hne.
Qed.

Lemma entry_of_remove_other es1 (e : entry) es2 k' (e' : entry) :
  e'.1 ≠ e.1 →
  entry_of k' (es1 ++ e :: es2) = Some e' → entry_of k' (es1 ++ es2) = Some e'.
Proof.
  intros Hne. rewrite !entry_of_app. destruct (entry_of k' es1); [done|]. simpl.
  destruct (equal_func e.2.1 k'); [|done]. intros [= <-]. by destruct Hne.
Qed.

(** X8 (subscript): [m[k]] of a present key returns a reference to its
    value and leaves the store as it is; of an absent key it appends the
    pair of [k] and the default value [T()] to the traversal, increments
    [size()] and returns a reference to the new value, which [at(k)] then
    returns too. *)
Theorem X8_subscript_inserts_default s this h t b es bc k :
  Rep s this h t b es bc → (bc < 2 ^ 63)%N →
  (∀ e, entry_of k es = Some e →
     operator_index (Some this) k s = Ret (Some e.1) s ∧
     at_ (Some this) k s = Ret (Some e.1) s ∧
     read_ref (Some e.1) s = Ret e.2.2 s) ∧
  (entry_of k es = None →
     ∃ r s',
       operator_index (Some this) k s = Ret r s' ∧
       read_ref r s' = Ret T_default s' ∧
       at_ (Some this) k s' = Ret r s' ∧
       iterate (Some this) s' = Ret (es.*2 ++ [(k, T_default)]) s' ∧
       size (Some this) s' = Ret (N.of_nat (length es) + 1)%N s').
Proof.
  intros HR Hbc. split.
  - intros e He. split_and!.
    + by eapply operator_index_present.
    + by eapply at_present.
    + apply entry_of_Some in He as [He _]. by eapply read_ref_spec.
  - intros He.
    destruct (operator_index_absent s this h t b es bc k HR He (λ _, Hbc))
      as (a & b' & s' & E & HR' & _).
    pose proof (entry_of_snoc_new _ _ (a, (k, T_default)) He (equal_refl k)) as He'.
    exists (Some a), s'. split_and!; [done| | | |].
    + apply entry_of_Some in He' as [Hin _].
      exact (read_ref_spec _ _ _ _ _ _ _ _ HR' Hin).
    + exact (at_present _ _ _ _ _ _ _ _ _ HR' He').
    + by rewrite (iterate_spec _ _ _ _ _ _ _ HR'), fmap_app.
    + rewrite (size_spec _ _ _ _ _ _ _ HR'), length_app. simpl. f_equal. lia.
Qed.

(** X9 (writing through a reference): assigning through the reference that
    [at(k)] returns replaces the value of [k] and nothing else: [at(k)]
    then reads the new value, the traversal keeps its order and keys,
    [size()] is unchanged, and every other key keeps its node and value. *)
Theorem X9_write_through_reference s this h t b es bc k v e :
  Rep s this h t b es bc → entry_of k es = Some e →
  ∃ s',
    (r ← at_ (Some this) k; write_ref r v) s = Ret () s' ∧
    (r ← at_ (Some this) k; read_ref r) s' = Ret v s' ∧
    iterate (Some this) s' = Ret (assoc_update k v es.*2) s' ∧
    size (Some this) s' = Ret (N.of_nat (length es)) s' ∧
    (∀ k' e', entry_of k' es = Some e' → e'.1 ≠ e.1 →
       at_ (Some this) k' s' = Ret (Some e'.1) s' ∧
       read_ref (Some e'.1) s' = Ret e'.2.2 s').
Proof.
  intros HR He.
  destruct (entry_of_split _ _ _ He) as (es1 & es2 & ->).
  apply entry_of_Some in He as He'. destruct He' as [_ Hk].
  destruct (entry_of_first _ _ _ _ _ _ _ _ _ _ HR Hk) as [Hk1 _].
  destruct e as [a [k0 v0]].
  destruct (write_ref_spec _ _ _ _ _ _ _ _ _ _ _ v HR) as (s' & E & HR' & _).
  assert (He1 : entry_of k (es1 ++ (a, (k0, v)) :: es2) = Some (a, (k0, v))).
  { rewrite entry_of_app, Hk1. simpl. simpl in Hk. by rewrite Hk. }
  exists s'. split_and!.
  - by rewrite (run_bind _ _ _ _ _ (at_present _ _ _ _ _ _ _ _ _ HR He)).
  - rewrite (run_bind _ _ _ _ _ (at_present _ _ _ _ _ _ _ _ _ HR' He1)).
    apply entry_of_Some in He1 as [Hin _].
    exact (read_ref_spec _ _ _ _ _ _ _ _ HR' Hin).
  - rewrite (iterate_spec _ _ _ _ _ _ _ HR').
    by rewrite (assoc_update_split _ _ _ (a, (k0, v0)) _ Hk1 Hk), fmap_app.
  - rewrite (size_spec _ _ _ _ _ _ _ HR'), !length_app. done.
  - intros k' e' He' Hne.
    pose proof (entry_of_update_other _ _ _ _ v _ _ _ Hne He') as He''.
    split; [exact (at_present _ _ _ _ _ _ _ _ _ HR' He'')|].
    apply entry_of_Some in He'' as [Hin _].
    exact (read_ref_spec _ _ _ _ _ _ _ _ HR' Hin).
Qed.

(** ** erase and insert keep what they do not touch *)

(** X10 (erase by position): erasing the entry at a cursor removes exactly
    that pair from the traversal, keeping the order of the others,
    decrements [size()], frees the node, and keeps the bucket count; the
    erased key is no longer found, and every other entry keeps its node and
    value. *)
Theorem X10_erase_removes_one_entry s this h t b es1 a kv es2 bc :
  Rep s this h t b (es1 ++ (a, kv) :: es2) bc →
  ∃ s',
    erase (Some this) (mkIt (Some a) (Some this)) s = Ret () s' ∧
    iterate (Some this) s' = Ret (es1.*2 ++ es2.*2) s' ∧
    size (Some this) s' = Ret (N.of_nat (length es1 + length es2)) s' ∧
    get_bucket_count (Some this) s' = Ret bc s' ∧
    s' !! a = None ∧
    count (Some this) kv.1 s' = Ret 0%N s' ∧
    (∀ k' e', entry_of k' (es1 ++ (a, kv) :: es2) = Some e' → e'.1 ≠ a →
       at_ (Some this) k' s' = Ret (Some e'.1) s' ∧
       read_ref (Some e'.1) s' = Ret e'.2.2 s') ∧
    (∀ x, x ∉ footprint this h t b (es1 ++ (a, kv) :: es2) → s' !! x = s !! x).
Proof.
  intros HR.
  destruct (erase_spec _ _ _ _ _ _ _ _ _ _ HR) as (s' & E & HR' & Ha & Hfr).
  exists s'. split_and!; [done| | | |done| | |done].
  - by rewrite (iterate_spec _ _ _ _ _ _ _ HR'), fmap_app.
  - by rewrite (size_spec _ _ _ _ _ _ _ HR'), length_app.
  - by eapply bucket_count_spec.
  - rewrite (count_spec _ _ _ _ _ _ _ _ HR').
    by rewrite (entry_of_erased _ _ _ _ _ _ (a, kv) _ _ _ HR (equal_refl kv.1)).
  - intros k' e' He' Hne.
    pose proof (entry_of_remove_other _ (a, kv) _ _ _ Hne He') as He''.
    split; [exact (at_present _ _ _ _ _ _ _ _ _ HR' He'')|].
    apply entry_of_Some in He'' as [Hin _].
    exact (read_ref_spec _ _ _ _ _ _ _ _ HR' Hin).
Qed.

(** X11 (stable nodes): inserting a new key, with or without a rehash,
    returns a cursor at the new pair, which [find] then returns too, and
    keeps every cursor and reference to an older entry valid: each older
    key is still at the same node with the same value. *)
Theorem X11_insert_keeps_entries_in_place s this h t b es bc k v :
  Rep s this h t b es bc → (bc < 2 ^ 63)%N → entry_of k es = None →
  ∃ pos s',
    insert (Some this) (k, v) s = Ret (pos, true) s' ∧
    operator_deref pos s' = Ret (k, v) s' ∧
    find (Some this) k s' = Ret pos s' ∧
    count (Some this) k s' = Ret 1%N s' ∧
    (∀ k' e', entry_of k' es = Some e' →
       find (Some this) k' s' = Ret (mkIt (Some e'.1) (Some this)) s' ∧
       operator_deref (mkIt (Some e'.1) (Some this)) s' = Ret e'.2 s' ∧
       at_ (Some this) k' s' = Ret (Some e'.1) s' ∧
       read_ref (Some e'.1) s' = Ret e'.2.2 s').
Proof.
  intros HR Hbc He.
  destruct (insert_new_spec s this h t b es bc k v HR He (λ _, Hbc))
    as (a & b' & s' & E & HR' & _).
  pose proof (entry_of_snoc_new _ _ (a, (k, v)) He (equal_refl k)) as He'.
  exists (mkIt (Some a) (Some this)), s'. split_and!; [done| | | |].
  - apply entry_of_Some in He' as [Hin _].
    exact (operator_deref_spec _ _ _ _ _ _ _ _ HR' Hin).
  - by rewrite (find_spec _ _ _ _ _ _ _ k HR'), He'.
  - by rewrite (count_spec _ _ _ _ _ _ _ k HR'), He'.
  - intros k' e' Hk'.
    pose proof (entry_of_other_snoc _ _ _ (a, (k, v)) Hk') as Hk''.
    apply entry_of_Some in Hk'' as Hin. destruct Hin as [Hin _].
    split_and!.
    + by rewrite (find_spec _ _ _ _ _ _ _ k' HR'), Hk''.
    + exact (operator_deref_spec _ _ _ _ _ _ _ _ HR' Hin).
    + exact (at_present _ _ _ _ _ _ _ _ _ HR' Hk'').
    + exact (read_ref_spec _ _ _ _ _ _ _ _ HR' Hin).
Qed.

(** ** Cursors follow the insertion order *)

Lemma positions_entry_lookup h t es i (e : entry) :
  es !! i = Some e → positions h t es !! S i = Some e.1.
Proof.
  intros He. unfold positions. simpl. apply lookup_app_l_Some.
  by rewrite list_lookup_fmap, He.
Qed.

Lemma cursor_inc_entries s this h t b es bc i (e e' : entry) :
  Rep s this h t b es bc → es !! i = Some e → es !! S i = Some e' →
  operator_inc (mkIt (Some e.1) (Some this)) s = Ret (mkIt (Some e'.1) (Some this)) s ∧
  operator_dec (mkIt (Some e'.1) (Some this)) s = Ret (mkIt (Some e.1) (Some this)) s.
Proof.
  intros HR He He'.
  pose proof (positions_entry_lookup h t _ _ _ He) as Hp.
  pose proof (positions_entry_lookup h t _ _ _ He') as Hp'.
  split.
  - by rewrite (operator_inc_spec _ _ _ _ _ _ _ _ _ HR Hp), Hp'.
  - by rewrite (operator_dec_spec _ _ _ _ _ _ _ _ _ HR Hp'), Hp.
Qed.

Lemma cursor_inc_last s this h t b es bc (e : entry) :
  Rep s this h t b es bc → last es = Some e →
  operator_inc (mkIt (Some e.1) (Some this)) s = Ret (mkIt (Some t) (Some this)) s ∧
  operator_dec (mkIt (Some t) (Some this)) s = Ret (mkIt (Some e.1) (Some this)) s.
Proof.
  intros HR Hl. rewrite last_lookup in Hl.
  destruct es as [|e0 es0] eqn:Hes; [done|]. rewrite <-Hes in *.
  assert (Hlen : length es = S (length es0)) by (by rewrite Hes).
  rewrite Hlen in Hl. simpl in Hl.
  pose proof (positions_entry_lookup h t _ _ _ Hl) as Hp.
  pose proof (positions_last h t es) as Hp'. rewrite Hlen in Hp'.
  split.
  - by rewrite (operator_inc_spec _ _ _ _ _ _ _ _ _ HR Hp), Hp'.
  - by rewrite (operator_dec_spec _ _ _ _ _ _ _ _ _ HR Hp'), Hp.
Qed.

(** X12 (bidirectional traversal): [begin()] is at the first entry;
    advancing from an entry reaches the entry inserted next and retreating
    from that one comes back; advancing from the last entry reaches
    [end()] and retreating from [end()] reaches the last entry;
    dereferencing a cursor at an entry yields its pair; the postfix forms
    move the same way and return the cursor as it was. *)
Theorem X12_cursors_follow_insertion_order s this h t b es bc :
  Rep s this h t b es bc →
  (∀ e, es !! 0%nat = Some e →
     begin (Some this) s = Ret (mkIt (Some e.1) (Some this)) s) ∧
  (∀ i e e', es !! i = Some e → es !! S i = Some e' →
     operator_inc (mkIt (Some e.1) (Some this)) s = Ret (mkIt (Some e'.1) (Some this)) s ∧
     operator_dec (mkIt (Some e'.1) (Some this)) s = Ret (mkIt (Some e.1) (Some this)) s) ∧
  (∀ e, last es = Some e →
     operator_inc (mkIt (Some e.1) (Some this)) s = end_ (Some this) s ∧
     (it ← end_ (Some this); operator_dec it) s = Ret (mkIt (Some e.1) (Some this)) s) ∧
  (∀ e, e ∈ es →
     operator_deref (mkIt (Some e.1) (Some this)) s = Ret e.2 s ∧
     (it ← operator_inc (mkIt (Some e.1) (Some this)); operator_dec it) s
     = Ret (mkIt (Some e.1) (Some this)) s) ∧
  (∀ it it', operator_inc it s = Ret it' s → operator_inc_post it s = Ret (it, it') s) ∧
  (∀ it it', operator_dec it s = Ret it' s → operator_dec_post it s = Ret (it, it') s).
Proof.
  intros HR. split_and!.
  - intros e He. rewrite (begin_spec _ _ _ _ _ _ _ HR). by destruct es as [|? ?]; simplify_eq/=.
  - intros i e e' He He'. by eapply cursor_inc_entries.
  - intros e He. destruct (cursor_inc_last _ _ _ _ _ _ _ _ HR He) as [Ei Ed].
    pose proof (end_spec _ _ _ _ _ _ _ HR) as Ee.
    split; [by rewrite Ei, Ee|by rewrite (run_bind _ _ _ _ _ Ee)].
  - intros e [i He]%list_elem_of_lookup.
    split; [eapply operator_deref_spec; [done|by eapply list_elem_of_lookup_2]|].
    destruct (es !! S i) as [e'|] eqn:He'.
    + destruct (cursor_inc_entries _ _ _ _ _ _ _ _ _ _ HR He He') as [Ei Ed].
      by rewrite (run_bind _ _ _ _ _ Ei).
    + assert (Hl : last es = Some e).
      { rewrite last_lookup. apply lookup_ge_None in He'.
        pose proof (lookup_lt_Some _ _ _ He) as Hlt.
        assert (i = pred (length es)) as -> by lia. done. }
      destruct (cursor_inc_last _ _ _ _ _ _ _ _ HR Hl) as [Ei Ed].
      by rewrite (run_bind _ _ _ _ _ Ei).
  - intros it it' E. by rewrite operator_inc_post_eq, E.
  - intros it it' E. by rewrite operator_dec_post_eq, E.
Qed.

(** ** Construction and destruction *)

(** X13 (default constructor): a default-constructed container has 16
    buckets and no entries: [size()] is 0, [empty()] holds, [begin()] is
    [end()], no key is found; constructing it changes no object that
    existed before. *)
Theorem X13_default_constructor s this m :
  map_at s this = Some m →
  ∃ s',
    ctor (Some this) s = Ret () s' ∧
    size (Some this) s' = Ret 0%N s' ∧
    empty (Some this) s' = Ret true s' ∧
    get_bucket_count (Some this) s' = Ret 16%N s' ∧
    iterate (Some this) s' = Ret [] s' ∧
    begin (Some this) s' = end_ (Some this) s' ∧
    (∀ k, count (Some this) k s' = Ret 0%N s' ∧
          at_ (Some this) k s' = Throw index_out_of_bound s') ∧
    (∀ x, is_Some (s !! x) → x ≠ this → s' !! x = s !! x).
Proof.
  intros Hm.
  destruct (ctor_spec s this m Hm) as (h & t & b & s' & E & HR & Hh & Ht & Hb & Hfr).
  exists s'. split_and!; [done| | | | | | |].
  - by rewrite (size_spec _ _ _ _ _ _ _ HR).
  - by rewrite (empty_spec _ _ _ _ _ _ _ HR).
  - by rewrite (bucket_count_spec _ _ _ _ _ _ _ HR).
  - by rewrite (iterate_spec _ _ _ _ _ _ _ HR).
  - by rewrite (begin_spec _ _ _ _ _ _ _ HR), (end_spec _ _ _ _ _ _ _ HR).
  - intros k. split; [by rewrite (count_spec _ _ _ _ _ _ _ k HR)|by eapply at_absent].
  - intros x [o Hx] Hne. apply Hfr.
    rewrite !not_elem_of_union, !not_elem_of_singleton.
    split_and!; [done|..]; intros ->; congruence.
Qed.

(** X14 (destructor): the destructor frees every node, both sentinels and
    the bucket array, and touches nothing else; the container object
    itself is left to its owner. *)
Theorem X14_destructor_frees_the_container s this h t b es bc :
  Rep s this h t b es bc →
  ∃ s',
    dtor (Some this) s = Ret () s' ∧
    s' !! h = None ∧ s' !! t = None ∧ s' !! b = None ∧
    (∀ x, x ∈ es.*1 → s' !! x = None) ∧
    s' !! this = s !! this ∧
    (∀ x, x ∉ footprint this h t b es → s' !! x = s !! x).
Proof.
  intros HR.
  destruct (clear_all_spec _ _ _ _ _ _ _ HR) as (s' & E & Hm & Hgone & Hfr).
  pose proof (rep_this _ _ _ _ _ _ _ HR) as Hthis.
  assert (Hne : ∀ x, x = h ∨ x = t ∨ x = b ∨ x ∈ es.*1 → x ≠ this).
  { intros x Hx ->. destruct (Rep_ne _ _ _ _ _ _ _ HR) as (_ & _ & _ & _).
    pose proof (Rep_order _ _ _ _ _ _ _ HR) as (Hh & _ & Hd & Ht & _).
    destruct (rep_buckets _ _ _ _ _ _ _ HR) as (bs & Hbs & _).
    destruct Hx as [->|[->|[->|Hx]]].
    - apply (node_map_ne s h h); [by eapply fld_is_node|by eexists|done].
    - apply (node_map_ne s t t); [by eapply fld_is_node|by eexists|done].
    - apply (map_arr_ne s b b); [by eexists|by eexists|done].
    - apply (node_map_ne s this this); [|by eexists|done].
      apply (dll_is_node _ _ _ _ _ Hd). done. }
  exists s'. split_and!; [done| | | | | |done].
  - apply Hgone; [apply footprint_elem; tauto|apply Hne; tauto].
  - apply Hgone; [apply footprint_elem; tauto|apply Hne; tauto].
  - apply Hgone; [apply footprint_elem; tauto|apply Hne; tauto].
  - intros x Hx. apply Hgone; [apply footprint_elem; tauto|apply Hne; tauto].
  - rewrite Hthis in Hm. apply map_at_Some in Hm, Hthis. congruence.
Qed.

(** ** rehash *)

(** X15 (rehash): rehashing to any bucket count that respects the load
    factor keeps the entries, their order, their nodes and [size()], sets
    the bucket count, and files every key under its hash modulo the new
    count. *)
Theorem X15_rehash_keeps_entries s this h t b es bc nbc :
  Rep s this h t b es bc →
  (0 < nbc < 2 ^ 64)%N → (4 * N.of_nat (length es) ≤ 3 * nbc)%N →
  ∃ s',
    rehash (Some this) nbc s = Ret () s' ∧
    get_bucket_count (Some this) s' = Ret nbc s' ∧
    iterate (Some this) s' = Ret es.*2 s' ∧
    size (Some this) s' = Ret (N.of_nat (length es)) s' ∧
    (∀ k it, find (Some this) k s = Ret it s → find (Some this) k s' = Ret it s') ∧
    (∀ k, get_bucket_index (Some this) k s' = Ret (hash_func k mod nbc)%N s') ∧
    (∀ k e, entry_of k es = Some e →
       find_in_bucket (Some this) k (hash_func k mod nbc)%N s' = Ret (Some e.1) s').
Proof.
  intros HR Hnbc Hload.
  destruct (rehash_spec s this h t b es bc nbc HR Hnbc Hload) as (b' & s' & E & HR' & _).
  exists s'. split_and!; [done| | | | | |].
  - by eapply bucket_count_spec.
  - by eapply iterate_spec.
  - by eapply size_spec.
  - intros k it. rewrite (find_spec _ _ _ _ _ _ _ k HR), (find_spec _ _ _ _ _ _ _ k HR').
    by intros [= <-].
  - intros k. rewrite (get_bucket_index_spec _ _ _ k (rep_this _ _ _ _ _ _ _ HR')); [done|].
    simpl. lia.
  - intros k e He. pose proof (find_in_bucket_spec _ _ _ _ _ _ _ k HR') as E'.
    by rewrite He in E'.
Qed.

End further_properties.

(** * Ownership of storage *)

Section storage.

Context {Key T : Type} {KeyHash : Hash Key} {KeyEqual : Equal Key}
  {TDefault : DefaultConstructible T} {laws : KeyLaws Key}.

Implicit Types (s : gmap positive (object Key T)) (a x : positive).
Implicit Types (es : list (positive * (Key * T))).
Abbreviation entry := (positive * (Key * T))%type (only parsing).

(** ** The container owns exactly its footprint *)

Lemma footprint_list this h t b es :
  footprint this h t b es = list_to_set (this :: b :: h :: es.*1 ++ [t]).
Proof.
  apply set_eq. intros x.
  rewrite footprint_elem, elem_of_list_to_set, !elem_of_cons, elem_of_app,
    list_elem_of_singleton.
  tauto.
Qed.

Lemma footprint_size s this h t b es bc :
  Rep s this h t b es bc →
  base.size (footprint this h t b es) = (4 + length es)%nat.
Proof.
  intros HR. rewrite footprint_list, size_list_to_set.
  { simpl. rewrite length_app, length_fmap. simpl. lia. }
  pose proof (rep_nodup _ _ _ _ _ _ _ HR) as Hnd.
  pose proof (rep_order _ _ _ _ _ _ _ HR) as Hd.
  pose proof (rep_this _ _ _ _ _ _ _ HR) as Hthis.
  destruct (rep_buckets _ _ _ _ _ _ _ HR) as (bs & Hbs & _).
  assert (Hnode : ∀ x, x ∈ h :: es.*1 ++ [t] → is_Some (node_at s x)).
  { intros x Hx. by apply (dll_is_node _ _ _ _ _ Hd). }
  apply NoDup_cons. split; [|apply NoDup_cons; split; [|done]].
  - rewrite elem_of_cons. intros [->|Hx].
    + apply (map_arr_ne s b b); [by eexists|by eexists|done].
    + apply (node_map_ne s this this); [by apply Hnode|by eexists|done].
  - intros Hx. apply (node_arr_ne s b b); [by apply Hnode|by eexists|done].
Qed.

Lemma extends_dom s0 s (F : gset positive) :
  extends s0 s F → (∀ x, x ∈ F → is_Some (s !! x)) →
  dom s = F ∪ dom s0 ∧ F ## dom s0.
Proof.
  intros [Hout Hin] Hall. split.
  - apply set_eq. intros x. rewrite elem_of_union, !elem_of_dom.
    destruct (decide (x ∈ F)) as [HF|HF].
    + split; [by left|]. intros _. by apply Hall.
    + rewrite (Hout x HF). tauto.
  - intros x HF Hx. apply elem_of_dom in Hx as [o Hx]. rewrite (Hin x HF) in Hx. done.
Qed.

Lemma extends_size s0 s (F : gset positive) :
  extends s0 s F → (∀ x, x ∈ F → is_Some (s !! x)) →
  base.size s = (base.size F + base.size s0)%nat.
Proof.
  intros He Hall. destruct (extends_dom _ _ _ He Hall) as [Hdom Hdisj].
  by rewrite <-(size_dom s), Hdom, size_union, size_dom.
Qed.

(** When the store grew by no more than the container did, it holds no
    object that the container does not own. *)
Lemma extends_by_count s0 s s' this h t b es bc b' es' bc' :
  Rep s this h t b es bc → Rep s' this h t b' es' bc' →
  extends s0 s (footprint this h t b es) →
  frame (footprint this h t b es) s s' →
  (∀ x, x ∈ footprint this h t b' es' → x ∈ footprint this h t b es ∨ s !! x = None) →
  (base.size s' + length es ≤ base.size s + length es')%nat →
  extends s0 s' (footprint this h t b' es').
Proof.
  intros HR HR' Hext Hfr Hnew Hcount.
  pose proof Hext as [Hout Hin].
  assert (Hin' : ∀ x, x ∈ footprint this h t b' es' → s0 !! x = None).
  { intros x [Hx|Hx]%Hnew; [by apply Hin|].
    rewrite <-Hout; [done|]. intros Hfp.
    destruct (Rep_allocated _ _ _ _ _ _ _ _ HR Hfp). congruence. }
  assert (Hold : ∀ x, is_Some (s0 !! x) → s' !! x = s0 !! x).
  { intros x Hx.
    assert (x ∉ footprint this h t b es) as Hfp.
    { intros Hfp. rewrite (Hin x Hfp) in Hx. by destruct Hx. }
    rewrite <-(Hout x Hfp). apply Hfr; [done|]. by rewrite (Hout x Hfp). }
  assert (Hsub : footprint this h t b' es' ∪ dom s0 ⊆ dom s').
  { intros x [Hx|Hx]%elem_of_union; apply elem_of_dom.
    - by eapply Rep_allocated.
    - apply elem_of_dom in Hx. by rewrite (Hold x Hx). }
  assert (Hdisj : footprint this h t b' es' ## dom s0).
  { intros x Hfp Hx. apply elem_of_dom in Hx as [o Hx]. rewrite (Hin' x Hfp) in Hx. done. }
  assert (Heq : footprint this h t b' es' ∪ dom s0 = dom s').
  { apply set_subseteq_size_eq; [done|].
    rewrite size_union by done.
    rewrite !size_dom, (footprint_size _ _ _ _ _ _ _ HR').
    pose proof (extends_size _ _ _ Hext (λ x, Rep_allocated _ _ _ _ _ _ _ x HR)) as Hs.
    rewrite (footprint_size _ _ _ _ _ _ _ HR) in Hs. lia. }
  split; [|done]. intros x Hx.
  destruct (s0 !! x) as [o|] eqn:H0.
  - rewrite <-H0. apply Hold. by rewrite H0.
  - apply not_elem_of_dom. rewrite <-Heq, not_elem_of_union. split; [done|].
    by apply not_elem_of_dom.
Qed.

(** The same when the operation says of every location what became of it. *)
Lemma extends_direct s0 s s' (F F' : gset positive) :
  extends s0 s F → F' ⊆ F →
  (∀ x, x ∉ F → s' !! x = s !! x) →
  (∀ x, x ∈ F → x ∉ F' → s' !! x = None) →
  extends s0 s' F'.
Proof.
  intros [Hout Hin] Hsub Hfr Hgone. split.
  - intros x Hx. destruct (decide (x ∈ F)) as [HF|HF].
    + by rewrite (Hgone x HF Hx), (Hin x HF).
    + by rewrite (Hfr x HF), (Hout x HF).
  - intros x Hx. apply Hin. by apply Hsub.
Qed.

Lemma exec_extends s0 s this h t b es bc o :
  Rep s this h t b es bc → extends s0 s (footprint this h t b es) →
  local_op this o → (bc < 2 ^ 63)%N →
  ∃ s' b' es' bc',
    finished (exec (Some this) o s) s' ∧
    Rep s' this h t b' es' bc' ∧
    extends s0 s' (footprint this h t b' es') ∧
    (bc' = bc ∨ (bc' = 2 * bc ∧ 3 * bc < 4 * (N.of_nat (length es) + 1))%N) ∧
    (length es' ≤ S (length es))%nat.
Proof.
  intros HR Hext Hloc Hbc.
  assert (Hunch : ∀ r : outcome Key T (), finished r s →
    ∃ s' b' es' bc',
      finished r s' ∧ Rep s' this h t b' es' bc' ∧
      extends s0 s' (footprint this h t b' es') ∧
      (bc' = bc ∨ (bc' = 2 * bc ∧ 3 * bc < 4 * (N.of_nat (length es) + 1))%N) ∧
      (length es' ≤ S (length es))%nat).
  { intros r Hfin. exists s, b, es, bc. split_and!; [done|done|done|by left|lia]. }
  assert (Hwrite : ∀ s1 b1 es1 a k0 v0 es2 bc1 v,
    Rep s1 this h t b1 (es1 ++ (a, (k0, v0)) :: es2) bc1 →
    extends s0 s1 (footprint this h t b1 (es1 ++ (a, (k0, v0)) :: es2)) →
    ∃ s', write_ref (Some a) v s1 = Ret () s' ∧
          Rep s' this h t b1 (es1 ++ (a, (k0, v)) :: es2) bc1 ∧
          extends s0 s' (footprint this h t b1 (es1 ++ (a, (k0, v)) :: es2))).
  { intros s1 b1 es1 a k0 v0 es2 bc1 v HR1 Hext1.
    destruct (write_ref_spec _ _ _ _ _ _ _ _ _ _ _ v HR1) as (s' & E & HR' & Hfr).
    exists s'. split_and!; [done|done|].
    rewrite (footprint_same_locs _ _ _ _ (es1 ++ (a, (k0, v0)) :: es2))
      by (by rewrite !fmap_app, !fmap_cons).
    eapply extends_direct; [done|done| |done].
    intros x Hx. apply Hfr. intros ->. apply Hx, footprint_elem.
    rewrite fmap_app, fmap_cons, elem_of_app, elem_of_cons. simpl. tauto. }
  destruct o as [k v|k| |k|k v|other|k|k|k]; simpl in *.
  - (* insert *)
    destruct (entry_of k es) as [e|] eqn:He.
    + pose proof (insert_existing_spec _ _ _ _ _ _ _ _ v _ HR He) as E.
      apply Hunch. rewrite (run_bind _ _ _ _ _ E). left. by exists ().
    + destruct (insert_new_spec s this h t b es bc k v HR He (λ _, Hbc))
        as (a & b' & s' & E & HR' & _ & Hfr & Hnew).
      exists s', b', (es ++ [(a, (k, v))]), (grown (length es) bc).
      split_and!; [|done| |apply grown_cases|rewrite length_app; simpl; lia].
      * left. exists (). by rewrite (run_bind _ _ _ _ _ E).
      * eapply extends_by_count; [exact HR|exact HR'|done|done|done|].
        pose proof (spends_insert 0 _ _ _ _ _ E). rewrite length_app. simpl. lia.
  - (* erase(find(k)) *)
    rewrite (run_bind _ _ _ _ _ (find_spec _ _ _ _ _ _ _ k HR)).
    destruct (entry_of k es) as [e|] eqn:He.
    + destruct (entry_of_split _ _ _ He) as (es1 & es2 & ->). destruct e as [a kv].
      destruct (erase_spec _ _ _ _ _ _ _ _ _ _ HR) as (s' & E & HR' & Ha & Hfr).
      exists s', b, (es1 ++ es2), bc.
      split_and!; [left; by exists ()|done| |by left|rewrite !length_app; simpl; lia].
      eapply extends_direct; [done| |done|].
      * intros x. rewrite !footprint_elem, !fmap_app, fmap_cons, !elem_of_app, elem_of_cons.
        tauto.
      * intros x. rewrite !footprint_elem, !fmap_app, fmap_cons, !elem_of_app, elem_of_cons.
        simpl. intros Hx Hnx. assert (x = a) as -> by tauto. done.
    + apply Hunch. right. exists invalid_iterator.
      rewrite erase_unfold. apply run_bind_throw.
      rewrite (erase_guard_spec _ _ _ _ _ _ _ _ HR). simpl.
      by rewrite bool_decide_eq_true_2 by auto.
  - (* clear *)
    destruct (clear_spec _ _ _ _ _ _ _ HR) as (s' & E & HR' & Hgone & Hfr).
    exists s', b, [], bc.
    split_and!; [left; by exists ()|done| |by left|simpl; lia].
    eapply extends_direct; [done| |done|].
    + intros x. rewrite !footprint_elem. simpl. rewrite elem_of_nil. tauto.
    + intros x. rewrite !footprint_elem. simpl. rewrite elem_of_nil.
      intros Hx Hnx. apply Hgone. tauto.
  - (* m[k] *)
    destruct (entry_of k es) as [e|] eqn:He.
    + pose proof (operator_index_present _ _ _ _ _ _ _ _ _ HR He) as E.
      apply Hunch. rewrite (run_bind _ _ _ _ _ E). left. by exists ().
    + destruct (operator_index_absent s this h t b es bc k HR He (λ _, Hbc))
        as (a & b' & s' & E & HR' & _ & Hfr & Hnew).
      exists s', b', (es ++ [(a, (k, T_default))]), (grown (length es) bc).
      split_and!; [|done| |apply grown_cases|rewrite length_app; simpl; lia].
      * left. exists (). by rewrite (run_bind _ _ _ _ _ E).
      * eapply extends_by_count; [exact HR|exact HR'|done|done|done|].
        pose proof (spends_operator_index 0 _ _ _ _ _ E). rewrite length_app. simpl. lia.
  - (* m[k] = v *)
    destruct (entry_of k es) as [e|] eqn:He.
    + rewrite (run_bind _ _ _ _ _ (operator_index_present _ _ _ _ _ _ _ _ _ HR He)).
      destruct (entry_of_split _ _ _ He) as (es1 & es2 & ->). destruct e as [a [k0 v0]].
      destruct (Hwrite _ _ _ _ _ _ _ _ v HR Hext) as (s' & E & HR' & Hext').
      exists s', b, (es1 ++ (a, (k0, v)) :: es2), bc.
      split_and!; [left; by exists ()|done|done|by left|rewrite !length_app; simpl; lia].
    + destruct (operator_index_absent s this h t b es bc k HR He (λ _, Hbc))
        as (a & b' & s1 & E & HR1 & _ & Hfr & Hnew).
      rewrite (run_bind _ _ _ _ _ E).
      assert (Hext1 : extends s0 s1 (footprint this h t b' (es ++ [(a, (k, T_default))]))).
      { eapply extends_by_count; [exact HR|exact HR1|done|done|done|].
        pose proof (spends_operator_index 0 _ _ _ _ _ E). rewrite length_app. simpl. lia. }
      destruct (Hwrite _ _ _ _ _ _ [] _ v HR1 Hext1) as (s' & E' & HR' & Hext').
      exists s', b', (es ++ [(a, (k, v))]), (grown (length es) bc).
      split_and!; [left; by exists ()|done|done|apply grown_cases|
                   rewrite length_app; simpl; lia].
  - (* m = m *)
    subst other. pose proof (operator_assign_self s (Some this)) as E.
    apply Hunch. rewrite (run_bind _ _ _ _ _ E). left. by exists ().
  - (* at *)
    destruct (entry_of k es) as [e|] eqn:He.
    + pose proof (at_present _ _ _ _ _ _ _ _ _ HR He) as E.
      apply Hunch. rewrite (run_bind _ _ _ _ _ E). left. by exists ().
    + pose proof (at_absent _ _ _ _ _ _ _ _ HR He) as E.
      apply Hunch. rewrite (run_bind_throw _ _ _ _ _ E). right. eauto.
  - (* find *)
    pose proof (find_spec _ _ _ _ _ _ _ k HR) as E.
    apply Hunch. rewrite (run_bind _ _ _ _ _ E). left. by exists ().
  - (* count *)
    pose proof (count_spec _ _ _ _ _ _ _ k HR) as E.
    apply Hunch. rewrite (run_bind _ _ _ _ _ E). left. by exists ().
Qed.

Lemma exec_all_extends s0 ops : ∀ s this h t b es bc cap,
  Rep s this h t b es bc → extends s0 s (footprint this h t b es) →
  Forall (local_op this) ops →
  bounded bc cap → (length es ≤ cap)%nat → (N.of_nat (cap + length ops) ≤ 2 ^ 60)%N →
  ∃ s' b' es' bc',
    finished (exec_all (Some this) ops s) s' ∧
    Rep s' this h t b' es' bc' ∧
    extends s0 s' (footprint this h t b' es').
Proof.
  induction ops as [|o ops IH]; intros s this h t b es bc cap HR Hext Hloc Hbd Hlen Hcap; simpl.
  - exists s, b, es, bc. split_and!; [left; by exists ()|done|done].
  - apply Forall_cons in Hloc as [Ho Hloc].
    destruct (exec_extends s0 s this h t b es bc o HR Hext Ho)
      as (s1 & b1 & es1 & bc1 & Hfin & HR1 & Hext1 & Hbc1 & Hlen1).
    { eapply bounded_lt; [done|]. simpl in Hcap. lia. }
    destruct Hfin as [[[] E]|[e E]].
    + destruct (IH s1 this h t b1 es1 bc1 (S cap) HR1 Hext1 Hloc)
        as (s' & b' & es' & bc' & Hfin' & HR' & Hext').
      { exact (bounded_step _ _ _ _ Hbd Hlen Hbc1). }
      { lia. }
      { simpl in Hcap. lia. }
      exists s', b', es', bc'. split_and!; [by eapply finished_bind_ret|done|done].
    + exists s1, b1, es1, bc1. split_and!; [by eapply finished_bind_throw|done|done].
Qed.

Lemma new_linked_hashmap_extends s0 :
  ∃ this h t b sa,
    new_linked_hashmap s0 = Ret (Some this) sa ∧
    Rep sa this h t b [] INITIAL_BUCKET_COUNT ∧
    extends s0 sa (footprint (Key:=Key) (T:=T) this h t b []).
Proof.
  set (this := fresh (dom s0)).
  assert (Hthis : s0 !! this = None) by apply fresh_unused.
  destruct (ctor_spec (<[this:=raw_storage]> s0) this (mkMap None None None 0 0))
    as (h & t & b & sa & E & HR & Hh & Ht & Hb & Hfr).
  { unfold map_at, raw_storage. by rewrite lookup_insert_eq. }
  exists this, h, t, b, sa. split_and!; [|done|].
  - unfold new_linked_hashmap.
    rewrite (run_bind _ _ _ _ _ (run_alloc s0 raw_storage)).
    by rewrite (run_bind _ _ _ _ _ E).
  - assert (Hne : ∀ x, (<[this:=raw_storage]> s0) !! x = None → x ≠ this ∧ s0 !! x = None).
    { intros x Hx. destruct (decide (x = this)) as [->|Hn].
      - by rewrite lookup_insert_eq in Hx.
      - by rewrite lookup_insert_ne in Hx. }
    split.
    + intros x Hx. rewrite footprint_elem in Hx. simpl in Hx. rewrite elem_of_nil in Hx.
      rewrite Hfr.
      * apply lookup_insert_ne. intros <-. tauto.
      * rewrite !not_elem_of_union, !not_elem_of_singleton. tauto.
    + intros x. rewrite footprint_elem. simpl. rewrite elem_of_nil.
      intros [->|[->|[->|[->|[]]]]]; [done|by apply Hne..].
Qed.

Lemma delete_linked_hashmap_extends s0 s this h t b es bc :
  Rep s this h t b es bc → extends s0 s (footprint this h t b es) →
  delete_linked_hashmap (Some this) s = Ret () s0.
Proof.
  intros HR [Hout Hin].
  destruct (clear_all_spec _ _ _ _ _ _ _ HR) as (s1 & E & Hm & Hgone & Hfr).
  assert (Hsome : is_Some (s1 !! this)).
  { rewrite (rep_this _ _ _ _ _ _ _ HR) in Hm. apply map_at_Some in Hm. eauto. }
  unfold delete_linked_hashmap, dtor.
  rewrite (run_bind _ _ _ _ _ E), (run_dealloc _ _ Hsome). f_equal.
  apply map_eq. intros x. destruct (decide (x = this)) as [->|Hne].
  - rewrite lookup_delete_eq. symmetry. apply Hin, footprint_elem. by left.
  - rewrite lookup_delete_ne by done.
    destruct (decide (x ∈ footprint this h t b es)) as [Hx|Hx].
    + by rewrite (Hgone x Hx Hne), (Hin x Hx).
    + by rewrite (Hfr x Hx), (Hout x Hx).
Qed.

(** X16 (no leak): a container made by [new], used for any sequence of
    statements on itself, whether they end normally or by an exception,
    and then deleted, leaves the store exactly as it was before [new]:
    every node, sentinel and bucket array it ever allocated has been freed,
    rehashes included, and nothing else was touched. *)
Theorem X16_no_storage_is_leaked (s0 : gmap positive (object Key T)) :
  ∃ this sa,
    new_linked_hashmap s0 = Ret (Some this) sa ∧
    ∀ ops,
      Forall (local_op this) ops → (N.of_nat (length ops) ≤ 2 ^ 60)%N →
      ∃ s1,
        finished (exec_all (Some this) ops sa) s1 ∧
        delete_linked_hashmap (Some this) s1 = Ret () s0.
Proof.
  destruct (new_linked_hashmap_extends s0) as (this & h & t & b & sa & E & HR & Hext).
  exists this, sa. split; [done|]. intros ops Hops Hlen.
  destruct (exec_all_extends s0 ops sa this h t b [] INITIAL_BUCKET_COUNT 0%nat HR Hext Hops)
    as (s1 & b1 & es1 & bc1 & Hfin & HR1 & Hext1); [by left|done|done|].
  exists s1. split; [done|]. by eapply delete_linked_hashmap_extends.
Qed.

(** ** Copies own their storage too *)

Lemma extends_tight s0 s' (F : gset positive) :
  (∀ x, x ∈ F → is_Some (s' !! x)) → (∀ x, x ∈ F → s0 !! x = None) →
  (∀ x, is_Some (s0 !! x) → s' !! x = s0 !! x) →
  (base.size s' ≤ base.size F + base.size s0)%nat →
  extends s0 s' F.
Proof.
  intros Hall Hin Hold Hcount.
  assert (Hsub : F ∪ dom s0 ⊆ dom s').
  { intros x [Hx|Hx]%elem_of_union; apply elem_of_dom; [by apply Hall|].
    apply elem_of_dom in Hx. by rewrite (Hold x Hx). }
  assert (Hdisj : F ## dom s0).
  { intros x HF Hx. apply elem_of_dom in Hx as [o Hx]. rewrite (Hin x HF) in Hx. done. }
  assert (Heq : F ∪ dom s0 = dom s').
  { apply set_subseteq_size_eq; [done|]. rewrite size_union by done.
    rewrite !size_dom. lia. }
  split; [|done]. intros x Hx.
  destruct (s0 !! x) as [o|] eqn:H0.
  - rewrite <-H0. apply Hold. by rewrite H0.
  - apply not_elem_of_dom. rewrite <-Heq, not_elem_of_union. split; [done|].
    by apply not_elem_of_dom.
Qed.

(** A container in the part of the store that another one extends. *)
Lemma Rep_extends s0 s (F : gset positive) orig ho to bo eso bco :
  Rep s0 orig ho to bo eso bco → extends s0 s F →
  Rep s orig ho to bo eso bco ∧ (∀ x, x ∈ F → x ∉ footprint orig ho to bo eso).
Proof.
  intros HRo [Hout Hin].
  assert (Hdisj : ∀ x, x ∈ F → x ∉ footprint orig ho to bo eso).
  { intros x HF Hx. destruct (Rep_allocated _ _ _ _ _ _ _ _ HRo Hx) as [o Ho].
    rewrite (Hin x HF) in Ho. done. }
  split; [|done]. eapply Rep_frame; [done|]. intros x Hx. apply Hout.
  intros HF. by apply (Hdisj x).
Qed.

Lemma new_linked_hashmap_copy_extends s orig ho to bo eso bco :
  Rep s orig ho to bo eso bco →
  ∃ cpy h t b es s1,
    new_linked_hashmap_copy (Some orig) s = Ret (Some cpy) s1 ∧
    Rep s1 cpy h t b es bco ∧ es.*2 = eso.*2 ∧
    extends s s1 (footprint cpy h t b es).
Proof.
  intros HRo. set (l := fresh (dom s)).
  assert (Hl : s !! l = None) by apply fresh_unused.
  assert (HR0 : Rep (<[l:=raw_storage]> s) orig ho to bo eso bco).
  { eapply Rep_frame; [done|]. intros x Hx. apply lookup_insert_ne.
    intros <-. destruct (Rep_allocated _ _ _ _ _ _ _ _ HRo Hx). congruence. }
  assert (Hne : l ≠ orig).
  { intros ->. destruct (Rep_allocated _ _ _ _ _ _ _ orig HRo); [|congruence].
    apply footprint_elem. by left. }
  destruct (deep_copy_tight (<[l:=raw_storage]> s) l (mkMap None None None 0 0) orig
              ho to bo eso bco)
    as (h & t & b & es & s1 & E & HR & Hes & _ & _ & Hfr & Hnew & Hcnt);
    [unfold map_at, raw_storage; by rewrite lookup_insert_eq|done|done|].
  exists l, h, t, b, es, s1. split_and!; [|done|done|].
  - unfold new_linked_hashmap_copy, copy_ctor.
    rewrite (run_bind _ _ _ _ _ (run_alloc s raw_storage)).
    by rewrite (run_bind _ _ _ _ _ E).
  - apply extends_tight.
    + intros x Hx. by eapply Rep_allocated.
    + intros x [->|Hx]%Hnew; [done|].
      destruct (decide (x = l)) as [->|Hxl]; [done|]. by rewrite lookup_insert_ne in Hx.
    + intros x Hx.
      assert (x ≠ l) as Hxl by (intros ->; rewrite Hl in Hx; by destruct Hx).
      rewrite <-(lookup_insert_ne s l x raw_storage) by done.
      apply Hfr; [by apply not_elem_of_singleton|]. by rewrite lookup_insert_ne.
    + rewrite (footprint_size _ _ _ _ _ _ _ HR).
      rewrite map_size_insert_None in Hcnt by done.
      assert (length es = length eso) by (by rewrite <-(length_fmap snd es), Hes, length_fmap).
      lia.
Qed.

(** Copy assignment releases what the container held and owns what it
    allocates. *)
Lemma operator_assign_extends s0 s this h t b es bc other ho to bo eso bco :
  Rep s this h t b es bc → extends s0 s (footprint this h t b es) →
  Rep s0 other ho to bo eso bco →
  ∃ h' t' b' es' s',
    operator_assign (Some this) (Some other) s = Ret (Some this) s' ∧
    Rep s' this h' t' b' es' bco ∧ es'.*2 = eso.*2 ∧
    extends s0 s' (footprint this h' t' b' es').
Proof.
  intros HR Hext HRo0. pose proof Hext as [Hout Hin].
  destruct (Rep_extends _ _ _ _ _ _ _ _ _ HRo0 Hext) as [HRo Hdisj].
  assert (Hne : this ≠ other).
  { intros ->. apply (Hdisj other); apply footprint_elem; by left. }
  destruct (clear_all_spec _ _ _ _ _ _ _ HR) as (s1 & E1 & Hm1 & Hgone & Hkeep).
  assert (HRo1 : Rep s1 other ho to bo eso bco).
  { eapply Rep_frame; [done|]. intros x Hx. apply Hkeep. intros ?. by eapply Hdisj. }
  rewrite (rep_this _ _ _ _ _ _ _ HR) in Hm1.
  destruct (deep_copy_tight s1 this _ other ho to bo eso bco Hm1 Hne HRo1)
    as (h' & t' & b' & es' & s' & E & HR' & Hes & _ & _ & Hfr & Hnew & Hcnt).
  exists h', t', b', es', s'. split_and!; [|done|done|].
  - unfold operator_assign. rewrite decide_True by congruence.
    erewrite run_bind; [done|]. by rewrite (run_bind _ _ _ _ _ E1).
  - assert (Hthis0 : s0 !! this = None) by (apply Hin, footprint_elem; by left).
    assert (Hs1 : ∀ x, x ≠ this → s1 !! x = s0 !! x).
    { intros x Hx. destruct (decide (x ∈ footprint this h t b es)) as [Hfp|Hfp].
      - by rewrite (Hgone x Hfp Hx), (Hin x Hfp).
      - by rewrite (Hkeep x Hfp), (Hout x Hfp). }
    assert (Hext1 : extends s0 s1 {[this]}).
    { split.
      - intros x Hx%not_elem_of_singleton. by apply Hs1.
      - by intros x ->%elem_of_singleton. }
    apply extends_tight.
    + intros x Hx. by eapply Rep_allocated.
    + intros x [->|Hx]%Hnew; [done|].
      destruct (decide (x = this)) as [->|Hxt]; [done|]. by rewrite <-Hs1.
    + intros x Hx.
      assert (x ≠ this) as Hxt by (intros ->; rewrite Hthis0 in Hx; by destruct Hx).
      rewrite <-(Hs1 x Hxt). apply Hfr; [by apply not_elem_of_singleton|].
      by rewrite (Hs1 x Hxt).
    + rewrite (footprint_size _ _ _ _ _ _ _ HR').
      assert (base.size s1 = (base.size ({[this]} : gset positive) + base.size s0)%nat) as Hsz.
      { apply extends_size; [done|]. intros x ->%elem_of_singleton.
        apply map_at_Some in Hm1. eauto. }
      rewrite size_singleton in Hsz.
      assert (length es' = length eso) by (by rewrite <-(length_fmap snd es'), Hes, length_fmap).
      lia.
Qed.

Lemma exec_all_extends_copy s0 orig ho to bo eso bco ops : ∀ s cpy h t b es bc cap,
  Rep s0 orig ho to bo eso bco →
  Rep s cpy h t b es bc → extends s0 s (footprint cpy h t b es) →
  Forall (op_on_copy cpy orig) ops →
  bounded bc cap → (length es ≤ cap)%nat → (length eso ≤ cap)%nat → (bco ≤ 2 ^ 62)%N →
  (N.of_nat (cap + length ops) ≤ 2 ^ 60)%N →
  ∃ s' h' t' b' es' bc',
    finished (exec_all (Some cpy) ops s) s' ∧
    Rep s' cpy h' t' b' es' bc' ∧
    extends s0 s' (footprint cpy h' t' b' es').
Proof.
  induction ops as [|o ops IH];
    intros s cpy h t b es bc cap HRo HR Hext Hops Hbd Hlen Hleno Hbco Hcap; simpl.
  - exists s, h, t, b, es, bc. split_and!; [left; by exists ()|done|done].
  - apply Forall_cons in Hops as [Ho Hops].
    assert (Hstep : ∃ s1 h1 t1 b1 es1 bc1,
      finished (exec (Some cpy) o s) s1 ∧
      Rep s1 cpy h1 t1 b1 es1 bc1 ∧ extends s0 s1 (footprint cpy h1 t1 b1 es1) ∧
      bounded bc1 (S cap) ∧ (length es1 ≤ S cap)%nat).
    { assert (local_op cpy o ∨ o = Assign (Some orig)) as [Hl| ->].
      { destruct o; simpl in *; try (by left). destruct Ho as [->| ->]; [by left|by right]. }
      - destruct (exec_extends s0 s cpy h t b es bc o HR Hext Hl)
          as (s1 & b1 & es1 & bc1 & Hfin & HR1 & Hext1 & Hbc1 & Hlen1).
        { eapply bounded_lt; [done|]. simpl in Hcap. lia. }
        exists s1, h, t, b1, es1, bc1.
        split_and!; [done|done|done|exact (bounded_step _ _ _ _ Hbd Hlen Hbc1)|lia].
      - destruct (operator_assign_extends s0 s cpy h t b es bc orig ho to bo eso bco HR Hext HRo)
          as (h1 & t1 & b1 & es1 & s1 & E & HR1 & Hes1 & Hext1).
        exists s1, h1, t1, b1, es1, bco. split_and!; [|done|done|by left|].
        + left. exists (). simpl. by rewrite (run_bind _ _ _ _ _ E).
        + rewrite <-(length_fmap snd), Hes1, length_fmap. lia. }
    destruct Hstep as (s1 & h1 & t1 & b1 & es1 & bc1 & Hfin & HR1 & Hext1 & Hbd1 & Hlen1).
    destruct Hfin as [[[] E]|[e E]].
    + destruct (IH s1 cpy h1 t1 b1 es1 bc1 (S cap) HRo HR1 Hext1 Hops Hbd1 Hlen1)
        as (s' & h' & t' & b' & es' & bc' & Hfin' & HR' & Hext'); [lia|done| |].
      { simpl in Hcap. lia. }
      exists s', h', t', b', es', bc'. split_and!; [by eapply finished_bind_ret|done|done].
    + exists s1, h1, t1, b1, es1, bc1.
      split_and!; [by eapply finished_bind_throw|done|done].
Qed.

(** X17 (temporary copy): a copy constructed from a container, used for
    any statements on itself, assignments from the original included, and
    then deleted, leaves the whole store, with the original in it, exactly
    as it was before the copy was made; in particular copy assignment
    frees what the destination held before. *)
Theorem X17_copy_and_delete_restore_the_store s orig ho to bo eso bco :
  Rep s orig ho to bo eso bco → (bco ≤ 2 ^ 62)%N →
  ∃ cpy s1,
    new_linked_hashmap_copy (Some orig) s = Ret (Some cpy) s1 ∧
    iterate (Some cpy) s1 = Ret eso.*2 s1 ∧
    ∀ ops,
      Forall (op_on_copy cpy orig) ops →
      (N.of_nat (length eso + length ops) ≤ 2 ^ 60)%N →
      ∃ s2,
        finished (exec_all (Some cpy) ops s1) s2 ∧
        delete_linked_hashmap (Some cpy) s2 = Ret () s.
Proof.
  intros HRo Hbco.
  destruct (new_linked_hashmap_copy_extends s orig ho to bo eso bco HRo)
    as (cpy & h & t & b & es & s1 & E & HR & Hes & Hext).
  assert (Hlen : length es = length eso).
  { by rewrite <-(length_fmap snd es), Hes, length_fmap. }
  exists cpy, s1. split_and!; [done| |].
  { by rewrite (iterate_spec _ _ _ _ _ _ _ HR), Hes. }
  intros ops Hops Hcap.
  destruct (exec_all_extends_copy s orig ho to bo eso bco ops s1 cpy h t b es bco (length eso)
              HRo HR Hext Hops)
    as (s2 & h2 & t2 & b2 & es2 & bc2 & Hfin & HR2 & Hext2); [by left|lia|done|done|done|].
  exists s2. split; [done|]. by eapply delete_linked_hashmap_extends.
Qed.

End storage.

(** * The sample containers *)

#[local] Instance laws_N : KeyLaws N.
Proof.
  split; unfold equal_func, equal_to_N, hash_func, hash_N.
  - apply N.eqb_refl.
  - apply N.eqb_sym.
  - intros k1 k2 k3 ->%N.eqb_eq ->%N.eqb_eq. apply N.eqb_refl.
  - by intros k1 k2 ->%N.eqb_eq.
Qed.

(** ** The sample containers are well formed *)

Ltac sample_ctor s0 HR :=
  let h := fresh "h" in let t := fresh "t" in let b := fresh "b" in
  let s1 := fresh "s" in let E := fresh "E" in let Hm := fresh "Hm" in
  destruct (ctor_spec s0 1%positive (mkMap None None None 0 0) eq_refl)
    as (h & t & b & s1 & E & HR & _);
  vm_compute in E; injection E as <-;
  pose proof (rep_this _ _ _ _ _ _ _ HR) as Hm;
  vm_compute in Hm; injection Hm as <- <- <-.

Ltac sample_insert HR k v :=
  let a := fresh "a" in let b' := fresh "b" in let s2 := fresh "s" in
  let E := fresh "E" in let HR2 := fresh "HR" in let Hb := fresh "Hb" in
  destruct (insert_new_spec _ _ _ _ _ _ _ k v HR eq_refl) as (a & b' & s2 & E & HR2 & Hb & _);
  [intros; done|];
  vm_compute in E; injection E as <- <-;
  specialize (Hb eq_refl); subst b';
  clear HR; rename HR2 into HR.

Lemma empty_store_Rep : Rep empty_store 1 2 3 4 [] 16.
Proof.
  sample_ctor (<[1%positive:=raw_storage]> (∅ : gmap positive (object N N))) HR.
  vm_compute. vm_compute in HR. exact HR.
Qed.

Lemma sample_store_Rep :
  Rep sample_store 1 2 3 4 sample_entries 16.
Proof.
  sample_ctor (<[1%positive:=raw_storage]> (∅ : gmap positive (object N N))) HR.
  sample_insert HR 17%N 170%N.
  sample_insert HR 1%N 10%N.
  vm_compute. vm_compute in HR. exact HR.
Qed.

Lemma full_store_Rep : Rep full_store 1 2 3 4 full_entries 16.
Proof.
  sample_ctor (<[1%positive:=raw_storage]> (∅ : gmap positive (object N N))) HR.
  sample_insert HR 1%N 10%N. sample_insert HR 2%N 20%N. sample_insert HR 3%N 30%N.
  sample_insert HR 4%N 40%N. sample_insert HR 5%N 50%N. sample_insert HR 6%N 60%N.
  sample_insert HR 7%N 70%N. sample_insert HR 8%N 80%N. sample_insert HR 9%N 90%N.
  sample_insert HR 10%N 100%N. sample_insert HR 11%N 110%N. sample_insert HR 12%N 120%N.
  vm_compute. vm_compute in HR. exact HR.
Qed.

(** ** The theorems at the sample containers *)

Lemma C1_insertion_order_traversal_witness :
  distinct_inserts [] inserts_and_lookups = true ∧
  ∃ s',
    (ctor (Some 1%positive);; exec_all (Some 1%positive) inserts_and_lookups)
      (<[1%positive:=raw_storage]> ∅) = Ret () s' ∧
    iterate (Some 1%positive) s' = Ret [(3, 30); (1, 10); (19, 190)]%N s' ∧
    size (Some 1%positive) s' = Ret 3%N s'.
Proof.
  split; [reflexivity|].
  apply (C1_insertion_order_traversal (<[1%positive:=raw_storage]> ∅) 1%positive
           (mkMap None None None 0 0) inserts_and_lookups); [reflexivity|reflexivity|done].
Defined.

Lemma C2_reinsertion_stability_witness :
  Rep sample_store 1 2 3 4 sample_entries 16 ∧
  entry_of 17%N sample_entries = Some (5%positive, (17, 170)%N) ∧
  insert (Some 1%positive) (17, 99)%N sample_store
  = Ret (mkIt (Some 5%positive) (Some 1%positive), false) sample_store ∧
  ∃ es1 es2 s1 pos s2,
    sample_entries = es1 ++ (5%positive, (17, 170)%N) :: es2 ∧
    (it ← find (Some 1%positive) 17%N; erase (Some 1%positive) it) sample_store = Ret () s1 ∧
    insert (Some 1%positive) (17, 99)%N s1 = Ret (pos, true) s2 ∧
    iterate (Some 1%positive) s2 = Ret (es1.*2 ++ es2.*2 ++ [(17, 99)%N]) s2 ∧
    operator_inc pos s2 = end_ (Some 1%positive) s2.
Proof.
  split; [exact sample_store_Rep|]. split; [reflexivity|].
  exact (C2_reinsertion_stability sample_store 1 2 3 4 sample_entries 16 17%N 99%N
           (5%positive, (17, 170)%N) sample_store_Rep eq_refl).
Defined.


Lemma C4_copy_assignment_shrinks :
  ∃ s', shrinking_assignment ∅ = Ret (32, 16)%N s'.
Proof. eexists. vm_compute. reflexivity. Qed.

Lemma C4_bucket_count_of_local_operations_witness :
  Rep full_store 1 2 3 4 full_entries 16 ∧
  Forall (local_op 1%positive)
    ([Insert 13 130] ++ [EraseKey 1; Clear; Assign (Some 1%positive)])%N ∧
  ∃ s1 bc1 s2 bc2,
    finished (exec_all (Some 1%positive) [Insert 13 130]%N full_store) s1 ∧
    get_bucket_count (Some 1%positive) s1 = Ret bc1 s1 ∧
    finished (exec_all (Some 1%positive) [EraseKey 1; Clear; Assign (Some 1%positive)]%N s1) s2 ∧
    get_bucket_count (Some 1%positive) s2 = Ret bc2 s2 ∧
    (16 ≤ bc1 ≤ bc2)%N.
Proof.
  assert (Hops : Forall (local_op (Key:=N) (T:=N) 1%positive)
            ([Insert 13 130] ++ [EraseKey 1; Clear; Assign (Some 1%positive)])%N)
    by (repeat constructor).
  split; [exact full_store_Rep|]. split; [exact Hops|].
  refine (proj1 (C4_bucket_count_of_local_operations full_store 1 2 3 4 full_entries 16
                   [Insert 13 130]%N [EraseKey 1; Clear; Assign (Some 1%positive)]%N
                   full_store_Rep Hops _ _)); done.
Defined.

Lemma C5_retreat_throws_without_entries :
  new_linked_hashmap ∅ = Ret (Some 1%positive) empty_store ∧
  size (Some 1%positive) empty_store = Ret 0%N empty_store ∧
  iterate (Some 1%positive) empty_store = Ret [] empty_store ∧
  (e ← end_ (Some 1%positive); operator_dec e) empty_store
  = Throw invalid_iterator empty_store.
Proof. split_and!; vm_compute; reflexivity. Qed.

Lemma C5_invalid_position_witness :
  Rep sample_store 1 2 3 4 sample_entries 16 ∧
  erase (Some 1%positive) (mkIt (Some 3%positive) (Some 1%positive)) sample_store
  = Throw invalid_iterator sample_store ∧
  operator_dec (mkIt (Some 5%positive) (Some 1%positive)) sample_store
  = Throw invalid_iterator sample_store ∧
  operator_inc (mkIt (Some 3%positive) (Some 1%positive)) sample_store
  = Throw invalid_iterator sample_store.
Proof.
  split; [exact sample_store_Rep|].
  destruct (C5_invalid_position sample_store 1 2 3 4 sample_entries 16 sample_store_Rep)
    as (Hc & _ & He & _).
  split; [apply He; right; left; reflexivity|].
  split.
  - refine (proj2 (proj1 (proj2 (proj2 (Hc 5%positive _))))  _);
      [simpl; constructor|vm_compute; reflexivity].
  - refine (proj2 (proj1 (Hc 3%positive _)) _);
      [simpl; repeat constructor|vm_compute; reflexivity].
Defined.

Lemma C6_key_not_found_witness :
  Rep sample_store 1 2 3 4 sample_entries 16 ∧
  at_ (Some 1%positive) 2%N sample_store = Throw index_out_of_bound sample_store ∧
  at_ (Some 1%positive) 1%N sample_store = Ret (Some 6%positive) sample_store ∧
  read_ref (Some 6%positive) sample_store = Ret 10%N sample_store.
Proof.
  split; [exact sample_store_Rep|].
  destruct (C6_key_not_found sample_store 1 2 3 4 sample_entries 16 2%N sample_store_Rep)
    as (_ & Habs & _).
  destruct (C6_key_not_found sample_store 1 2 3 4 sample_entries 16 1%N sample_store_Rep)
    as (Hpres & _).
  destruct (Hpres (6%positive, (1, 10)%N) eq_refl) as (Hat & _ & Hrd).
  split; [apply Habs; reflexivity|]. split; [exact Hat|exact Hrd].
Defined.

Lemma C7_insert_erase_round_trip_witness :
  Rep sample_store 1 2 3 4 sample_entries 16 ∧ (16 < 2 ^ 63)%N ∧
  (∃ pos s' r,
     insert (Some 1%positive) (33, 330)%N sample_store = Ret (pos, true) s' ∧
     at_ (Some 1%positive) 33%N s' = Ret r s' ∧
     read_ref r s' = Ret 330%N s') ∧
  (∃ s',
     (it ← find (Some 1%positive) 17%N; erase (Some 1%positive) it) sample_store = Ret () s' ∧
     count (Some 1%positive) 17%N s' = Ret 0%N s' ∧
     size (Some 1%positive) s' = Ret 1%N s').
Proof.
  split; [exact sample_store_Rep|]. split; [reflexivity|].
  split.
  - exact (proj1 (C7_insert_erase_round_trip sample_store 1 2 3 4 sample_entries 16 33%N
                    sample_store_Rep eq_refl) 330%N eq_refl).
  - exact (proj2 (C7_insert_erase_round_trip sample_store 1 2 3 4 sample_entries 16 17%N
                    sample_store_Rep eq_refl) (5%positive, (17, 170)%N) eq_refl).
Defined.

Lemma C8_copy_independence_witness :
  Rep sample_store 1 2 3 4 sample_entries 16 ∧ (16 ≤ 2 ^ 62)%N ∧
  ∃ cpy s1 s2,
    new_linked_hashmap_copy (Some 1%positive) sample_store = Ret (Some cpy) s1 ∧
    cpy ≠ 1%positive ∧
    iterate (Some cpy) s1 = Ret [(17, 170); (1, 10)]%N s1 ∧
    get_bucket_count (Some cpy) s1 = Ret 16%N s1 ∧
    finished (exec_all (Some cpy) [Clear; Insert 5 50; EraseKey 5]%N s1) s2 ∧
    iterate (Some 1%positive) s2 = Ret [(17, 170); (1, 10)]%N s2.
Proof.
  split; [exact sample_store_Rep|].
  assert (Hbc : (16 ≤ 2 ^ 62)%N) by done.
  split; [exact Hbc|].
  destruct (C8_copy_independence sample_store 1 2 3 4 sample_entries 16
              (new_linked_hashmap_copy (Some 1%positive)) sample_store_Rep Hbc
              (or_introl eq_refl))
    as (cpy & s1 & E & Hne & Hit & _ & Hcnt & _ & _ & _ & Hops).
  destruct (Hops [Clear; Insert 5 50; EraseKey 5]%N) as (s2 & Hfin & _ & Hit2);
    [repeat constructor|done|].
  exists cpy, s1, s2.
  split; [exact E|]. split; [exact Hne|]. split; [exact Hit|]. split; [exact Hcnt|].
  split; [exact Hfin|exact Hit2].
Defined.

Lemma C9_retreat_from_end_of_empty_witness :
  Rep empty_store 1 2 3 4 [] 16 ∧
  (e ← end_ (Some 1%positive); operator_dec e) empty_store
  = Throw invalid_iterator empty_store.
Proof.
  split; [exact empty_store_Rep|].
  destruct (C9_retreat_from_end_of_empty empty_store 1 2 3 4 [] 16 empty_store_Rep)
    as [Hempty _].
  destruct (Hempty eq_refl) as (_ & Hdec & _). exact Hdec.
Defined.

(** ** The further properties at the sample containers *)

Lemma X1_refines_association_list_witness :
  Rep sample_store 1 2 3 4 sample_entries 16 ∧
  Forall (local_op 1%positive) [Insert 5 50; EraseKey 17; At 9; Clear]%N ∧
  ∃ s',
    exec_all (Some 1%positive) [Insert 5 50; EraseKey 17; At 9; Clear]%N sample_store
    = Throw index_out_of_bound s' ∧
    iterate (Some 1%positive) s' = Ret [(1, 10); (5, 50)]%N s' ∧
    size (Some 1%positive) s' = Ret 2%N s'.
Proof.
  assert (Hops : Forall (local_op (Key:=N) (T:=N) 1%positive)
                   [Insert 5 50; EraseKey 17; At 9; Clear]%N) by (repeat constructor).
  split; [exact sample_store_Rep|]. split; [exact Hops|].
  destruct (X1_refines_association_list sample_store 1 2 3 4 sample_entries 16
              [Insert 5 50; EraseKey 17; At 9; Clear]%N sample_store_Rep Hops)
    as (l & s' & Hit & E & Hit' & Hsz); [done|done|].
  assert (l = [(17, 170); (1, 10)]%N) as ->.
  { vm_compute in Hit. by injection Hit. }
  exists s'. split; [exact E|]. split; [exact Hit'|exact Hsz].
Defined.

Lemma X2_strong_exception_guarantee_witness :
  Rep sample_store 1 2 3 4 sample_entries 16 ∧
  ((∃ s', exec (Some 1%positive) (At 9%N) sample_store = Ret () s') ∨
   (∃ e, exec (Some 1%positive) (At 9%N) sample_store = Throw e sample_store)).
Proof.
  split; [exact sample_store_Rep|].
  exact (proj2 (X2_strong_exception_guarantee sample_store 1 2 3 4 sample_entries 16
                  (At 9%N) sample_store_Rep I eq_refl)).
Defined.


Lemma X4_clear_empties_the_container_witness :
  Rep sample_store 1 2 3 4 sample_entries 16 ∧
  ∃ s',
    clear (Some 1%positive) sample_store = Ret () s' ∧
    size (Some 1%positive) s' = Ret 0%N s' ∧
    iterate (Some 1%positive) s' = Ret [] s' ∧
    get_bucket_count (Some 1%positive) s' = Ret 16%N s' ∧
    count (Some 1%positive) 17%N s' = Ret 0%N s'.
Proof.
  split; [exact sample_store_Rep|].
  destruct (X4_clear_empties_the_container sample_store 1 2 3 4 sample_entries 16
              sample_store_Rep) as (s' & E & Hsz & _ & Hit & _ & Hbc & Hk & _).
  exists s'. split; [exact E|]. split; [exact Hsz|]. split; [exact Hit|].
  split; [exact Hbc|exact (proj1 (Hk 17%N))].
Defined.

Lemma X5_empty_size_begin_end_agree_witness :
  Rep sample_store 1 2 3 4 sample_entries 16 ∧
  ∃ l (cnt : N) (none : bool) first last,
    iterate (Some 1%positive) sample_store = Ret l sample_store ∧
    size (Some 1%positive) sample_store = Ret cnt sample_store ∧
    empty (Some 1%positive) sample_store = Ret none sample_store ∧
    begin (Some 1%positive) sample_store = Ret first sample_store ∧
    end_ (Some 1%positive) sample_store = Ret last sample_store ∧
    cnt = N.of_nat (length l) ∧
    (none = true ↔ l = []) ∧ (cnt = 0%N ↔ l = []) ∧
    (operator_eq first last = true ↔ l = []) ∧
    (operator_ne first last = true ↔ l ≠ []).
Proof.
  split; [exact sample_store_Rep|].
  exact (X5_empty_size_begin_end_agree sample_store 1 2 3 4 sample_entries 16
           sample_store_Rep).
Defined.

Lemma X6_find_count_at_agree_witness :
  Rep sample_store 1 2 3 4 sample_entries 16 ∧
  ∃ it last l,
    find (Some 1%positive) 17%N sample_store = Ret it sample_store ∧
    end_ (Some 1%positive) sample_store = Ret last sample_store ∧
    iterate (Some 1%positive) sample_store = Ret l sample_store ∧
    (operator_ne it last = true →
       ∃ kv, operator_deref it sample_store = Ret kv sample_store ∧ kv ∈ l ∧
             equal_func kv.1 17%N = true ∧
             count (Some 1%positive) 17%N sample_store = Ret 1%N sample_store ∧
             (r ← at_ (Some 1%positive) 17%N; read_ref r) sample_store
             = Ret kv.2 sample_store) ∧
    (operator_eq it last = true →
       count (Some 1%positive) 17%N sample_store = Ret 0%N sample_store ∧
       at_ (Some 1%positive) 17%N sample_store = Throw index_out_of_bound sample_store ∧
       ∀ kv, kv ∈ l → equal_func kv.1 17%N = false).
Proof.
  split; [exact sample_store_Rep|].
  exact (X6_find_count_at_agree sample_store 1 2 3 4 sample_entries 16 17%N
           sample_store_Rep).
Defined.

Lemma X8_subscript_inserts_default_witness :
  Rep sample_store 1 2 3 4 sample_entries 16 ∧ (16 < 2 ^ 63)%N ∧
  entry_of 9%N sample_entries = None ∧
  ∃ r s',
    operator_index (Some 1%positive) 9%N sample_store = Ret r s' ∧
    read_ref r s' = Ret 0%N s' ∧
    at_ (Some 1%positive) 9%N s' = Ret r s' ∧
    iterate (Some 1%positive) s' = Ret [(17, 170); (1, 10); (9, 0)]%N s' ∧
    size (Some 1%positive) s' = Ret 3%N s'.
Proof.
  split; [exact sample_store_Rep|]. split; [reflexivity|]. split; [reflexivity|].
  exact (proj2 (X8_subscript_inserts_default sample_store 1 2 3 4 sample_entries 16 9%N
                  sample_store_Rep eq_refl) eq_refl).
Defined.

Lemma X9_write_through_reference_witness :
  Rep sample_store 1 2 3 4 sample_entries 16 ∧
  entry_of 17%N sample_entries = Some (5%positive, (17, 170)%N) ∧
  ∃ s',
    (r ← at_ (Some 1%positive) 17%N; write_ref r 99%N) sample_store = Ret () s' ∧
    (r ← at_ (Some 1%positive) 17%N; read_ref r) s' = Ret 99%N s' ∧
    iterate (Some 1%positive) s' = Ret [(17, 99); (1, 10)]%N s' ∧
    size (Some 1%positive) s' = Ret 2%N s'.
Proof.
  split; [exact sample_store_Rep|]. split; [reflexivity|].
  destruct (X9_write_through_reference sample_store 1 2 3 4 sample_entries 16 17%N 99%N
              (5%positive, (17, 170)%N) sample_store_Rep eq_refl)
    as (s' & E & Hrd & Hit & Hsz & _).
  exists s'. split; [exact E|]. split; [exact Hrd|]. split; [exact Hit|exact Hsz].
Defined.

Lemma X10_erase_removes_one_entry_witness :
  Rep sample_store 1 2 3 4 ([] ++ (5%positive, (17, 170)%N) :: [(6%positive, (1, 10)%N)]) 16 ∧
  ∃ s',
    erase (Some 1%positive) (mkIt (Some 5%positive) (Some 1%positive)) sample_store
    = Ret () s' ∧
    iterate (Some 1%positive) s' = Ret [(1, 10)%N] s' ∧
    size (Some 1%positive) s' = Ret 1%N s' ∧
    s' !! 5%positive = None ∧
    at_ (Some 1%positive) 1%N s' = Ret (Some 6%positive) s' ∧
    read_ref (Some 6%positive) s' = Ret 10%N s'.
Proof.
  split; [exact sample_store_Rep|].
  destruct (X10_erase_removes_one_entry sample_store 1 2 3 4 [] 5%positive (17, 170)%N
              [(6%positive, (1, 10)%N)] 16 sample_store_Rep)
    as (s' & E & Hit & Hsz & _ & Hfree & _ & Hkeep & _).
  destruct (Hkeep 1%N (6%positive, (1, 10)%N) eq_refl) as [Hat Hrd]; [done|].
  exists s'. split; [exact E|]. split; [exact Hit|]. split; [exact Hsz|].
  split; [exact Hfree|]. split; [exact Hat|exact Hrd].
Defined.

Lemma X11_insert_keeps_entries_in_place_witness :
  Rep full_store 1 2 3 4 full_entries 16 ∧ (16 < 2 ^ 63)%N ∧
  entry_of 13%N full_entries = None ∧
  ∃ pos s',
    insert (Some 1%positive) (13, 130)%N full_store = Ret (pos, true) s' ∧
    get_bucket_count (Some 1%positive) s' = Ret 32%N s' ∧
    operator_deref pos s' = Ret (13, 130)%N s' ∧
    at_ (Some 1%positive) 7%N s' = Ret (Some 11%positive) s' ∧
    read_ref (Some 11%positive) s' = Ret 70%N s'.
Proof.
  split; [exact full_store_Rep|]. split; [reflexivity|]. split; [reflexivity|].
  destruct (X11_insert_keeps_entries_in_place full_store 1 2 3 4 full_entries 16 13%N 130%N
              full_store_Rep eq_refl eq_refl) as (pos & s' & E & Hd & _ & _ & Hold).
  destruct (Hold 7%N (11%positive, (7, 70)%N) eq_refl) as (_ & _ & Hat & Hrd).
  exists pos, s'. split; [exact E|]. split.
  - vm_compute in E. injection E as <- <-. vm_compute. reflexivity.
  - split; [exact Hd|]. split; [exact Hat|exact Hrd].
Defined.

Lemma X12_cursors_follow_insertion_order_witness :
  Rep sample_store 1 2 3 4 sample_entries 16 ∧
  begin (Some 1%positive) sample_store
  = Ret (mkIt (Some 5%positive) (Some 1%positive)) sample_store ∧
  operator_inc (mkIt (Some 5%positive) (Some 1%positive)) sample_store
  = Ret (mkIt (Some 6%positive) (Some 1%positive)) sample_store ∧
  operator_dec (mkIt (Some 6%positive) (Some 1%positive)) sample_store
  = Ret (mkIt (Some 5%positive) (Some 1%positive)) sample_store ∧
  (it ← end_ (Some 1%positive); operator_dec it) sample_store
  = Ret (mkIt (Some 6%positive) (Some 1%positive)) sample_store.
Proof.
  split; [exact sample_store_Rep|].
  destruct (X12_cursors_follow_insertion_order sample_store 1 2 3 4 sample_entries 16
              sample_store_Rep) as (Hb & Hadj & Hlast & _).
  split; [exact (Hb (5%positive, (17, 170)%N) eq_refl)|].
  destruct (Hadj 0%nat (5%positive, (17, 170)%N) (6%positive, (1, 10)%N) eq_refl eq_refl)
    as [Hi Hd].
  split; [exact Hi|]. split; [exact Hd|].
  exact (proj2 (Hlast (6%positive, (1, 10)%N) eq_refl)).
Defined.

Lemma X13_default_constructor_witness :
  map_at (<[1%positive:=raw_storage]> (∅ : gmap positive (object N N))) 1%positive
  = Some (mkMap None None None 0 0) ∧
  ∃ s',
    ctor (Some 1%positive) (<[1%positive:=raw_storage]> (∅ : gmap positive (object N N)))
    = Ret () s' ∧
    size (Some 1%positive) s' = Ret 0%N s' ∧
    get_bucket_count (Some 1%positive) s' = Ret 16%N s' ∧
    count (Some 1%positive) 5%N s' = Ret 0%N s'.
Proof.
  assert (Hm : map_at (<[1%positive:=raw_storage]> (∅ : gmap positive (object N N)))
                 1%positive = Some (mkMap None None None 0 0)) by reflexivity.
  split; [exact Hm|].
  destruct (X13_default_constructor
              (<[1%positive:=raw_storage]> (∅ : gmap positive (object N N))) 1%positive
              (mkMap None None None 0 0) Hm)
    as (s' & E & Hsz & _ & Hbc & _ & _ & Hk & _).
  exists s'. split; [exact E|]. split; [exact Hsz|]. split; [exact Hbc|].
  exact (proj1 (Hk 5%N)).
Defined.

Lemma X14_destructor_frees_the_container_witness :
  Rep sample_store 1 2 3 4 sample_entries 16 ∧
  ∃ s',
    dtor (Some 1%positive) sample_store = Ret () s' ∧
    s' !! 2%positive = None ∧ s' !! 3%positive = None ∧ s' !! 4%positive = None ∧
    s' !! 5%positive = None ∧ s' !! 6%positive = None ∧
    s' !! 1%positive = sample_store !! 1%positive.
Proof.
  split; [exact sample_store_Rep|].
  destruct (X14_destructor_frees_the_container sample_store 1 2 3 4 sample_entries 16
              sample_store_Rep) as (s' & E & Hh & Ht & Hb & Hes & Hthis & _).
  exists s'. split; [exact E|]. split; [exact Hh|]. split; [exact Ht|]. split; [exact Hb|].
  split; [apply Hes; simpl; constructor|].
  split; [apply Hes; simpl; repeat constructor|exact Hthis].
Defined.

Lemma X15_rehash_keeps_entries_witness :
  Rep sample_store 1 2 3 4 sample_entries 16 ∧
  (0 < 5 < 2 ^ 64)%N ∧ (4 * N.of_nat (length sample_entries) ≤ 3 * 5)%N ∧
  ∃ s',
    rehash (Some 1%positive) 5%N sample_store = Ret () s' ∧
    get_bucket_count (Some 1%positive) s' = Ret 5%N s' ∧
    iterate (Some 1%positive) s' = Ret [(17, 170); (1, 10)]%N s' ∧
    find_in_bucket (Some 1%positive) 17%N 2%N s' = Ret (Some 5%positive) s'.
Proof.
  split; [exact sample_store_Rep|].
  assert (H1 : (0 < 5 < 2 ^ 64)%N) by done.
  assert (H2 : (4 * N.of_nat (length sample_entries) ≤ 3 * 5)%N) by done.
  split; [exact H1|]. split; [exact H2|].
  destruct (X15_rehash_keeps_entries sample_store 1 2 3 4 sample_entries 16 5%N
              sample_store_Rep H1 H2) as (s' & E & Hbc & Hit & _ & _ & _ & Hf).
  exists s'. split; [exact E|]. split; [exact Hbc|]. split; [exact Hit|].
  exact (Hf 17%N (5%positive, (17, 170)%N) eq_refl).
Defined.


Lemma X16_no_storage_is_leaked_witness :
  new_linked_hashmap (∅ : gmap positive (object N N)) = Ret (Some 1%positive) empty_store ∧
  Forall (local_op 1%positive) [Insert 5 50; Index 7; EraseKey 5; At 9; Clear]%N ∧
  ∃ s1,
    finished (exec_all (Some 1%positive) [Insert 5 50; Index 7; EraseKey 5; At 9; Clear]%N
                empty_store) s1 ∧
    delete_linked_hashmap (Some 1%positive) s1 = Ret () ∅.
Proof.
  assert (Hops : Forall (local_op (Key:=N) (T:=N) 1%positive)
                   [Insert 5 50; Index 7; EraseKey 5; At 9; Clear]%N) by (repeat constructor).
  split; [vm_compute; reflexivity|]. split; [exact Hops|].
  destruct (X16_no_storage_is_leaked (∅ : gmap positive (object N N)))
    as (this & sa & E & Huse).
  vm_compute in E. injection E as <- <-.
  destruct (Huse [Insert 5 50; Index 7; EraseKey 5; At 9; Clear]%N Hops) as (s1 & Hfin & Hdel);
    [done|].
  exists s1. split; [exact Hfin|exact Hdel].
Defined.

Lemma X17_copy_and_delete_restore_the_store_witness :
  Rep sample_store 1 2 3 4 sample_entries 16 ∧ (16 ≤ 2 ^ 62)%N ∧
  ∃ cpy s1 s2,
    new_linked_hashmap_copy (Some 1%positive) sample_store = Ret (Some cpy) s1 ∧
    iterate (Some cpy) s1 = Ret [(17, 170); (1, 10)]%N s1 ∧
    finished (exec_all (Some cpy) [Insert 5 50; Assign (Some 1%positive); Clear]%N s1) s2 ∧
    delete_linked_hashmap (Some cpy) s2 = Ret () sample_store.
Proof.
  split; [exact sample_store_Rep|].
  assert (Hbc : (16 ≤ 2 ^ 62)%N) by done.
  split; [exact Hbc|].
  destruct (X17_copy_and_delete_restore_the_store sample_store 1 2 3 4 sample_entries 16
              sample_store_Rep Hbc) as (cpy & s1 & E & Hit & Huse).
  destruct (Huse [Insert 5 50; Assign (Some 1%positive); Clear]%N) as (s2 & Hfin & Hdel).
  { constructor; [exact I|]. constructor; [right; reflexivity|].
    constructor; [exact I|constructor]. }
  { done. }
  exists cpy, s1, s2. split; [exact E|]. split; [exact Hit|]. split; [exact Hfin|exact Hdel].
Defined.

End sjtu.
